(** * scalatrix: scales as paths on a 2D lattice

    A shallow embedding of the MOS and Scale classes of scalatrix
    (src/mos.cpp, include/scalatrix/mos.hpp, src/scale.cpp, src/params.cpp)
    and the properties of them that the specification states, followed by
    the functions around them (src/c_api.cpp, src/label_calculator.cpp,
    src/pitchset.cpp, src/spectrum.cpp, src/consonance.cpp) and further
    properties that the code itself shows.

    Conventions of the embedding.
    - [int] is [Z].  Signed overflow is undefined behaviour in C++, so the
      model describes the executions that stay inside the range of [int].
      [/] and [%] on [int] truncate towards zero: [Z.quot] and [Z.rem].
    - [double] is [R]: arithmetic is exact, there is no rounding, no
      infinity and no NaN.  [std::exp2] is [exp2 x = 2^x].  A quotient whose
      divisor is zero is an infinity or a NaN in the program and no real
      number: the retuning methods, which store such quotients (the
      [generator] of [_recalcOnRetuneUsingAffine], the scale factor of
      [retuneTwoPoints]), return [None] there.  [x / y] elsewhere is the
      total division of the reals: the theorems on those functions assume
      that the divisor is not zero, or do not depend on the quotient.
    - An exception that leaves a function ([std::length_error] of
      [reserve] with a negative count) is [None], or the outcome
      [LengthError] of a method of [MOS].
    - [assert] is the C assertion of a build without NDEBUG: a false
      condition stops the program at that statement.
    - A method that mutates [*this] takes the object before the call and
      returns the object after it. *)

From Equations Require Import Equations.
From Stdlib Require Import ZArith Znumtheory List Bool String Ascii Sorted Lia Reals Lra.
From Stdlib Require Import DecimalString.
From Stdlib Require FMapAVL OrderedTypeEx FMapFacts.
Import ListNotations.

Local Open Scope Z_scope.

(** ** Lattice vectors and tuning-space vectors *)

(** [Vector2i]: a point of the generating lattice, with the operators the
    sources use on it ([+], [-], [* int]). *)
Module Vector2i.
Record t : Set := mk { x : Z; y : Z }.
Definition add (u v : t) : t := mk (x u + x v) (y u + y v).
Definition sub (u v : t) : t := mk (x u - x v) (y u - y v).
Definition scale (u : t) (k : Z) : t := mk (x u * k) (y u * k).
End Vector2i.

(** [Vector2d]: a point of tuning space; [ofVector2i] is the conversion
    [Vector2d(v)] of a lattice vector. *)
Module Vector2d.
Record t : Type := mk { x : R; y : R }.
Definition ofVector2i (v : Vector2i.t) : t :=
  mk (IZR (Vector2i.x v)) (IZR (Vector2i.y v)).
End Vector2d.

(** Comparisons of [double] as the conditions of the sources use them. *)
Definition Rleb (x y : R) : bool := if Rle_dec x y then true else false.
Definition Rltb (x y : R) : bool := if Rlt_dec x y then true else false.

(** [std::exp2]. *)
Definition exp2 (x : R) : R := Rpower 2 x.

(** A quotient of two [double]s: no real number when the divisor is zero. *)
Definition Rdiv_checked (x y : R) : option R :=
  if Req_dec_T y 0 then None else Some (x / y)%R.

(** ** Affine transforms *)

(** Modelled from the spec: affine_transform.hpp is not among the sources.
    Section 3 gives the data: [(a, b, c, d, tx, ty)] with
    [apply(x,y) = (a x + b y + tx, c x + d y + ty)], and ["compose(Outer,
    Inner) applies Inner first"].  params.cpp builds a transform with the
    constructor arguments in the order [(a, b, c, d, tx, ty)];
    [AffineTransform()] is the identity map. *)
Module AffineTransform.
Record t : Type := mk { a : R; b : R; c : R; d : R; tx : R; ty : R }.
Definition identity : t := mk 1 0 0 1 0 0.
Definition apply (A : t) (p : Vector2d.t) : Vector2d.t :=
  Vector2d.mk (a A * Vector2d.x p + b A * Vector2d.y p + tx A)
              (c A * Vector2d.x p + d A * Vector2d.y p + ty A).
(** [A * v] for a lattice vector [v]. *)
Definition applyi (A : t) (v : Vector2i.t) : Vector2d.t :=
  apply A (Vector2d.ofVector2i v).
(** [Outer * Inner]. *)
Definition compose (Outer Inner : t) : t :=
  mk (a Outer * a Inner + b Outer * c Inner)
     (a Outer * b Inner + b Outer * d Inner)
     (c Outer * a Inner + d Outer * c Inner)
     (c Outer * b Inner + d Outer * d Inner)
     (a Outer * tx Inner + b Outer * ty Inner + tx Outer)
     (c Outer * tx Inner + d Outer * ty Inner + ty Outer).
(** Assignments to single members. *)
Definition set_a (A : t) (v : R) : t := mk v (b A) (c A) (d A) (tx A) (ty A).
Definition set_tx (A : t) (v : R) : t := mk (a A) (b A) (c A) (d A) v (ty A).
Definition set_ty (A : t) (v : R) : t := mk (a A) (b A) (c A) (d A) (tx A) v.
End AffineTransform.

(** Modelled from the spec: the integer variant of the transform, of the
    same absent header; only its six coefficients are needed here. *)
Module IntegerAffineTransform.
Record t : Set := mk { a : Z; b : Z; c : Z; d : Z; tx : Z; ty : Z }.
End IntegerAffineTransform.

(** ** The parts of the library that are not among the sources *)

(** [findClosestWithinStrip] (lattice.hpp), [LinearSolver6x6::solve]
    (linear_solver.hpp) and [IntegerAffineTransform::linearFromTwoDots] are
    called by the sources but not defined in them.  The model takes them as
    functions that return; what the specification says of their results is
    stated separately ([keeps_in_strip], [advances], [Solves]) and assumed
    only by the theorems that need it. *)
Class Externals : Type := {
  findClosestWithinStrip : AffineTransform.t -> Vector2i.t * Vector2i.t;
  LinearSolver6x6_solve : list (list R) -> list R -> list R;
  linearFromTwoDots :
    Vector2i.t -> Vector2i.t -> Vector2i.t -> Vector2i.t ->
    IntegerAffineTransform.t
}.

(** ** Integer helpers of mos.cpp *)

(** [int gcd(int a, int b)]: [if (b == 0) return a; return gcd(b, a % b);]. *)
Equations? gcd (a b : Z) : Z by wf (Z.abs_nat b) lt :=
gcd a b with Z.eq_dec b 0 => {
  | left _ := a;
  | right _ := gcd b (Z.rem a b) }.
Proof.
  pose proof (Z.rem_bound_abs a b n). lia.
Qed.

(** [calcPath]: the [while (a_ > 1 || b_ > 1)] loop, one iteration per unit
    of fuel, pushing at the back of [path]; [None] when the fuel runs out
    before the loop condition fails. *)
Fixpoint calcPath_loop (fuel : nat) (a_ b_ : Z) (path : list bool)
  : option (list bool) :=
  if (1 <? a_) || (1 <? b_) then
    match fuel with
    | O => None
    | S fuel' =>
        if b_ <? a_
        then calcPath_loop fuel' (a_ - b_) b_ (path ++ [false])
        else calcPath_loop fuel' a_ (b_ - a_) (path ++ [true])
    end
  else Some path.

(** [calcPath(a, b)]: the loop, then [std::reverse].  The fuel [a + b] is
    enough whenever the loop terminates at all, which it does from positive
    coprime [a] and [b] (lemma [calcPath_terminates]); from other inputs the
    loop of the source can run forever, and the model answers [None]. *)
Definition calcPath (a b : Z) : option (list bool) :=
  option_map (@rev bool) (calcPath_loop (Z.to_nat (a + b)) a b []).

(** [applyPath(path, v)]: [for (bool p : path) if (p) b += a; else a += b;]. *)
Definition applyPath_step (ab : Z * Z) (p : bool) : Z * Z :=
  let (a, b) := ab in if p then (a, b + a) else (a + b, b).

Definition applyPath (path : list bool) (v : Vector2i.t) : Vector2i.t :=
  let (a, b) := fold_left applyPath_step path (Vector2i.x v, Vector2i.y v) in
  Vector2i.mk a b.

(** [applyPathReverse(path, v)]: the same loop over the reversed path with
    [b -= a] and [a -= b]. *)
Definition applyPathReverse_step (ab : Z * Z) (p : bool) : Z * Z :=
  let (a, b) := ab in if p then (a, b - a) else (a - b, b).

Definition applyPathReverse (path : list bool) (v : Vector2i.t) : Vector2i.t :=
  let reversed_path := rev path in
  let (a, b) :=
    fold_left applyPathReverse_step reversed_path (Vector2i.x v, Vector2i.y v) in
  Vector2i.mk a b.

(** ** Nodes and scales (scale.cpp) *)

(** Modelled from the spec: pitchset.hpp is not among the sources; a pitch
    of a pitch set has the two members pitchset.cpp and scale.cpp use, a
    label and a log2 frequency ratio. *)
Module PitchSetPitch.
Record t : Type := mk { label : string; log2fr : R }.
Definition default : t := mk EmptyString 0.
End PitchSetPitch.

(** Modelled from the spec: node.hpp is not among the sources.  Section 3
    gives [natural_coord], [tuning_coord] and [pitch]; scale.cpp and mos.cpp
    also use [isTempered], [temperedPitch] and [closestPitch].  [default] is
    the value of [Node()]. *)
Module Node.
Record t : Type := mk {
  natural_coord : Vector2i.t;
  tuning_coord : Vector2d.t;
  pitch : R;
  isTempered : bool;
  temperedPitch : PitchSetPitch.t;
  closestPitch : PitchSetPitch.t
}.
Definition default : t :=
  mk (Vector2i.mk 0 0) (Vector2d.mk 0 0) 0 false
     PitchSetPitch.default PitchSetPitch.default.
End Node.

(** The strip test of the two passes: [0 <= y && y < 1]. *)
Definition in_strip (y : R) : bool := Rleb 0 y && Rltb y 1.

(** [nodes_[i] = v].  Writing outside the vector is undefined behaviour;
    the model leaves the vector as it is there. *)
Fixpoint store_nat (i : nat) (v : Node.t) (l : list Node.t) : list Node.t :=
  match l, i with
  | [], _ => []
  | _ :: l', O => v :: l'
  | u :: l', S i' => u :: store_nat i' v l'
  end.

Definition store (i : Z) (v : Node.t) (l : list Node.t) : list Node.t :=
  if i <? 0 then l else store_nat (Z.to_nat i) v l.

(** [nodes_[i]] read.  Reading outside the vector is undefined behaviour;
    the model answers [Node()] there. *)
Definition load (i : Z) (l : list Node.t) : Node.t :=
  if i <? 0 then Node.default else nth (Z.to_nat i) l Node.default.

(** [log2] and [std::log10] of <cmath>, on the positive numbers. *)
Definition log2 (x : R) : R := (ln x / ln 2)%R.
Definition log10 (x : R) : R := (ln x / ln 10)%R.

(** [std::to_string(int)]: the decimal digits, after a minus sign for a
    negative number. *)
Definition to_string (z : Z) : string := NilZero.string_of_int (Z.to_int z).

(** The one-character string of a backslash. *)
Definition backslash : string := String (ascii_of_nat 92) EmptyString.

Module Scale.
Record t : Type := mk {
  nodes_ : list Node.t;
  base_freq_ : R;
  root_idx_ : Z
}.

(** [initNodes(N)] on the empty vector of a scale under construction: [N]
    default nodes.  [nodes_.reserve(N)] converts a negative [N] to a size
    above [max_size()] and throws [std::length_error]: [None]. *)
Definition initNodes (N : Z) : option (list Node.t) :=
  if N <? 0 then None else Some (repeat Node.default (Z.to_nat N)).

(** [Scale(base_freq, N, root_node_idx)]. *)
Definition new (base_freq : R) (N root_node_idx : Z) : option t :=
  match initNodes N with
  | None => None
  | Some nodes => Some (mk nodes base_freq root_node_idx)
  end.

Definition getNodes (s : t) : list Node.t := nodes_ s.
Definition getRootIdx (s : t) : Z := root_idx_ s.
Definition getBaseFreq (s : t) : R := base_freq_ s.

(** The body shared by every iteration of the two passes, after the
    lattice step was chosen: [last.natural_coord] is already updated;
    [tuning_coord] and [pitch] are recomputed from it. *)
Definition retuned (A : AffineTransform.t) (base_freq : R)
  (last : Node.t) (natural : Vector2i.t) : Node.t :=
  let tuning := AffineTransform.applyi A natural in
  Node.mk natural tuning (base_freq * exp2 (Vector2d.x tuning))
    (Node.isTempered last) (Node.temperedPitch last) (Node.closestPitch last).

(** One iteration of the forward pass on [last]: add [r] if that keeps the
    node in the strip, else [s] if that does, else [r + s]. *)
Definition forward_step (A : AffineTransform.t) (base_freq : R)
  (r s : Vector2i.t) (zr zs : Vector2d.t) (last : Node.t) : Node.t :=
  let y := Vector2d.y (Node.tuning_coord last) in
  let natural :=
    if in_strip (y + Vector2d.y zr) then Vector2i.add (Node.natural_coord last) r
    else if in_strip (y + Vector2d.y zs) then Vector2i.add (Node.natural_coord last) s
    else Vector2i.add (Node.natural_coord last) (Vector2i.add r s) in
  retuned A base_freq last natural.

(** One iteration of the backward pass: the same with subtraction. *)
Definition backward_step (A : AffineTransform.t) (base_freq : R)
  (r s : Vector2i.t) (zr zs : Vector2d.t) (last : Node.t) : Node.t :=
  let y := Vector2d.y (Node.tuning_coord last) in
  let natural :=
    if in_strip (y - Vector2d.y zr) then Vector2i.sub (Node.natural_coord last) r
    else if in_strip (y - Vector2d.y zs) then Vector2i.sub (Node.natural_coord last) s
    else Vector2i.sub (Node.natural_coord last) (Vector2i.add r s) in
  retuned A base_freq last natural.

(** [for (int n = 1; n < n_max; ++n) { ...; nodes_[root_node_idx + n] = last; }]
    with [iters] iterations left, [n] the loop counter. *)
Fixpoint forward_pass (step : Node.t -> Node.t) (root_node_idx : Z)
  (iters : nat) (n : Z) (last : Node.t) (nodes : list Node.t) : list Node.t :=
  match iters with
  | O => nodes
  | S iters' =>
      let last' := step last in
      forward_pass step root_node_idx iters' (n + 1) last'
        (store (root_node_idx + n) last' nodes)
  end.

(** [for (int n = -1; n >= n_min; --n) { ...; nodes_[root_node_idx + n] = last; }]. *)
Fixpoint backward_pass (step : Node.t -> Node.t) (root_node_idx : Z)
  (iters : nat) (n : Z) (last : Node.t) (nodes : list Node.t) : list Node.t :=
  match iters with
  | O => nodes
  | S iters' =>
      let last' := step last in
      backward_pass step root_node_idx iters' (n - 1) last'
        (store (root_node_idx + n) last' nodes)
  end.

Section Generation.
Context {E : Externals}.

(** [Scale::recalcWithAffine(A, N, root_node_idx)].  The forward loop runs
    for [n = 1 .. n_max - 1], the backward loop for [n = -1 .. n_min]. *)
Definition recalcWithAffine (self : t) (A : AffineTransform.t)
  (N root_node_idx : Z) : t :=
  let M := AffineTransform.set_ty (AffineTransform.set_tx A 0) 0 in
  let (r, s) := findClosestWithinStrip M in
  let zr := AffineTransform.applyi M r in
  let zs := AffineTransform.applyi M s in
  let n_min := - root_node_idx in
  let n_max := N - root_node_idx in
  let root :=
    Node.mk (Vector2i.mk 0 0) (AffineTransform.applyi A (Vector2i.mk 0 0))
      (base_freq_ self) (Node.isTempered Node.default)
      (Node.temperedPitch Node.default) (Node.closestPitch Node.default) in
  let nodes0 := store root_node_idx root (nodes_ self) in
  let nodes1 :=
    forward_pass (forward_step A (base_freq_ self) r s zr zs) root_node_idx
      (Z.to_nat (n_max - 1)) 1 root nodes0 in
  let nodes2 :=
    backward_pass (backward_step A (base_freq_ self) r s zr zs) root_node_idx
      (Z.to_nat (- n_min)) (-1) root nodes1 in
  mk nodes2 (base_freq_ self) (root_idx_ self).

(** [Scale::fromAffine(A, base_freq, N, root_node_idx)]. *)
Definition fromAffine (A : AffineTransform.t) (base_freq : R)
  (N root_node_idx : Z) : option t :=
  match new base_freq N root_node_idx with
  | None => None
  | Some scale => Some (recalcWithAffine scale A N root_node_idx)
  end.

End Generation.

(** [Scale::retuneWithAffine(A)]: every node keeps its [natural_coord]. *)
Definition retuneWithAffine (self : t) (A : AffineTransform.t) : t :=
  mk (map (fun node =>
             let tuning := AffineTransform.applyi A (Node.natural_coord node) in
             Node.mk (Node.natural_coord node) tuning
               (base_freq_ self * exp2 (Vector2d.x tuning))
               false (Node.temperedPitch node) (Node.closestPitch node))
          (nodes_ self))
     (base_freq_ self) (root_idx_ self).

(** The inner loop of [temperToPitchSet] over the pitches of the set, in
    their order: [closest_pitch_log2fr] and [closest_pitch] when it ends.
    A pitch replaces the closest one so far when its distance is smaller
    ([dist < min_dist]). *)
Fixpoint closest_in (pitchset : list PitchSetPitch.t) (node_pitch_log2fr : R)
  (min_dist closest_pitch_log2fr : R) (closest_pitch : PitchSetPitch.t)
  : R * PitchSetPitch.t :=
  match pitchset with
  | [] => (closest_pitch_log2fr, closest_pitch)
  | pitch :: pitchset' =>
      let dist := Rabs (PitchSetPitch.log2fr pitch - node_pitch_log2fr) in
      if Rltb dist min_dist
      then closest_in pitchset' node_pitch_log2fr dist
             (PitchSetPitch.log2fr pitch) pitch
      else closest_in pitchset' node_pitch_log2fr min_dist
             closest_pitch_log2fr closest_pitch
  end.

(** [Scale::temperToPitchSet(pitchset)]; a [PitchSet] is the vector of its
    pitches.  The search starts from [min_dist = 1e6],
    [closest_pitch_log2fr = 0.0] and a default-constructed pitch. *)
Definition temperToPitchSet (self : t) (pitchset : list PitchSetPitch.t) : t :=
  mk (map (fun node =>
             let node_pitch_log2fr := log2 (Node.pitch node / base_freq_ self) in
             let '(closest_pitch_log2fr, closest_pitch) :=
               closest_in pitchset node_pitch_log2fr 1000000 0
                 PitchSetPitch.default in
             Node.mk (Node.natural_coord node) (Node.tuning_coord node)
               (base_freq_ self * exp2 closest_pitch_log2fr)
               true closest_pitch closest_pitch)
          (nodes_ self))
     (base_freq_ self) (root_idx_ self).
End Scale.

(** ** Fitting a transform to three point pairs (params.cpp) *)

Section Params.
Context {E : Externals}.

(** The 6x6 matrix and the right-hand side [affineFromThreeDots] sets up.
    A [std::array<double, 6>] is a list of six numbers. *)
Definition three_dot_matrix (a1 a2 a3 : Vector2d.t) : list (list R) :=
  [ [Vector2d.x a1; Vector2d.y a1; 1; 0; 0; 0];
    [0; 0; 0; Vector2d.x a1; Vector2d.y a1; 1];
    [Vector2d.x a2; Vector2d.y a2; 1; 0; 0; 0];
    [0; 0; 0; Vector2d.x a2; Vector2d.y a2; 1];
    [Vector2d.x a3; Vector2d.y a3; 1; 0; 0; 0];
    [0; 0; 0; Vector2d.x a3; Vector2d.y a3; 1] ]%R.

Definition three_dot_rhs (b1 b2 b3 : Vector2d.t) : list R :=
  [Vector2d.x b1; Vector2d.y b1; Vector2d.x b2; Vector2d.y b2;
   Vector2d.x b3; Vector2d.y b3].

(** [affineFromThreeDots(a1, a2, a3, b1, b2, b3)]: the solution of the
    system, read as [(a, b, tx, c, d, ty)]. *)
Definition affineFromThreeDots (a1 a2 a3 b1 b2 b3 : Vector2d.t)
  : AffineTransform.t :=
  let M := three_dot_matrix a1 a2 a3 in
  let b := three_dot_rhs b1 b2 b3 in
  let sol := LinearSolver6x6_solve M b in
  AffineTransform.mk (nth 0 sol 0%R) (nth 1 sol 0%R) (nth 3 sol 0%R)
    (nth 4 sol 0%R) (nth 2 sol 0%R) (nth 5 sol 0%R).

End Params.

(** ** MOS (mos.hpp, mos.cpp) *)

Module MOS.
Record t : Type := mk {
  a : Z; b : Z; n : Z; a0 : Z; b0 : Z; n0 : Z; mode : Z; nL : Z; nS : Z;
  repetitions : Z; depth : Z;
  equave : R; period : R; generator : R;
  L_vec : Vector2i.t; s_vec : Vector2i.t; chroma_vec : Vector2i.t;
  L_fr : R; s_fr : R; chroma_fr : R;
  path : list bool;
  impliedAffine : AffineTransform.t;
  mosTransform : IntegerAffineTransform.t;
  v_gen : Vector2i.t;
  base_scale : Scale.t
}.

(** How a call of a method that can stop the program ends: it returns with
    the object updated, or an [assert] fails (the object is as it was when
    the assertion was evaluated), or a loop never ends, or the
    [std::length_error] of a [Scale] constructor leaves it. *)
Inductive outcome : Type :=
| Done (self' : t)
| AssertionFailed (self_at_failure : t)
| Diverged
| LengthError.

(** The assignments of [adjustParams] before the path is computed. *)
Definition set_params (self : t) (a b n a0 b0 n0 m r : Z) (e p g : R) : t :=
  mk a b n a0 b0 n0 m (nL self) (nS self) r (depth self) e p g
     (L_vec self) (s_vec self) (chroma_vec self)
     (L_fr self) (s_fr self) (chroma_fr self)
     (path self) (impliedAffine self) (mosTransform self) (v_gen self)
     (base_scale self).

Definition set_path (self : t) (p : list bool) (dp : Z) (vg : Vector2i.t) : t :=
  mk (a self) (b self) (n self) (a0 self) (b0 self) (n0 self) (mode self)
     (nL self) (nS self) (repetitions self) dp
     (equave self) (period self) (generator self)
     (L_vec self) (s_vec self) (chroma_vec self)
     (L_fr self) (s_fr self) (chroma_fr self)
     p (impliedAffine self) (mosTransform self) vg (base_scale self).

Definition set_impliedAffine (self : t) (A : AffineTransform.t) : t :=
  mk (a self) (b self) (n self) (a0 self) (b0 self) (n0 self) (mode self)
     (nL self) (nS self) (repetitions self) (depth self)
     (equave self) (period self) (generator self)
     (L_vec self) (s_vec self) (chroma_vec self)
     (L_fr self) (s_fr self) (chroma_fr self)
     (path self) A (mosTransform self) (v_gen self) (base_scale self).

Definition set_base_scale (self : t) (s : Scale.t) : t :=
  mk (a self) (b self) (n self) (a0 self) (b0 self) (n0 self) (mode self)
     (nL self) (nS self) (repetitions self) (depth self)
     (equave self) (period self) (generator self)
     (L_vec self) (s_vec self) (chroma_vec self)
     (L_fr self) (s_fr self) (chroma_fr self)
     (path self) (impliedAffine self) (mosTransform self) (v_gen self) s.

Definition set_mosTransform (self : t) (T : IntegerAffineTransform.t) : t :=
  mk (a self) (b self) (n self) (a0 self) (b0 self) (n0 self) (mode self)
     (nL self) (nS self) (repetitions self) (depth self)
     (equave self) (period self) (generator self)
     (L_vec self) (s_vec self) (chroma_vec self)
     (L_fr self) (s_fr self) (chroma_fr self)
     (path self) (impliedAffine self) T (v_gen self) (base_scale self).

Definition set_tuning (self : t) (e p g : R) : t :=
  mk (a self) (b self) (n self) (a0 self) (b0 self) (n0 self) (mode self)
     (nL self) (nS self) (repetitions self) (depth self) e p g
     (L_vec self) (s_vec self) (chroma_vec self)
     (L_fr self) (s_fr self) (chroma_fr self)
     (path self) (impliedAffine self) (mosTransform self) (v_gen self)
     (base_scale self).

(** [MOS::updateVectors()]. *)
Definition updateVectors (self : t) : t :=
  let v1 := Vector2i.mk 1 0 in
  let v2 := Vector2i.mk 0 1 in
  let v1_fr := Vector2d.x (AffineTransform.applyi (impliedAffine self) v1) in
  let v2_fr := Vector2d.x (AffineTransform.applyi (impliedAffine self) v2) in
  let '(L, s, Lf, sf, nl, ns) :=
    if Rltb v2_fr v1_fr
    then (v1, v2, v1_fr, v2_fr, a self, b self)
    else (v2, v1, v2_fr, v1_fr, b self, a self) in
  mk (a self) (b self) (n self) (a0 self) (b0 self) (n0 self) (mode self)
     nl ns (repetitions self) (depth self)
     (equave self) (period self) (generator self)
     L s (Vector2i.sub L s) Lf sf (Lf - sf)%R
     (path self) (impliedAffine self) (mosTransform self) (v_gen self)
     (base_scale self).


(** [MOS::nodeEquaveNr(v)]: [(v.x + v.y + 256*n) / n - 256]. *)
Definition nodeEquaveNr (self : t) (v : Vector2i.t) : Z :=
  Z.quot (Vector2i.x v + Vector2i.y v + 256 * n self) (n self) - 256.

(** [MOS::nodeScaleDegree(v)]: [(v.x + v.y + 256*n) % n]. *)
Definition nodeScaleDegree (self : t) (v : Vector2i.t) : Z :=
  Z.rem (Vector2i.x v + Vector2i.y v + 256 * n self) (n self).

(** [MOS::nodeInScale(v)]. *)
Definition nodeInScale (self : t) (v : Vector2i.t) : bool :=
  let d := Vector2i.x v * b self - Vector2i.y v * a self + mode self in
  if (d <? 0) || (n self <=? d) then false else true.

(** [MOS::mapFromMOS(other, v)]. *)
Definition mapFromMOS (self other : t) (v : Vector2i.t) : Vector2i.t :=
  let result := applyPathReverse (path other) v in
  applyPath (path self) result.

(** [MOS::_recalcOnRetuneUsingAffine(A)].  [generator] is a quotient by the
    new [period], taken without a test: [None] when that period is zero. *)
Definition _recalcOnRetuneUsingAffine (self : t) (A : AffineTransform.t)
  : option t :=
  let self1 := set_base_scale self (Scale.retuneWithAffine (base_scale self) A) in
  let self2 := set_impliedAffine self1 A in
  let o := Vector2d.x (AffineTransform.applyi A (Vector2i.mk 0 0)) in
  let e := (Vector2d.x (AffineTransform.applyi A (Vector2i.mk (a self2) (b self2))) - o)%R in
  let p := (Vector2d.x (AffineTransform.applyi A (Vector2i.mk (a0 self2) (b0 self2))) - o)%R in
  match Rdiv_checked (Vector2d.x (AffineTransform.applyi A (v_gen self2)) - o) p with
  | None => None
  | Some g => Some (updateVectors (set_tuning self2 e p g))
  end.

(** [MOS::retuneZeroPoint()]. *)
Definition retuneZeroPoint (self : t) : option t :=
  _recalcOnRetuneUsingAffine self (impliedAffine self).

(** [MOS::retuneOnePoint(v, log2fr)]. *)
Definition retuneOnePoint (self : t) (v : Vector2i.t) (log2fr : R)
  : option t :=
  let shift := (log2fr - Vector2d.x (AffineTransform.applyi (impliedAffine self) v))%R in
  let A := impliedAffine self in
  let A := AffineTransform.set_tx A (AffineTransform.tx A + shift) in
  _recalcOnRetuneUsingAffine self A.

(** [MOS::retuneTwoPoints(fixed, v, log2fr)].  The quotient [scale] is
    taken without a test of its divisor: [None] when the divisor is zero,
    and [None] as well when the quotient of [_recalcOnRetuneUsingAffine]
    has a zero divisor. *)
Definition retuneTwoPoints (self : t) (fixed v : Vector2i.t) (log2fr : R)
  : option t :=
  let A := impliedAffine self in
  let B := AffineTransform.identity in
  let fixed_log2fr := Vector2d.x (AffineTransform.applyi A fixed) in
  match Rdiv_checked (log2fr - fixed_log2fr)
          (Vector2d.x (AffineTransform.applyi A v) - fixed_log2fr) with
  | None => None
  | Some scale =>
      let B := AffineTransform.set_a B scale in
      let A := AffineTransform.compose B A in
      let shift := (fixed_log2fr - Vector2d.x (AffineTransform.applyi A fixed))%R in
      let A := AffineTransform.set_tx A shift in
      _recalcOnRetuneUsingAffine self A
  end.

(** The body of the loop of [generateScaleFromMOS] for the counter [i]:
    what it leaves in [node], the slot [i + root] of the new scale.  The
    reference node is the node [(i + 128*n) % n] of the base scale, moved
    by [(i + 128*n) / n - 128] equaves. *)
Definition generated_node (self : t) (base_freq : R) (i : Z) (node : Node.t)
  : Node.t :=
  let idx := Z.rem (i + 128 * n self) (n self) in
  let octave_nr := Z.quot (i + 128 * n self) (n self) - 128 in
  let ref := load idx (Scale.getNodes (base_scale self)) in
  let natural :=
    Vector2i.add (Vector2i.scale (Vector2i.mk (a self) (b self)) octave_nr)
      (Node.natural_coord ref) in
  let tuning := AffineTransform.applyi (impliedAffine self) natural in
  let tuning :=
    Vector2d.mk (Vector2d.x (Node.tuning_coord ref) + IZR octave_nr * equave self)
      (Vector2d.y tuning) in
  Node.mk natural tuning (base_freq * exp2 (Vector2d.x tuning))
    (Node.isTempered ref) (Node.temperedPitch ref) (Node.closestPitch node).

(** [for (int i = -root; i < n_nodes - root; i++)] with [iters] iterations
    left. *)
Fixpoint generateScaleFromMOS_loop (self : t) (base_freq : R) (root : Z)
  (iters : nat) (i : Z) (nodes : list Node.t) : list Node.t :=
  match iters with
  | O => nodes
  | S iters' =>
      let node := load (i + root) nodes in
      generateScaleFromMOS_loop self base_freq root iters' (i + 1)
        (store (i + root) (generated_node self base_freq i node) nodes)
  end.

(** [MOS::generateScaleFromMOS(base_freq, n_nodes, root)]. *)
Definition generateScaleFromMOS (self : t) (base_freq : R) (n_nodes root : Z)
  : option Scale.t :=
  match Scale.new base_freq n_nodes root with
  | None => None
  | Some scale =>
      Some (Scale.mk
              (generateScaleFromMOS_loop self base_freq root
                 (Z.to_nat n_nodes) (- root) (Scale.getNodes scale))
              (Scale.getBaseFreq scale) (Scale.getRootIdx scale))
  end.

(** The body of the loop of [retuneScaleWithMOS] for the index [i]: the
    node keeps its [natural_coord] and the [y] of its [tuning_coord]. *)
Definition retuned_node (self : t) (base_freq : R) (root_idx i : Z)
  (node : Node.t) : Node.t :=
  let idx := Z.rem (i - root_idx + 128 * n self) (n self) in
  let octave_nr := Z.quot (i - root_idx + 128 * n self) (n self) - 128 in
  let ref := load idx (Scale.getNodes (base_scale self)) in
  let tuning :=
    Vector2d.mk (Vector2d.x (Node.tuning_coord ref) + IZR octave_nr * equave self)
      (Vector2d.y (Node.tuning_coord node)) in
  Node.mk (Node.natural_coord node) tuning
    (base_freq * exp2 (Vector2d.x tuning))
    (Node.isTempered ref) (Node.temperedPitch ref) (Node.closestPitch node).

(** [for (int i = 0; i < scale.getNodes().size(); i++)] with [iters]
    iterations left. *)
Fixpoint retuneScaleWithMOS_loop (self : t) (base_freq : R) (root_idx : Z)
  (iters : nat) (i : Z) (nodes : list Node.t) : list Node.t :=
  match iters with
  | O => nodes
  | S iters' =>
      let node := load i nodes in
      retuneScaleWithMOS_loop self base_freq root_idx iters' (i + 1)
        (store i (retuned_node self base_freq root_idx i node) nodes)
  end.

(** [MOS::retuneScaleWithMOS(scale, base_freq)]: the scale after the call.
    Its [base_freq_] member is not written. *)
Definition retuneScaleWithMOS (self : t) (scale : Scale.t) (base_freq : R)
  : Scale.t :=
  let root_idx := Scale.getRootIdx scale in
  Scale.mk
    (retuneScaleWithMOS_loop self base_freq root_idx
       (List.length (Scale.getNodes scale)) 0 (Scale.getNodes scale))
    (Scale.getBaseFreq scale) (Scale.getRootIdx scale).

(** The loop that [adjustG] and [fromG] run [depth] times from
    [a0 = b0 = 1], [a_len = g], [b_len = 1 - g]: the longer of the two
    lengths is cut by the shorter and the other count grows. *)
Fixpoint adjustG_loop (iters : nat) (a0 b0 : Z) (a_len b_len : R) : Z * Z :=
  match iters with
  | O => (a0, b0)
  | S iters' =>
      if Rltb b_len a_len
      then adjustG_loop iters' a0 (b0 + a0) (a_len - b_len) b_len
      else adjustG_loop iters' (a0 + b0) b0 a_len (b_len - a_len)
  end.

Section Methods.
Context {E : Externals}.

(** [MOS::calcImpliedAffine()]. *)
Definition calcImpliedAffine (self : t) : AffineTransform.t :=
  let q := (5 / 10 / IZR (n0 self))%R in
  affineFromThreeDots
    (Vector2d.mk 0 0)
    (Vector2d.mk (IZR (Vector2i.x (v_gen self))) (IZR (Vector2i.y (v_gen self))))
    (Vector2d.mk (IZR (a0 self)) (IZR (b0 self)))
    (Vector2d.mk 0 (q * IZR (2 * mode self + 1)))
    (Vector2d.mk (generator self * period self) (q * IZR (2 * mode self + 3)))
    (Vector2d.mk (period self) (q * IZR (2 * mode self + 1))).

(** [MOS::adjustParams(a, b, m, e, g)]. *)
Definition adjustParams (self : t) (a b m : Z) (e g : R) : outcome :=
  if negb (0 <? a) then AssertionFailed self
  else if negb (0 <? b) then AssertionFailed self
  else if negb (Rleb 0 g && Rleb g 1) then AssertionFailed self
  else
    let n := a + b in
    let r := gcd a b in
    let a0 := Z.quot a r in
    let b0 := Z.quot b r in
    let n0 := a0 + b0 in
    let self := set_params self a b n a0 b0 n0 m r e (e / IZR r)%R g in
    match calcPath a0 b0 with
    | None => Diverged
    | Some p =>
        let self :=
          set_path self p (Z.of_nat (List.length p))
            (applyPath p (Vector2i.mk 1 0)) in
        let self := set_impliedAffine self (calcImpliedAffine self) in
        let self := updateVectors self in
        match Scale.fromAffine (impliedAffine self) 1 (n + 1) 0 with
        | None => LengthError
        | Some scale =>
            let self := set_base_scale self scale in
            Done (set_mosTransform self
                    (linearFromTwoDots (Vector2i.mk 1 0) (Vector2i.mk 1 1)
                       (v_gen self) (Vector2i.mk a0 b0)))
        end
    end.

(** [MOS::MOS(a, b, m, e, g)]: [adjustParams] on the object as it is when
    the constructor's body starts ([raw]). *)
Definition new (raw : t) (a b m : Z) (e g : R) : outcome :=
  adjustParams raw a b m e g.

(** [MOS::fromParams(a, b, m, e, g)]. *)
Definition fromParams (raw : t) (a b m : Z) (e g : R) : outcome :=
  new raw a b m e g.

(** [MOS::adjustG(depth, m, g, e, _repetitions)]. *)
Definition adjustG (self : t) (depth m : Z) (g e : R) (_repetitions : Z)
  : outcome :=
  let '(a0, b0) := adjustG_loop (Z.to_nat depth) 1 1 g (1 - g) in
  adjustParams self (a0 * _repetitions) (b0 * _repetitions) m e g.

(** [MOS::fromG(depth, m, g, e, repetitions)]. *)
Definition fromG (raw : t) (depth m : Z) (g e : R) (repetitions : Z)
  : outcome :=
  let '(a0, b0) := adjustG_loop (Z.to_nat depth) 1 1 g (1 - g) in
  new raw (a0 * repetitions) (b0 * repetitions) m e g.

(** [MOS::retuneThreePoints(fixed1, fixed2, v, log2fr)]. *)
Definition retuneThreePoints (self : t) (fixed1 fixed2 v : Vector2i.t)
  (log2fr : R) : option t :=
  let fixed1_tuning := AffineTransform.applyi (impliedAffine self) fixed1 in
  let fixed2_tuning := AffineTransform.applyi (impliedAffine self) fixed2 in
  let v_tuning := AffineTransform.applyi (impliedAffine self) v in
  let v_tuning := Vector2d.mk log2fr (Vector2d.y v_tuning) in
  let A :=
    affineFromThreeDots
      (Vector2d.ofVector2i fixed1) (Vector2d.ofVector2i fixed2)
      (Vector2d.ofVector2i v)
      fixed1_tuning fixed2_tuning v_tuning in
  _recalcOnRetuneUsingAffine self A.

End Methods.
End MOS.

(** ** The C interface (c_api.cpp) *)

Section CApi.
Context {E : Externals}.

(** [scalatrix_mos_from_params(a, b, mode, equave, generator, repetitions)]:
    [new MOS(a * repetitions, b * repetitions, mode, equave, generator)]. *)
Definition scalatrix_mos_from_params (raw : MOS.t) (a b mode : Z)
  (equave generator : R) (repetitions : Z) : MOS.outcome :=
  MOS.new raw (a * repetitions) (b * repetitions) mode equave generator.

(** [scalatrix_mos_from_g(depth, mode, generator, equave, repetitions)]. *)
Definition scalatrix_mos_from_g (raw : MOS.t) (depth mode : Z)
  (generator equave : R) (repetitions : Z) : MOS.outcome :=
  MOS.fromG raw depth mode generator equave repetitions.

End CApi.

(** ** Labels (label_calculator.cpp)

    The labels of the Tuning family, which read [L_vec].  The functions of
    the other family read [structure_L_vec], a member that mos.hpp does not
    declare, and are left out. *)
Module LabelCalculator.

(** The UTF-8 bytes of the flat sign (U+266D) and of the sharp sign
    (U+266F). *)
Definition flat : string :=
  String (ascii_of_nat 226) (String (ascii_of_nat 153)
    (String (ascii_of_nat 173) EmptyString)).
Definition sharp : string :=
  String (ascii_of_nat 226) (String (ascii_of_nat 153)
    (String (ascii_of_nat 175) EmptyString)).

(** [result += s], [k] times, from the empty string. *)
Fixpoint times (k : nat) (s : string) : string :=
  match k with
  | O => EmptyString
  | S k' => (times k' s ++ s)%string
  end.

(** The value of [acc] in [accidentalStringTuning] before its loops:
    [acc_sign * floor((n_generators + neutral_mode + 0.5) / mos.n0)]. *)
Definition accidentalTuning (mos : MOS.t) (v : Vector2i.t) : Z :=
  let acc_sign := if Vector2i.x (MOS.L_vec mos) =? 1 then 1 else -1 in
  let neutral_mode :=
    if Vector2i.x (MOS.L_vec mos) =? 1 then 1 else MOS.n0 mos - 2 in
  let n_generators :=
    Vector2i.x v * MOS.b0 mos - Vector2i.y v * MOS.a0 mos in
  acc_sign
  * Zfloor ((IZR (n_generators + neutral_mode) + 5 / 10) / IZR (MOS.n0 mos)).

(** [accidentalStringTuning(mos, v)]: the first loop appends a flat while
    [acc < 0], the second a sharp while [acc > 0]. *)
Definition accidentalStringTuning (mos : MOS.t) (v : Vector2i.t) : string :=
  let acc := accidentalTuning mos v in
  (times (Z.to_nat (- acc)) flat ++ times (Z.to_nat acc) sharp)%string.

(** [nodeLabelDigitTuning(mos, v, accidentalAfter)]. *)
Definition nodeLabelDigitTuning (mos : MOS.t) (v : Vector2i.t)
  (accidentalAfter : bool) : string :=
  let dia :=
    Z.rem (Vector2i.x v + Vector2i.y v + 128 * MOS.n mos) (MOS.n mos) in
  let deg := to_string (dia + 1) in
  let acc := accidentalStringTuning mos v in
  if accidentalAfter then (deg ++ acc)%string else (acc ++ deg)%string.

(** [nodeLabelDigitTuningZeroBased(mos, v, accidentalAfter)]. *)
Definition nodeLabelDigitTuningZeroBased (mos : MOS.t) (v : Vector2i.t)
  (accidentalAfter : bool) : string :=
  let dia :=
    Z.rem (Vector2i.x v + Vector2i.y v + 128 * MOS.n mos) (MOS.n mos) in
  let deg := to_string dia in
  let acc := accidentalStringTuning mos v in
  if accidentalAfter then (deg ++ acc)%string else (acc ++ deg)%string.

(** [nodeLabelLetterTuning(mos, v, accidentalAfter)]; the letter is the
    [char] of the code ['A' + dia]. *)
Definition nodeLabelLetterTuning (mos : MOS.t) (v : Vector2i.t)
  (accidentalAfter : bool) : string :=
  let dia :=
    Z.rem (Vector2i.x v + Vector2i.y v + 2 + 128 * MOS.n mos) (MOS.n mos) in
  let letter :=
    String (ascii_of_N (Z.to_N ((65 + dia) mod 256))) EmptyString in
  let acc := accidentalStringTuning mos v in
  if accidentalAfter then (letter ++ acc)%string else (acc ++ letter)%string.

(** [nodeLabelLetterWithOctaveNumberTuning(mos, v, middle_C_octave,
    accidentalAfter)]. *)
Definition nodeLabelLetterWithOctaveNumberTuning (mos : MOS.t)
  (v : Vector2i.t) (middle_C_octave : Z) (accidentalAfter : bool) : string :=
  let result := nodeLabelLetterTuning mos v accidentalAfter in
  let octave :=
    middle_C_octave
    + Zfloor ((0 + IZR (Vector2i.x v) + IZR (Vector2i.y v)) / IZR (MOS.n mos)) in
  (result ++ to_string octave)%string.

End LabelCalculator.

(** ** Pitch sets (pitchset.cpp) *)

(** Modelled from the spec: pitchset.hpp is not among the sources.
    pitchset.cpp uses three members of a [PseudoPrimeInt]: its label, its
    number and the log2 of the number; a [PrimeList] is the vector of
    them. *)
Module PseudoPrimeInt.
Record t : Type := mk { label : string; number : Z; log2fr : R }.
End PseudoPrimeInt.

(** [const int PRIMES[]]. *)
Definition PRIMES : list Z :=
  [2; 3; 5; 7; 11; 13; 17; 19; 23; 29; 31; 37; 41; 43; 47; 53; 59; 61; 67;
   71; 73; 79; 83; 89; 97].

(** [pseudoPrimeFromIndexNumber(index)].  [PRIMES[index]] outside the table
    is undefined behaviour: the model answers [None] there. *)
Definition pseudoPrimeFromIndexNumber (index : Z)
  : option PseudoPrimeInt.t :=
  match (if index <? 0 then None else nth_error PRIMES (Z.to_nat index)) with
  | None => None
  | Some p =>
      Some (PseudoPrimeInt.mk (to_string p) p (log2 (IZR p)))
  end.

(** [for (int i = 0; i < n_primes; i++)] of [generateDefaultPrimeList]. *)
Fixpoint generateDefaultPrimeList_loop (iters : nat) (i : Z)
  (primes : list PseudoPrimeInt.t) : option (list PseudoPrimeInt.t) :=
  match iters with
  | O => Some primes
  | S iters' =>
      match pseudoPrimeFromIndexNumber i with
      | None => None
      | Some p => generateDefaultPrimeList_loop iters' (i + 1) (primes ++ [p])
      end
  end.

(** [generateDefaultPrimeList(n_primes)]. *)
Definition generateDefaultPrimeList (n_primes : Z)
  : option (list PseudoPrimeInt.t) :=
  let n_primes := Z.min n_primes 25 in
  generateDefaultPrimeList_loop (Z.to_nat n_primes) 0 [].

(** [std::sort] of a pitch set by [a.log2fr < b.log2fr], as an insertion
    sort.  The order [std::sort] gives to pitches of equal [log2fr] is
    unspecified. *)
Fixpoint insert_by_log2fr (p : PitchSetPitch.t) (l : list PitchSetPitch.t)
  : list PitchSetPitch.t :=
  match l with
  | [] => [p]
  | q :: l' =>
      if Rltb (PitchSetPitch.log2fr q) (PitchSetPitch.log2fr p)
      then q :: insert_by_log2fr p l'
      else p :: l
  end.

Definition sort_by_log2fr (l : list PitchSetPitch.t) : list PitchSetPitch.t :=
  fold_right insert_by_log2fr [] l.

(** [for (int i = min_step; i <= max_step; i++)] of [generateETPitchSet],
    with [iters] iterations left. *)
Fixpoint generateETPitchSet_loop (n_et : Z)
  (equave_log2fr min_log2fr max_log2fr : R) (iters : nat) (i : Z)
  (pitchset : list PitchSetPitch.t) : list PitchSetPitch.t :=
  match iters with
  | O => pitchset
  | S iters' =>
      let p :=
        PitchSetPitch.mk
          (to_string i ++ backslash ++ to_string n_et)
          (IZR i * equave_log2fr / IZR n_et) in
      generateETPitchSet_loop n_et equave_log2fr min_log2fr max_log2fr
        iters' (i + 1)
        (if Rleb (min_log2fr - 1 / 1000000) (PitchSetPitch.log2fr p)
            && Rleb (PitchSetPitch.log2fr p) (max_log2fr + 1 / 1000000)
         then pitchset ++ [p] else pitchset)
  end.

(** [generateETPitchSet(n_et, equave_log2fr, min_log2fr, max_log2fr)];
    [n_et] is an [unsigned int]. *)
Definition generateETPitchSet (n_et : Z)
  (equave_log2fr min_log2fr max_log2fr : R) : list PitchSetPitch.t :=
  let min_step := Zceil (min_log2fr * IZR n_et / equave_log2fr) in
  let max_step := Zfloor (max_log2fr * IZR n_et / equave_log2fr) in
  sort_by_log2fr
    (generateETPitchSet_loop n_et equave_log2fr min_log2fr max_log2fr
       (Z.to_nat (max_step - min_step + 1)) min_step []).

(** ** Spectra (spectrum.hpp, spectrum.cpp) *)

Module Partial.
Record t : Type := mk { ratio : R; amplitude : R }.
End Partial.

(** [std::map<int, double>]. *)
Module ZMap := FMapAVL.Make OrderedTypeEx.Z_as_OT.

Module Spectrum.
Record t : Type := mk { partials : list Partial.t }.



(** [for (int h = 1; h <= max_harmonic; h += 2)] of [oddHarmonic], one
    iteration per unit of fuel. *)
Fixpoint oddHarmonic_loop (fuel : nat) (h max_harmonic : Z) (decay : R)
  (p : list Partial.t) : list Partial.t :=
  if h <=? max_harmonic then
    match fuel with
    | O => p
    | S fuel' =>
        oddHarmonic_loop fuel' (h + 2) max_harmonic decay
          (p ++ [Partial.mk (IZR h) (decay ^ Z.to_nat (h - 1))])
    end
  else p.

(** [Spectrum::oddHarmonic(max_harmonic, decay)]; the loop ends within
    [max_harmonic] iterations. *)
Definition oddHarmonic (max_harmonic : Z) (decay : R) : t :=
  mk (oddHarmonic_loop (Z.to_nat max_harmonic) 1 max_harmonic decay []).

(** [while (i * i <= n)] of [primeFactors], one iteration per unit of
    fuel: [n] and [factors] when the loop ends, [None] when the fuel runs
    out before. *)
Fixpoint primeFactors_loop (fuel : nat) (i n : Z) (factors : list Z)
  : option (Z * list Z) :=
  if i * i <=? n then
    match fuel with
    | O => None
    | S fuel' =>
        if Z.rem n i =? 0
        then primeFactors_loop fuel' i (Z.quot n i) (factors ++ [i])
        else primeFactors_loop fuel' (i + 1) n factors
    end
  else Some (n, factors).

(** [primeFactors(n)].  The fuel [2 * n] is enough for every [n] (lemma
    [primeFactors_loop_ends]). *)
Definition primeFactors (n : Z) : option (list Z) :=
  match primeFactors_loop (Z.to_nat (2 * n)) 2 n [] with
  | None => None
  | Some (n', factors) =>
      Some (if 1 <? n' then factors ++ [n'] else factors)
  end.





End Spectrum.

(** ** Consonance (consonance.cpp) *)

(** [consonanceValue(spiky_normalized)]:
    [max(0.0, 1.0 + 0.5 * log10(max(spiky_normalized, 1e-10)))]. *)
Definition consonanceValue (spiky_normalized : R) : R :=
  Rmax 0 (1 + 5 / 10 * log10 (Rmax spiky_normalized (1 / 10000000000))).

(** [arr[j]] of a [std::vector<double>]: [None] outside the vector. *)
Definition read (j : Z) (arr : list R) : option R :=
  if j <? 0 then None else nth_error arr (Z.to_nat j).

(** The inner loop of [findLocalMaxima],
    [for (int j = i - order; j <= i + order; ++j)], with [iters] iterations
    left: the value of [is_max] when it ends or breaks, [None] when it
    reads outside [arr]. *)
Fixpoint is_max_loop (arr : list R) (i : Z) (iters : nat) (j : Z)
  : option bool :=
  match iters with
  | O => Some true
  | S iters' =>
      if negb (j =? i) then
        match read j arr, read i arr with
        | Some arr_j, Some arr_i =>
            if Rleb arr_i arr_j then Some false
            else is_max_loop arr i iters' (j + 1)
        | _, _ => None
        end
      else is_max_loop arr i iters' (j + 1)
  end.

(** The outer loop, [for (int i = order; i < n - order; ++i)]. *)
Fixpoint findLocalMaxima_loop (arr : list R) (order : Z) (iters : nat)
  (i : Z) (maxima : list Z) : option (list Z) :=
  match iters with
  | O => Some maxima
  | S iters' =>
      match is_max_loop arr i (Z.to_nat (2 * order + 1)) (i - order) with
      | None => None
      | Some is_max =>
          findLocalMaxima_loop arr order iters' (i + 1)
            (if is_max then maxima ++ [i] else maxima)
      end
  end.

(** [findLocalMaxima(arr, order)]. *)
Definition findLocalMaxima (arr : list R) (order : Z) : option (list Z) :=
  let n := Z.of_nat (List.length arr) in
  findLocalMaxima_loop arr order (Z.to_nat (n - order - order)) order [].

(** [g[i] = v] and [f[i]] on a [std::vector<double>]; the accesses of
    [npGradient] are inside the vector. *)
Fixpoint assign_nat (i : nat) (v : R) (g : list R) : list R :=
  match g, i with
  | [], _ => []
  | _ :: g', O => v :: g'
  | u :: g', S i' => u :: assign_nat i' v g'
  end.

Definition assign (i : Z) (v : R) (g : list R) : list R :=
  if i <? 0 then g else assign_nat (Z.to_nat i) v g.

Definition at_index (f : list R) (i : Z) : R :=
  if i <? 0 then 0%R else nth (Z.to_nat i) f 0%R.

(** [for (int i = 1; i < n - 1; ++i)] of [npGradient]. *)
Fixpoint npGradient_loop (f : list R) (dx : R) (iters : nat) (i : Z)
  (g : list R) : list R :=
  match iters with
  | O => g
  | S iters' =>
      npGradient_loop f dx iters' (i + 1)
        (assign i ((at_index f (i + 1) - at_index f (i - 1)) / (2 * dx))%R g)
  end.

(** [npGradient(f, dx)]. *)
Definition npGradient (f : list R) (dx : R) : list R :=
  let n := Z.of_nat (List.length f) in
  let g := repeat 0%R (List.length f) in
  if n <? 2 then g
  else
    let g := assign 0 ((at_index f 1 - at_index f 0) / dx)%R g in
    let g :=
      assign (n - 1) ((at_index f (n - 1) - at_index f (n - 2)) / dx)%R g in
    npGradient_loop f dx (Z.to_nat (n - 2)) 1 g.

(** ** What the specification says of the absent functions *)

(** The linear part of a transform, as [recalcWithAffine] takes it
    ([M.tx = 0; M.ty = 0]). *)
Definition linear_part (A : AffineTransform.t) : AffineTransform.t :=
  AffineTransform.set_ty (AffineTransform.set_tx A 0) 0.

(** Modelled from the spec: [findClosestWithinStrip] (lattice.cpp) is not
    among the sources.  Section 4.3 asks of its result [(r, s)], for the
    linear map [M]: the image of [r] has a positive [y] and that of [s] a
    negative one, and ["starting from any point already mapped into the
    strip 0 <= y < 1, adding r or s always produces the next point that
    is also in the strip"]. *)
Definition one_step_stays (M : AffineTransform.t)
  (rs : Vector2i.t * Vector2i.t) : Prop :=
  let zr := AffineTransform.applyi M (fst rs) in
  let zs := AffineTransform.applyi M (snd rs) in
  (0 < Vector2d.y zr /\ Vector2d.y zs < 0 /\
   forall y, 0 <= y < 1 ->
     0 <= y + Vector2d.y zr < 1 \/ 0 <= y + Vector2d.y zs < 1)%R.

(** Modelled from the spec: the part of section 4.3 that the traversal of
    scale.cpp needs of the pair [(r, s)], weaker than [one_step_stays]
    (lemma [one_step_stays_keeps_in_strip]): neither step is as tall as the
    strip, [r] does not go down and [s] does not go up.  It leaves room for
    the third branch of the traversal, the step [r + s]. *)
Definition keeps_in_strip (M : AffineTransform.t)
  (rs : Vector2i.t * Vector2i.t) : Prop :=
  let zr := AffineTransform.applyi M (fst rs) in
  let zs := AffineTransform.applyi M (snd rs) in
  (0 <= Vector2d.y zr < 1 /\ -1 < Vector2d.y zs <= 0)%R.

(** Modelled from the spec: the steps lead to ["the next point"] of a scale
    ["read off in increasing x"] (sections 1 and 4.3): both images have a
    positive [x]. *)
Definition advances (M : AffineTransform.t)
  (rs : Vector2i.t * Vector2i.t) : Prop :=
  let zr := AffineTransform.applyi M (fst rs) in
  let zs := AffineTransform.applyi M (snd rs) in
  (0 < Vector2d.x zr /\ 0 < Vector2d.x zs)%R.

(** Section 4.4: [A] is normalized when [A(0,0)] has [x = 0] and
    [0 <= y < 1]. *)
Definition normalized (A : AffineTransform.t) : Prop :=
  (AffineTransform.tx A = 0 /\ 0 <= AffineTransform.ty A < 1)%R.

(** Modelled from the spec: [LinearSolver6x6::solve] (linear_solver.hpp) is
    not among the sources.  Section 4.1: it returns ["the unique solution"]
    of the system; [Solves M b x] says that [x] is a solution of
    [M x = b]. *)
Fixpoint dot (row x : list R) : R :=
  match row, x with
  | c :: row', v :: x' => (c * v + dot row' x')%R
  | _, _ => 0%R
  end.

Definition Solves (M : list (list R)) (b x : list R) : Prop :=
  map (fun row => dot row x) M = b.

(** Modelled from the spec: what section 4.2 promises of the transform that
    [calcImpliedAffine] gets from [affineFromThreeDots], ["mapping each
    ai -> bi exactly"]: the origin, the generator vector and the period
    vector go to their three targets.  It follows from [Solves] for the
    system of [calcImpliedAffine] (lemma [calcImpliedAffine_fits]). *)
Definition implied_fit (m : MOS.t) : Prop :=
  let A := MOS.impliedAffine m in
  let q := (5 / 10 / IZR (MOS.n0 m))%R in
  AffineTransform.applyi A (Vector2i.mk 0 0)
    = Vector2d.mk 0 (q * IZR (2 * MOS.mode m + 1)) /\
  AffineTransform.applyi A (MOS.v_gen m)
    = Vector2d.mk (MOS.generator m * MOS.period m)
        (q * IZR (2 * MOS.mode m + 3)) /\
  AffineTransform.applyi A (Vector2i.mk (MOS.a0 m) (MOS.b0 m))
    = Vector2d.mk (MOS.period m) (q * IZR (2 * MOS.mode m + 1)).

(** ** Vocabulary of the statements *)

Definition node_x (nd : Node.t) : R := Vector2d.x (Node.tuning_coord nd).
Definition node_y (nd : Node.t) : R := Vector2d.y (Node.tuning_coord nd).

(** [u] comes before [v] in tuning space. *)
Definition x_lt (u v : Node.t) : Prop := (node_x u < node_x v)%R.

(** The tuning coordinate of a node is the image of its lattice position. *)
Definition tuned (A : AffineTransform.t) (nd : Node.t) : Prop :=
  Node.tuning_coord nd = AffineTransform.applyi A (Node.natural_coord nd).

(** [pitch = base_freq * 2^tuning_coord.x]. *)
Definition pitch_consistent (base_freq : R) (nd : Node.t) : Prop :=
  Node.pitch nd = (base_freq * exp2 (node_x nd))%R.

(** The root node [recalcWithAffine] places. *)
Definition root_node (A : AffineTransform.t) (base_freq : R) : Node.t :=
  Node.mk (Vector2i.mk 0 0) (AffineTransform.applyi A (Vector2i.mk 0 0))
    base_freq false PitchSetPitch.default PitchSetPitch.default.

(** The nodes a pass writes, in the order it writes them. *)
Fixpoint trail (step : Node.t -> Node.t) (k : nat) (last : Node.t)
  : list Node.t :=
  match k with
  | O => []
  | S k' => step last :: trail step k' (step last)
  end.

Definition det2 (u v : Z * Z) : Z := fst u * snd v - snd u * fst v.

(** ** An instance of the absent functions, for the examples

    An exact solver for the systems of [affineFromThreeDots] (Cramer's rule
    on the three source points read back from the matrix), the strip steps
    of a transform implied by a MOS (its large and small step, [(1,0)] and
    [(0,1)]), and the linear map through two point pairs by integer
    elimination. *)
Definition three_dot_solve (M : list (list R)) (b : list R) : list R :=
  let at2 (i j : nat) := nth j (nth i M []) 0%R in
  let x1 := at2 0%nat 0%nat in let y1 := at2 0%nat 1%nat in
  let x2 := at2 2%nat 0%nat in let y2 := at2 2%nat 1%nat in
  let x3 := at2 4%nat 0%nat in let y3 := at2 4%nat 1%nat in
  let det := (x1 * (y2 - y3) - y1 * (x2 - x3) + (x2 * y3 - x3 * y2))%R in
  let fit (u1 u2 u3 : R) : list R :=
    [ (u1 * (y2 - y3) - y1 * (u2 - u3) + (u2 * y3 - u3 * y2)) / det;
      (x1 * (u2 - u3) - u1 * (x2 - x3) + (x2 * u3 - x3 * u2)) / det;
      (x1 * (y2 * u3 - y3 * u2) - y1 * (x2 * u3 - x3 * u2)
       + u1 * (x2 * y3 - x3 * y2)) / det ]%R in
  fit (nth 0 b 0%R) (nth 2 b 0%R) (nth 4 b 0%R)
  ++ fit (nth 1 b 0%R) (nth 3 b 0%R) (nth 5 b 0%R).

Definition unit_steps (M : AffineTransform.t) : Vector2i.t * Vector2i.t :=
  (Vector2i.mk 1 0, Vector2i.mk 0 1).

Definition two_dot_linear (p1 q1 p2 q2 : Vector2i.t)
  : IntegerAffineTransform.t :=
  let det := Vector2i.x p1 * Vector2i.y p2 - Vector2i.x p2 * Vector2i.y p1 in
  IntegerAffineTransform.mk
    (Z.quot (Vector2i.x q1 * Vector2i.y p2 - Vector2i.x q2 * Vector2i.y p1) det)
    (Z.quot (Vector2i.x q2 * Vector2i.x p1 - Vector2i.x q1 * Vector2i.x p2) det)
    (Z.quot (Vector2i.y q1 * Vector2i.y p2 - Vector2i.y q2 * Vector2i.y p1) det)
    (Z.quot (Vector2i.y q2 * Vector2i.x p1 - Vector2i.y q1 * Vector2i.x p2) det)
    0 0.

Definition example_externals : Externals :=
  Build_Externals unit_steps three_dot_solve two_dot_linear.

(** The object a constructor starts from in the examples: every number
    zero, the scale and the transforms default-constructed. *)
Definition raw_MOS : MOS.t :=
  MOS.mk 0 0 0 0 0 0 0 0 0 0 0 0 0 0
    (Vector2i.mk 0 0) (Vector2i.mk 0 0) (Vector2i.mk 0 0) 0 0 0 []
    AffineTransform.identity (IntegerAffineTransform.mk 1 0 0 1 0 0)
    (Vector2i.mk 0 0)
    (Scale.mk (repeat Node.default 128) (2616255653006 / 10000000000) 60).

(** [MOS(a, b, mode, e, g)] with the instance above: the object when the
    constructor is left. *)
Definition example_MOS (a b mode : Z) (e g : R) : MOS.t :=
  match MOS.new (E := example_externals) raw_MOS a b mode e g with
  | MOS.Done m => m
  | MOS.AssertionFailed m => m
  | MOS.Diverged => raw_MOS
  | MOS.LengthError => raw_MOS
  end.

(** The scenario of section 8: [MOS(a=5, b=2, mode=1, equave=1.0,
    generator=0.585)]. *)
Definition diatonic : MOS.t := example_MOS 5 2 1 1 (585 / 1000).

(** A transform whose strip holds the lattice diagonal only: from a point
    of the strip neither [(1,0)] nor [(0,1)] stays inside, their sum does. *)
Definition diagonal_strip : AffineTransform.t :=
  AffineTransform.mk 1 1 (6 / 10) (- 6 / 10) 0 (5 / 10).

(** ** Vocabulary of the retunes *)

(** The width the transform [A] gives the period vector [(a0, b0)] of a
    MOS: the divisor of [generator] in [_recalcOnRetuneUsingAffine]. *)
Definition period_under (m : MOS.t) (A : AffineTransform.t) : R :=
  (Vector2d.x (AffineTransform.applyi A (Vector2i.mk (MOS.a0 m) (MOS.b0 m)))
   - Vector2d.x (AffineTransform.applyi A (Vector2i.mk 0 0)))%R.

(** The object [_recalcOnRetuneUsingAffine(A)] leaves when that width is
    not zero. *)
Definition retuned_MOS (m : MOS.t) (A : AffineTransform.t) : MOS.t :=
  let self2 :=
    MOS.set_impliedAffine
      (MOS.set_base_scale m (Scale.retuneWithAffine (MOS.base_scale m) A)) A in
  let o := Vector2d.x (AffineTransform.applyi A (Vector2i.mk 0 0)) in
  MOS.updateVectors
    (MOS.set_tuning self2
       (Vector2d.x (AffineTransform.applyi A
                      (Vector2i.mk (MOS.a self2) (MOS.b self2))) - o)
       (period_under m A)
       ((Vector2d.x (AffineTransform.applyi A (MOS.v_gen self2)) - o)
        / period_under m A)).

(** The transform [retuneOnePoint(v, log2fr)] hands on: [A] with [tx]
    moved by the shift. *)
Definition one_point_transform (A : AffineTransform.t) (v : Vector2i.t)
  (log2fr : R) : AffineTransform.t :=
  AffineTransform.set_tx A
    (AffineTransform.tx A
     + (log2fr - Vector2d.x (AffineTransform.applyi A v)))%R.

(** The scale factor of [retuneTwoPoints(fixed, v, log2fr)] and the
    transform it hands on: [B * A] with [tx] overwritten by the shift. *)
Definition two_point_scale (A : AffineTransform.t) (fixed v : Vector2i.t)
  (log2fr : R) : R :=
  ((log2fr - Vector2d.x (AffineTransform.applyi A fixed))
   / (Vector2d.x (AffineTransform.applyi A v)
      - Vector2d.x (AffineTransform.applyi A fixed)))%R.

Definition two_point_transform (A : AffineTransform.t)
  (fixed v : Vector2i.t) (log2fr : R) : AffineTransform.t :=
  let BA :=
    AffineTransform.compose
      (AffineTransform.set_a AffineTransform.identity
         (two_point_scale A fixed v log2fr)) A in
  AffineTransform.set_tx BA
    (Vector2d.x (AffineTransform.applyi A fixed)
     - Vector2d.x (AffineTransform.applyi BA fixed))%R.





(** ** Vocabulary of the further properties *)

(** The calls the recursion of [gcd(a, b)] makes, the first included:
    after a call with the arguments [(x, y)], [y] other than zero, comes
    the call with [(y, x % y)]. *)
Inductive gcd_calls (a b : Z) : Z -> Z -> Prop :=
| gcd_calls_first : gcd_calls a b a b
| gcd_calls_next (x y : Z) :
    gcd_calls a b x y -> y <> 0 -> gcd_calls a b y (Z.rem x y).

(** The products [i * i] that the loop test of [primeFactors] evaluates, in
    their order, beside [Spectrum.primeFactors_loop]. *)
Fixpoint primeFactors_tests (fuel : nat) (i n : Z) : list Z :=
  i * i ::
  (if i * i <=? n then
     match fuel with
     | O => []
     | S fuel' =>
         if Z.rem n i =? 0
         then primeFactors_tests fuel' i (Z.quot n i)
         else primeFactors_tests fuel' (i + 1) n
     end
   else []).

(** The outcomes of the test [a_len > b_len] in the iterations of
    [adjustG_loop], in their order. *)
Fixpoint adjustG_tests (iters : nat) (a_len b_len : R) : list bool :=
  match iters with
  | O => []
  | S iters' =>
      if Rltb b_len a_len
      then true :: adjustG_tests iters' (a_len - b_len) b_len
      else false :: adjustG_tests iters' a_len (b_len - a_len)
  end.

(** [f] applied to the elements of a list together with their indices,
    counted from [i]. *)
Fixpoint map_from (f : Z -> Node.t -> Node.t) (i : Z) (l : list Node.t)
  : list Node.t :=
  match l with
  | [] => []
  | x :: l' => f i x :: map_from f (i + 1) l'
  end.

(** What every node of a generated scale is, whatever the steps are. *)
Definition fresh (A : AffineTransform.t) (base_freq : R) (nd : Node.t) : Prop :=
  tuned A nd /\ pitch_consistent base_freq nd /\ Node.isTempered nd = false.

(** [v] is one step after [u] on the lattice: [r], [s] or [r + s] further. *)
Definition lattice_step (r s : Vector2i.t) (u v : Node.t) : Prop :=
  let d := Vector2i.sub (Node.natural_coord v) (Node.natural_coord u) in
  d = r \/ d = s \/ d = Vector2i.add r s.

(** The [k] integers from [i] on. *)
Fixpoint count_from (i : Z) (k : nat) : list Z :=
  match k with
  | O => []
  | S k' => i :: count_from (i + 1) k'
  end.




(** [arr[j]] as a number, for the indices inside the vector. *)
Definition value_at (arr : list R) (j : Z) : R := nth (Z.to_nat j) arr 0%R.

(** [i] is a strict maximum of [arr] among the [order] indices on either
    side of it. *)
Definition strict_local_max (arr : list R) (order i : Z) : Prop :=
  forall j, i - order <= j <= i + order -> j <> i ->
    (value_at arr j < value_at arr i)%R.

(** Step [i] of the equal division of [equave_log2fr] into [n_et] parts,
    as [generateETPitchSet] builds it. *)
Definition et_pitch (n_et : Z) (equave_log2fr : R) (i : Z) : PitchSetPitch.t :=
  PitchSetPitch.mk (to_string i ++ backslash ++ to_string n_et)
    (IZR i * equave_log2fr / IZR n_et).

(** [a.log2fr < b.log2fr], the order of the pitch sets. *)
Definition lower_pitch (p q : PitchSetPitch.t) : Prop :=
  (PitchSetPitch.log2fr p < PitchSetPitch.log2fr q)%R.

(** The facts of the Standard Library on [ZMap]. *)
Module ZMapProps := FMapFacts.WProperties_fun OrderedTypeEx.Z_as_OT ZMap.

(** * Properties *)

(** ** Comparisons *)

Lemma Rleb_true_iff (x y : R) : Rleb x y = true <-> (x <= y)%R.
Proof.
  unfold Rleb. destruct (Rle_dec x y); split; intros; congruence || auto.
Qed.

Lemma Rltb_true_iff (x y : R) : Rltb x y = true <-> (x < y)%R.
Proof.
  unfold Rltb. destruct (Rlt_dec x y); split; intros; congruence || auto.
Qed.

Lemma in_strip_true_iff (y : R) : in_strip y = true <-> (0 <= y < 1)%R.
Proof.
  unfold in_strip. rewrite andb_true_iff, Rleb_true_iff, Rltb_true_iff. tauto.
Qed.

Lemma in_strip_false_iff (y : R) : in_strip y = false <-> (y < 0 \/ 1 <= y)%R.
Proof.
  rewrite <- not_true_iff_false, in_strip_true_iff. lra.
Qed.

Lemma exp2_0 : exp2 0 = 1%R.
Proof. unfold exp2. apply Rpower_O. lra. Qed.

Lemma exp2_1 : exp2 1 = 2%R.
Proof. unfold exp2. apply Rpower_1. lra. Qed.

Lemma Rdiv_checked_some (x y : R) :
  y <> 0%R -> Rdiv_checked x y = Some (x / y)%R.
Proof.
  intros H. unfold Rdiv_checked.
  destruct (Req_dec_T y 0); [contradiction | reflexivity].
Qed.

Lemma Rdiv_checked_none (x : R) : Rdiv_checked x 0 = None.
Proof.
  unfold Rdiv_checked. destruct (Req_dec_T 0 0); [reflexivity | contradiction].
Qed.

(** The contract of section 4.3 gives the two bounds the traversal needs. *)
Lemma one_step_stays_keeps_in_strip (M : AffineTransform.t)
  (rs : Vector2i.t * Vector2i.t) :
  one_step_stays M rs -> keeps_in_strip M rs.
Proof.
  unfold one_step_stays, keeps_in_strip.
  set (zr := Vector2d.y (AffineTransform.applyi M (fst rs))).
  set (zs := Vector2d.y (AffineTransform.applyi M (snd rs))).
  intros (Hr & Hs & Hstay).
  assert (Hr1 : (zr < 1)%R).
  { destruct (Hstay 0%R) as [H | H]; lra. }
  assert (Hs1 : (-1 < zs)%R).
  { destruct (Hstay (1 - zr / 2)%R) as [H | H]; lra. }
  lra.
Qed.

(** ** The path fold and its reverse *)

Lemma applyPathReverse_step_inverse (ab : Z * Z) (p : bool) :
  applyPathReverse_step (applyPath_step ab p) p = ab.
Proof.
  destruct ab as [a b], p; cbn; f_equal; lia.
Qed.

Lemma fold_reverse_inverse (path : list bool) (ab : Z * Z) :
  fold_left applyPathReverse_step (rev path)
    (fold_left applyPath_step path ab) = ab.
Proof.
  revert ab.
  induction path as [| p path IH] using rev_ind; intros ab.
  - reflexivity.
  - rewrite fold_left_app, rev_unit. cbn [fold_left].
    rewrite applyPathReverse_step_inverse. apply IH.
Qed.

(** C5. Undoing a path after applying it gives back the lattice vector:
    [applyPathReverse(path, applyPath(path, v)) = v] for every boolean path
    and every integer vector [v]. *)
Theorem applyPathReverse_applyPath (path : list bool) (v : Vector2i.t) :
  applyPathReverse path (applyPath path v) = v.
Proof.
  unfold applyPathReverse, applyPath.
  destruct v as [vx vy]. cbn [Vector2i.x Vector2i.y].
  pose proof (fold_reverse_inverse path (vx, vy)) as H.
  destruct (fold_left applyPath_step path (vx, vy)) as [a b].
  cbn [Vector2i.x Vector2i.y]. rewrite H. reflexivity.
Qed.

(** The other order holds as well, so the two folds are inverse bijections
    of the lattice; [mapFromMOS] from a MOS to itself is the identity. *)
Lemma applyPath_step_inverse (ab : Z * Z) (p : bool) :
  applyPath_step (applyPathReverse_step ab p) p = ab.
Proof.
  destruct ab as [a b], p; cbn; f_equal; lia.
Qed.

Lemma fold_forward_inverse (path : list bool) (ab : Z * Z) :
  fold_left applyPath_step path
    (fold_left applyPathReverse_step (rev path) ab) = ab.
Proof.
  revert ab. induction path as [| p path IH]; intros ab.
  - reflexivity.
  - cbn [rev]. rewrite fold_left_app. cbn [fold_left].
    rewrite applyPath_step_inverse. apply IH.
Qed.

Lemma applyPath_applyPathReverse (path : list bool) (v : Vector2i.t) :
  applyPath path (applyPathReverse path v) = v.
Proof.
  unfold applyPathReverse, applyPath.
  destruct v as [vx vy]. cbn [Vector2i.x Vector2i.y].
  pose proof (fold_forward_inverse path (vx, vy)) as H.
  destruct (fold_left applyPathReverse_step (rev path) (vx, vy)) as [a b].
  cbn [Vector2i.x Vector2i.y]. rewrite H. reflexivity.
Qed.

Lemma mapFromMOS_self (m : MOS.t) (v : Vector2i.t) : MOS.mapFromMOS m m v = v.
Proof. unfold MOS.mapFromMOS. apply applyPath_applyPathReverse. Qed.

(** A path keeps the determinant of two vectors it is applied to. *)
Lemma applyPath_step_det (u v : Z * Z) (p : bool) :
  det2 (applyPath_step u p) (applyPath_step v p) = det2 u v.
Proof. destruct u, v, p; unfold det2; cbn; ring. Qed.

Lemma fold_applyPath_det (path : list bool) (u v : Z * Z) :
  det2 (fold_left applyPath_step path u) (fold_left applyPath_step path v)
  = det2 u v.
Proof.
  revert u v. induction path as [| p path IH]; intros u v; cbn [fold_left].
  - reflexivity.
  - rewrite IH. apply applyPath_step_det.
Qed.

Lemma applyPath_det (path : list bool) (u v : Vector2i.t) :
  Vector2i.x (applyPath path u) * Vector2i.y (applyPath path v)
  - Vector2i.y (applyPath path u) * Vector2i.x (applyPath path v)
  = Vector2i.x u * Vector2i.y v - Vector2i.y u * Vector2i.x v.
Proof.
  unfold applyPath.
  pose proof (fold_applyPath_det path (Vector2i.x u, Vector2i.y u)
                (Vector2i.x v, Vector2i.y v)) as H.
  destruct (fold_left applyPath_step path (Vector2i.x u, Vector2i.y u)) as [a1 b1].
  destruct (fold_left applyPath_step path (Vector2i.x v, Vector2i.y v)) as [a2 b2].
  exact H.
Qed.

(** ** gcd and the brightness path *)

Lemma gcd_Zgcd (a b : Z) : 0 <= a -> 0 <= b -> gcd a b = Z.gcd a b.
Proof.
  funelim (gcd a b); intros Ha Hb.
  - subst. rewrite Z.gcd_0_r. lia.
  - rewrite H.
    + rewrite Z.rem_mod_nonneg by lia.
      rewrite Z.gcd_comm, Z.gcd_mod by lia. apply Z.gcd_comm.
    + lia.
    + apply Z.rem_nonneg; lia.
Qed.

(** From positive coprime [a] and [b] the loop of [calcPath] ends within
    [a + b - 2] iterations, and the steps it records, applied in reverse
    order to [(1, 1)], lead back to [(a, b)]. *)
Lemma calcPath_loop_terminates (fuel : nat) :
  forall a b acc, 1 <= a -> 1 <= b -> Z.gcd a b = 1 ->
    a + b <= Z.of_nat fuel + 2 ->
    exists steps,
      calcPath_loop fuel a b acc = Some (acc ++ steps) /\
      fold_left applyPath_step (rev steps) (1, 1) = (a, b).
Proof.
  induction fuel as [| fuel IH]; intros a b acc Ha Hb Hg Hf.
  - assert (a = 1 /\ b = 1) as [-> ->] by lia.
    exists []. cbn. rewrite app_nil_r. auto.
  - cbn [calcPath_loop].
    destruct ((1 <? a) || (1 <? b)) eqn:Hc.
    + destruct (b <? a) eqn:Hab.
      * apply Z.ltb_lt in Hab.
        destruct (IH (a - b) b (acc ++ [false])) as [steps [H1 H2]]; try lia.
        { rewrite Z.gcd_comm, Z.gcd_sub_diag_r, Z.gcd_comm. exact Hg. }
        exists (false :: steps). split.
        { rewrite H1, <- app_assoc. reflexivity. }
        { cbn [rev]. rewrite fold_left_app, H2. cbn. f_equal. lia. }
      * apply Z.ltb_ge in Hab.
        assert (a <> b).
        { intros ->. rewrite Z.gcd_diag in Hg.
          apply orb_true_iff in Hc.
          destruct Hc as [Hc | Hc]; apply Z.ltb_lt in Hc; lia. }
        destruct (IH a (b - a) (acc ++ [true])) as [steps [H1 H2]]; try lia.
        { rewrite Z.gcd_sub_diag_r. exact Hg. }
        exists (true :: steps). split.
        { rewrite H1, <- app_assoc. reflexivity. }
        { cbn [rev]. rewrite fold_left_app, H2. cbn. f_equal. lia. }
    + apply orb_false_iff in Hc. destruct Hc as [H1 H2].
      apply Z.ltb_ge in H1, H2.
      assert (a = 1 /\ b = 1) as [-> ->] by lia.
      exists []. cbn. rewrite app_nil_r. auto.
Qed.

Lemma calcPath_terminates (a b : Z) :
  1 <= a -> 1 <= b -> Z.gcd a b = 1 ->
  exists p, calcPath a b = Some p /\
            applyPath p (Vector2i.mk 1 1) = Vector2i.mk a b.
Proof.
  intros Ha Hb Hg.
  destruct (calcPath_loop_terminates (Z.to_nat (a + b)) a b [] Ha Hb Hg)
    as [steps [H1 H2]]; [lia |].
  exists (rev steps). unfold calcPath. rewrite H1. cbn [app option_map].
  split; [reflexivity |].
  unfold applyPath. cbn [Vector2i.x Vector2i.y]. rewrite H2. reflexivity.
Qed.

(** Without coprimality the loop of the source does not end: from [(2, 2)]
    it reaches [(2, 0)] and stays there. *)
Example calcPath_2_2 : calcPath 2 2 = None.
Proof. reflexivity. Qed.

Example gcd_12_18 : gcd 12 18 = 6.
Proof. reflexivity. Qed.

Example calcPath_5_2 : calcPath 5 2 = Some [true; false; false].
Proof. reflexivity. Qed.

Example applyPath_5_2 :
  applyPath [true; false; false] (Vector2i.mk 1 0) = Vector2i.mk 3 1.
Proof. reflexivity. Qed.

(** ** adjustParams *)

Lemma reduced_coprime (a b : Z) :
  0 < a -> 0 < b ->
  let r := gcd a b in
  r = Z.gcd a b /\ 0 < r /\
  1 <= Z.quot a r /\ 1 <= Z.quot b r /\
  Z.gcd (Z.quot a r) (Z.quot b r) = 1 /\
  r * Z.quot a r = a /\ r * Z.quot b r = b.
Proof.
  intros Ha Hb r. subst r.
  rewrite gcd_Zgcd by lia.
  pose proof (Z.gcd_nonneg a b) as Hn.
  assert (Hz : Z.gcd a b <> 0).
  { intros H0. apply Z.gcd_eq_0_l in H0. lia. }
  assert (Hpos : 0 < Z.gcd a b) by lia.
  rewrite !Z.quot_div_nonneg by lia.
  destruct (Z.gcd_divide_l a b) as [ka Hka].
  destruct (Z.gcd_divide_r a b) as [kb Hkb].
  assert (Hqa : a / Z.gcd a b = ka).
  { rewrite Hka at 1. apply Z.div_mul. exact Hz. }
  assert (Hqb : b / Z.gcd a b = kb).
  { rewrite Hkb at 1. apply Z.div_mul. exact Hz. }
  assert (Hpa : 1 <= ka).
  { destruct (Z.le_gt_cases ka 0) as [Hle |]; [| lia].
    pose proof (Z.mul_nonpos_nonneg ka (Z.gcd a b) Hle Hn). lia. }
  assert (Hpb : 1 <= kb).
  { destruct (Z.le_gt_cases kb 0) as [Hle |]; [| lia].
    pose proof (Z.mul_nonpos_nonneg kb (Z.gcd a b) Hle Hn). lia. }
  rewrite Z.gcd_div_gcd by auto.
  rewrite Hqa, Hqb. repeat split; lia.
Qed.

Section AdjustParams.
Context {E : Externals}.

(** The constructor of a scale throws for a negative length only. *)
Lemma fromAffine_returns (A : AffineTransform.t) (base_freq : R)
  (N root_idx : Z) :
  0 <= N ->
  exists scale, Scale.fromAffine A base_freq N root_idx = Some scale.
Proof.
  intros HN. unfold Scale.fromAffine, Scale.new, Scale.initNodes.
  destruct (Z.ltb_spec N 0); [lia |]. eexists. reflexivity.
Qed.

(** On valid arguments [adjustParams] returns, and these are the members
    of the object it leaves. *)
Lemma adjustParams_valid (self : MOS.t) (a b m : Z) (e g : R) :
  0 < a -> 0 < b -> (0 <= g <= 1)%R ->
  exists mos,
    MOS.adjustParams self a b m e g = MOS.Done mos /\
    MOS.a mos = a /\ MOS.b mos = b /\ MOS.n mos = a + b /\
    MOS.repetitions mos = gcd a b /\
    MOS.a0 mos = Z.quot a (gcd a b) /\ MOS.b0 mos = Z.quot b (gcd a b) /\
    MOS.n0 mos = MOS.a0 mos + MOS.b0 mos /\
    MOS.mode mos = m /\
    MOS.equave mos = e /\ MOS.period mos = (e / IZR (gcd a b))%R /\
    MOS.generator mos = g /\
    calcPath (MOS.a0 mos) (MOS.b0 mos) = Some (MOS.path mos) /\
    MOS.depth mos = Z.of_nat (List.length (MOS.path mos)) /\
    MOS.v_gen mos = applyPath (MOS.path mos) (Vector2i.mk 1 0) /\
    MOS.impliedAffine mos = MOS.calcImpliedAffine mos /\
    Scale.fromAffine (MOS.impliedAffine mos) 1 (MOS.n mos + 1) 0
    = Some (MOS.base_scale mos).
Proof.
  intros Ha Hb Hg.
  destruct (reduced_coprime a b Ha Hb) as (Hr & Hrpos & Ha0 & Hb0 & Hco & _ & _).
  destruct (calcPath_terminates _ _ Ha0 Hb0 Hco) as [p [Hp _]].
  unfold MOS.adjustParams.
  assert (Hta : (0 <? a) = true) by (apply Z.ltb_lt; lia).
  assert (Htb : (0 <? b) = true) by (apply Z.ltb_lt; lia).
  assert (Htg : Rleb 0 g && Rleb g 1 = true).
  { apply andb_true_iff; split; apply Rleb_true_iff; lra. }
  rewrite Hta, Htb, Htg. cbn [negb]. rewrite Hp. cbv zeta.
  match goal with
  | |- context [Scale.fromAffine ?A 1 (a + b + 1) 0] =>
      destruct (fromAffine_returns A 1 (a + b + 1) 0 ltac:(lia))
        as (scale & Hscale); rewrite Hscale
  end.
  eexists. split; [reflexivity |].
  unfold MOS.updateVectors in *.
  destruct (Rltb _ _); cbn in *; repeat split; auto.
Qed.

Lemma adjustParams_Done_inv (self : MOS.t) (a b m : Z) (e g : R) (mos : MOS.t) :
  MOS.adjustParams self a b m e g = MOS.Done mos ->
  0 < a /\ 0 < b /\ (0 <= g <= 1)%R.
Proof.
  unfold MOS.adjustParams.
  destruct (Z.ltb_spec 0 a); cbn [negb]; [| discriminate].
  destruct (Z.ltb_spec 0 b); cbn [negb]; [| discriminate].
  destruct (Rleb 0 g && Rleb g 1) eqn:Hg; cbn [negb]; [| discriminate].
  apply andb_true_iff in Hg. destruct Hg as [H1 H2].
  apply Rleb_true_iff in H1, H2. intros _. repeat split; assumption.
Qed.

(** C4. For every valid input ([a > 0], [b > 0], [0 <= generator <= 1])
    [adjustParams] returns, and the object it leaves has
    [n = a + b], [repetitions = gcd(a, b)] (the [gcd] of mos.cpp, which is
    the greatest common divisor), [a0 = a / gcd(a, b)],
    [b0 = b / gcd(a, b)], [a0 + b0 = n0], [gcd(a0, b0) = 1] and
    [repetitions * n0 = n]. *)
Theorem adjustParams_derived (self : MOS.t) (a b mode : Z)
  (equave generator : R) :
  0 < a -> 0 < b -> (0 <= generator <= 1)%R ->
  exists m,
    MOS.adjustParams self a b mode equave generator = MOS.Done m /\
    MOS.n m = a + b /\
    MOS.repetitions m = gcd a b /\
    MOS.repetitions m = Z.gcd a b /\
    MOS.a0 m = a / Z.gcd a b /\ MOS.b0 m = b / Z.gcd a b /\
    MOS.a0 m + MOS.b0 m = MOS.n0 m /\
    Z.gcd (MOS.a0 m) (MOS.b0 m) = 1 /\
    MOS.repetitions m * MOS.n0 m = MOS.n m.
Proof.
  intros Ha Hb Hg.
  destruct (adjustParams_valid self a b mode equave generator Ha Hb Hg)
    as (m & Hdone & F).
  destruct F as (_ & _ & Fn & Fr & Fa0 & Fb0 & Fn0 & _).
  destruct (reduced_coprime a b Ha Hb)
    as (Hr & Hrpos & H1 & H2 & Hco & Hra & Hrb).
  exists m. split; [exact Hdone |].
  rewrite Fn, Fr, Fn0, Fa0, Fb0.
  rewrite <- !Hr.
  rewrite <- !Z.quot_div_nonneg by lia.
  repeat split; try reflexivity; try assumption.
  lia.
Qed.

(** C7. [adjustParams] (and so the constructor) stops at an assertion
    whenever [a <= 0], [b <= 0] or [generator] is outside [[0, 1]]: it does
    not return an object with clamped values, and the object is as it was
    before the call. *)
Theorem adjustParams_rejects (self : MOS.t) (a b mode : Z)
  (equave generator : R) :
  a <= 0 \/ b <= 0 \/ (generator < 0)%R \/ (1 < generator)%R ->
  MOS.adjustParams self a b mode equave generator = MOS.AssertionFailed self.
Proof.
  intros H. unfold MOS.adjustParams.
  destruct (Z.ltb_spec 0 a) as [Ha |]; cbn [negb]; [| reflexivity].
  destruct (Z.ltb_spec 0 b) as [Hb |]; cbn [negb]; [| reflexivity].
  destruct (Rleb 0 generator && Rleb generator 1) eqn:Hg; cbn [negb];
    [| reflexivity].
  apply andb_true_iff in Hg. destruct Hg as [H1 H2].
  apply Rleb_true_iff in H1, H2.
  destruct H as [? | [? | [? | ?]]]; try lia; lra.
Qed.

(** The generator vector and the period vector span the lattice:
    [v_gen.x * b0 - v_gen.y * a0 = 1]. *)
Lemma v_gen_det (self : MOS.t) (a b m : Z) (e g : R) (mos : MOS.t) :
  MOS.adjustParams self a b m e g = MOS.Done mos ->
  Vector2i.x (MOS.v_gen mos) * MOS.b0 mos
  - Vector2i.y (MOS.v_gen mos) * MOS.a0 mos = 1.
Proof.
  intros Hdone.
  destruct (adjustParams_Done_inv _ _ _ _ _ _ _ Hdone) as (Ha & Hb & Hg).
  destruct (adjustParams_valid self a b m e g Ha Hb Hg)
    as (mos' & Hdone' & F).
  rewrite Hdone in Hdone'. injection Hdone' as <-.
  destruct F as (_ & _ & _ & _ & Ha0 & Hb0 & _ & _ & _ & _ & _ & Hpath & _ & Hv & _).
  destruct (reduced_coprime a b Ha Hb) as (_ & _ & H1 & H2 & Hco & _ & _).
  rewrite <- Ha0 in H1. rewrite <- Hb0 in H2. rewrite <- Ha0, <- Hb0 in Hco.
  destruct (calcPath_terminates _ _ H1 H2 Hco) as (p & Hp & Hab).
  rewrite Hpath in Hp. injection Hp as <-.
  pose proof (applyPath_det (MOS.path mos) (Vector2i.mk 1 0) (Vector2i.mk 1 1))
    as Hd.
  rewrite <- Hv, Hab in Hd. cbn in Hd. lia.
Qed.

End AdjustParams.

(** ** The MOS of the examples *)

Lemma example_MOS_done (a b mode : Z) (e g : R) :
  0 < a -> 0 < b -> (0 <= g <= 1)%R ->
  MOS.new (E := example_externals) raw_MOS a b mode e g
  = MOS.Done (example_MOS a b mode e g).
Proof.
  intros Ha Hb Hg.
  destruct (adjustParams_valid (E := example_externals) raw_MOS a b mode e g
              Ha Hb Hg) as (m & Hdone & _).
  unfold example_MOS, MOS.new. rewrite Hdone. reflexivity.
Qed.

Lemma example_MOS_fields (a b mode : Z) (e g : R) :
  0 < a -> 0 < b -> (0 <= g <= 1)%R ->
  let m := example_MOS a b mode e g in
  MOS.a m = a /\ MOS.b m = b /\ MOS.n m = a + b /\ MOS.mode m = mode /\
  MOS.repetitions m = Z.gcd a b /\
  MOS.a0 m = a / Z.gcd a b /\ MOS.b0 m = b / Z.gcd a b /\
  MOS.n0 m = a / Z.gcd a b + b / Z.gcd a b /\
  Scale.fromAffine (E := example_externals) (MOS.impliedAffine m) 1
    (a + b + 1) 0
  = Some (MOS.base_scale m).
Proof.
  intros Ha Hb Hg m.
  pose proof (example_MOS_done a b mode e g Ha Hb Hg) as Hdone. fold m in Hdone.
  destruct (adjustParams_valid (E := example_externals) raw_MOS a b mode e g
              Ha Hb Hg) as (m' & Hdone' & F).
  unfold MOS.new in Hdone. rewrite Hdone in Hdone'. injection Hdone' as <-.
  destruct F as (Fa & Fb & Fn & Fr & Fa0 & Fb0 & Fn0 & Fm & _ & _ & _ & _ & _ & _ & _ & Fs).
  destruct (reduced_coprime a b Ha Hb) as (Hr & Hrpos & _).
  rewrite Hr in *.
  rewrite !Z.quot_div_nonneg in * by lia.
  rewrite Fn in Fs. rewrite Fn, Fn0, Fa0, Fb0. repeat split; assumption.
Qed.

Lemma example_MOS_tuning (a b mode : Z) (e g : R) :
  0 < a -> 0 < b -> (0 <= g <= 1)%R ->
  let m := example_MOS a b mode e g in
  MOS.equave m = e /\ MOS.period m = (e / IZR (Z.gcd a b))%R /\
  MOS.generator m = g /\
  calcPath (a / Z.gcd a b) (b / Z.gcd a b) = Some (MOS.path m) /\
  MOS.v_gen m = applyPath (MOS.path m) (Vector2i.mk 1 0).
Proof.
  intros Ha Hb Hg m.
  pose proof (example_MOS_done a b mode e g Ha Hb Hg) as Hdone. fold m in Hdone.
  destruct (adjustParams_valid (E := example_externals) raw_MOS a b mode e g
              Ha Hb Hg) as (m' & Hdone' & F).
  unfold MOS.new in Hdone. rewrite Hdone in Hdone'. injection Hdone' as <-.
  destruct F as (_ & _ & _ & _ & Fa0 & Fb0 & _ & _ & Fe & Fp & Fg & Fpath & _ & Fv & _).
  destruct (reduced_coprime a b Ha Hb) as (Hr & Hrpos & _).
  rewrite Hr in *.
  rewrite !Z.quot_div_nonneg in * by lia.
  rewrite <- Fa0, <- Fb0. repeat split; assumption.
Qed.

(** The scenario of section 8: [MOS(a=5, b=2, mode=1, equave=1.0,
    generator=0.585)] yields [n = 7], [a0 = 5], [b0 = 2], [n0 = 7],
    [repetitions = 1]. *)
Lemma adjustParams_diatonic :
  exists m,
    MOS.new (E := example_externals) raw_MOS 5 2 1 1 (585 / 1000) = MOS.Done m /\
    MOS.n m = 7 /\ MOS.a0 m = 5 /\ MOS.b0 m = 2 /\ MOS.n0 m = 7 /\
    MOS.repetitions m = 1.
Proof.
  destruct (adjustParams_derived (E := example_externals) raw_MOS 5 2 1 1
              (585 / 1000))
    as (m & Hdone & Hn & _ & Hr & Ha0 & Hb0 & Hn0 & _); [lia | lia | lra |].
  exists m. split; [exact Hdone |].
  rewrite <- Hn0, Ha0, Hb0, Hr, Hn. repeat split; reflexivity.
Defined.

(** A step count of zero is refused and the object is left as it was. *)
Lemma adjustParams_rejects_zero_steps :
  MOS.adjustParams (E := example_externals) diatonic 0 2 1 1 (5 / 10)
  = MOS.AssertionFailed diatonic.
Proof.
  apply (adjustParams_rejects (E := example_externals)). left. lia.
Defined.

(** ** Membership, scale degree and equave number *)

Lemma nodeInScale_true_iff (m : MOS.t) (v : Vector2i.t) :
  MOS.nodeInScale m v = true <->
  0 <= Vector2i.x v * MOS.b m - Vector2i.y v * MOS.a m + MOS.mode m < MOS.n m.
Proof.
  unfold MOS.nodeInScale.
  destruct (Z.ltb_spec
              (Vector2i.x v * MOS.b m - Vector2i.y v * MOS.a m + MOS.mode m) 0);
    destruct (Z.leb_spec (MOS.n m)
                (Vector2i.x v * MOS.b m - Vector2i.y v * MOS.a m + MOS.mode m));
    cbn; split; intros; try lia; try discriminate; reflexivity.
Qed.

(** C10. Membership is periodic under the full-period vector [(a, b)]:
    the deciding quantity [v.x * b - v.y * a + mode] is the same at [v] and
    at [v + (a, b)], and so [nodeInScale(v + (a, b)) = nodeInScale(v)]. *)
Theorem nodeInScale_periodic (m : MOS.t) (v : Vector2i.t) :
  let w := Vector2i.add v (Vector2i.mk (MOS.a m) (MOS.b m)) in
  Vector2i.x w * MOS.b m - Vector2i.y w * MOS.a m + MOS.mode m
  = Vector2i.x v * MOS.b m - Vector2i.y v * MOS.a m + MOS.mode m /\
  MOS.nodeInScale m w = MOS.nodeInScale m v.
Proof.
  intros w.
  assert (Hd : Vector2i.x w * MOS.b m - Vector2i.y w * MOS.a m + MOS.mode m
               = Vector2i.x v * MOS.b m - Vector2i.y v * MOS.a m + MOS.mode m).
  { subst w. unfold Vector2i.add. cbn [Vector2i.x Vector2i.y]. ring. }
  split; [exact Hd |].
  unfold MOS.nodeInScale. rewrite Hd. reflexivity.
Qed.

(** As far as the bias [256 * n] reaches, the two functions return what
    mos.hpp documents (["Scale degree (0 to n-1) within the period"]): for
    [n > 0] and [v.x + v.y >= -256 * n], [nodeScaleDegree(v)] is the
    non-negative residue of [v.x + v.y] modulo [n] and [nodeEquaveNr(v)] is
    [floor((v.x + v.y) / n)]. *)
Theorem node_degree_equave (m : MOS.t) (v : Vector2i.t) :
  0 < MOS.n m ->
  - (256 * MOS.n m) <= Vector2i.x v + Vector2i.y v ->
  MOS.nodeScaleDegree m v = (Vector2i.x v + Vector2i.y v) mod MOS.n m /\
  0 <= MOS.nodeScaleDegree m v < MOS.n m /\
  MOS.nodeEquaveNr m v = (Vector2i.x v + Vector2i.y v) / MOS.n m.
Proof.
  intros Hn Hv. unfold MOS.nodeScaleDegree, MOS.nodeEquaveNr.
  rewrite Z.rem_mod_nonneg, Z.quot_div_nonneg by lia.
  rewrite Z.mod_add, Z.div_add by lia.
  pose proof (Z.mod_pos_bound (Vector2i.x v + Vector2i.y v) (MOS.n m) Hn).
  repeat split; lia.
Qed.

(** In the diatonic MOS the vector [(-9, 1)], eight steps below the root,
    has degree [6] in equave [-2]. *)
Lemma node_degree_equave_below_root :
  MOS.nodeScaleDegree diatonic (Vector2i.mk (-9) 1) = 6 /\
  MOS.nodeEquaveNr diatonic (Vector2i.mk (-9) 1) = -2.
Proof.
  destruct (example_MOS_fields 5 2 1 1 (585 / 1000))
    as (_ & _ & Hn & _); [lia | lia | lra |].
  fold diatonic in Hn.
  destruct (node_degree_equave diatonic (Vector2i.mk (-9) 1)) as (H1 & _ & H2).
  - rewrite Hn. lia.
  - rewrite Hn. cbn. lia.
  - rewrite H1, H2, Hn. split; reflexivity.
Defined.

(** C6. Below [-256 * n] the bias falls short and the two functions miss
    what they are documented to return: in the diatonic MOS ([n = 7]) the
    vector [(-1800, 0)] gets degree [-1], outside [0 .. n-1], where the
    residue of [-1800] modulo 7 is [6], and equave [-257], where
    [floor(-1800 / 7) = -258]. *)
Lemma node_degree_equave_far_below :
  MOS.new (E := example_externals) raw_MOS 5 2 1 1 (585 / 1000)
    = MOS.Done diatonic /\
  MOS.nodeScaleDegree diatonic (Vector2i.mk (-1800) 0) = -1 /\
  (-1800 + 0) mod MOS.n diatonic = 6 /\
  MOS.nodeEquaveNr diatonic (Vector2i.mk (-1800) 0) = -257 /\
  (-1800 + 0) / MOS.n diatonic = -258.
Proof.
  split; [apply example_MOS_done; [lia | lia | lra] |].
  destruct (example_MOS_fields 5 2 1 1 (585 / 1000))
    as (_ & _ & Hn & _); [lia | lia | lra |].
  fold diatonic in Hn.
  unfold MOS.nodeScaleDegree, MOS.nodeEquaveNr. rewrite Hn.
  repeat split; reflexivity.
Qed.

(** ** The nodes written by recalcWithAffine *)

Lemma length_trail step k last : List.length (trail step k last) = k.
Proof. revert last; induction k; intros; cbn; auto. Qed.

Lemma store_nat_middle (pre : list Node.t) (g v : Node.t) (post : list Node.t) :
  store_nat (List.length pre) v (pre ++ g :: post) = pre ++ v :: post.
Proof.
  induction pre as [| u pre IH]; cbn; [reflexivity | now rewrite IH].
Qed.

Lemma store_middle (i : Z) (pre : list Node.t) (g v : Node.t)
  (post : list Node.t) :
  i = Z.of_nat (List.length pre) ->
  store i v (pre ++ g :: post) = pre ++ v :: post.
Proof.
  intros ->. unfold store.
  destruct (Z.ltb_spec (Z.of_nat (List.length pre)) 0); [lia |].
  rewrite Nat2Z.id. apply store_nat_middle.
Qed.

(** The forward pass overwrites the [k] slots after [pre] with the nodes
    it steps through. *)
Lemma forward_pass_writes step root k :
  forall n last pre gap post,
    root + n = Z.of_nat (List.length pre) -> List.length gap = k ->
    Scale.forward_pass step root k n last (pre ++ gap ++ post)
    = pre ++ trail step k last ++ post.
Proof.
  induction k as [| k IH]; intros n last pre gap post Hn Hk.
  - destruct gap; [reflexivity | discriminate].
  - destruct gap as [| g gap]; [discriminate |].
    cbn [Scale.forward_pass trail app].
    rewrite (store_middle _ pre g) by exact Hn.
    change (pre ++ step last :: gap ++ post)
      with (pre ++ [step last] ++ gap ++ post).
    rewrite app_assoc.
    rewrite IH.
    + rewrite <- app_assoc. reflexivity.
    + rewrite length_app. cbn. lia.
    + cbn in Hk. lia.
Qed.

(** The backward pass overwrites the [k] slots before [post], last slot
    first. *)
Lemma backward_pass_writes step root k :
  forall n last pre gap post,
    root + n + 1 = Z.of_nat (List.length (pre ++ gap)) -> List.length gap = k ->
    Scale.backward_pass step root k n last (pre ++ gap ++ post)
    = pre ++ rev (trail step k last) ++ post.
Proof.
  induction k as [| k IH]; intros n last pre gap post Hn Hk.
  - destruct gap; [reflexivity | discriminate].
  - destruct gap as [| g gap _] using rev_ind; [discriminate |].
    rewrite length_app in Hk. cbn in Hk.
    cbn [Scale.backward_pass trail rev].
    rewrite <- (app_assoc gap [g] post). cbn [app].
    rewrite (app_assoc pre gap (g :: post)).
    rewrite (store_middle _ (pre ++ gap) g).
    2:{ rewrite !length_app in Hn. cbn in Hn. rewrite length_app. lia. }
    rewrite <- (app_assoc pre gap).
    rewrite IH.
    + rewrite <- app_assoc. reflexivity.
    + rewrite !length_app in Hn. cbn in Hn. rewrite length_app. lia.
    + lia.
Qed.

Section Recalc.
Context {E : Externals}.

(** On a vector of [N] nodes and a root index inside it,
    [recalcWithAffine] leaves the backward nodes in reverse, the root, and
    the forward nodes. *)
Lemma recalcWithAffine_nodes (self : Scale.t) (A : AffineTransform.t)
  (N root : Z) :
  List.length (Scale.nodes_ self) = Z.to_nat N -> 0 <= root < N ->
  let M := linear_part A in
  let rs := findClosestWithinStrip M in
  let zr := AffineTransform.applyi M (fst rs) in
  let zs := AffineTransform.applyi M (snd rs) in
  let base := Scale.base_freq_ self in
  Scale.nodes_ (Scale.recalcWithAffine self A N root)
  = rev (trail (Scale.backward_step A base (fst rs) (snd rs) zr zs)
           (Z.to_nat root) (root_node A base))
    ++ root_node A base
    :: trail (Scale.forward_step A base (fst rs) (snd rs) zr zs)
         (Z.to_nat (N - root - 1)) (root_node A base).
Proof.
  intros Hlen Hroot M rs zr zs base.
  unfold Scale.recalcWithAffine. fold (linear_part A). fold M. fold rs.
  destruct rs as [r s] eqn:Hrs. cbn [fst snd] in *.
  cbn [Scale.nodes_]. fold zr zs base.
  change (Node.mk (Vector2i.mk 0 0)
            (AffineTransform.applyi A (Vector2i.mk 0 0))
            base (Node.isTempered Node.default)
            (Node.temperedPitch Node.default) (Node.closestPitch Node.default))
    with (root_node A base).
  assert (Hsplit : exists pre g post,
            Scale.nodes_ self = pre ++ g :: post /\
            List.length pre = Z.to_nat root /\
            List.length post = Z.to_nat (N - root - 1)).
  { exists (firstn (Z.to_nat root) (Scale.nodes_ self)).
    destruct (skipn (Z.to_nat root) (Scale.nodes_ self)) as [| g post] eqn:Hs.
    - apply (f_equal (@List.length _)) in Hs. rewrite length_skipn in Hs.
      cbn in Hs. lia.
    - exists g, post. split; [| split].
      + rewrite <- Hs. symmetry. apply firstn_skipn.
      + rewrite length_firstn. lia.
      + apply (f_equal (@List.length _)) in Hs. rewrite length_skipn in Hs.
        cbn in Hs. lia. }
  destruct Hsplit as (pre & g & post & Hnodes & Hpre & Hpost).
  rewrite Hnodes.
  rewrite (store_middle root pre g) by lia.
  change (pre ++ root_node A base :: post)
    with (pre ++ [root_node A base] ++ post).
  rewrite app_assoc.
  rewrite <- (app_nil_r post) at 1.
  rewrite (forward_pass_writes _ root (Z.to_nat (N - root - 1)) 1 _
             (pre ++ [root_node A base]) post []).
  2:{ rewrite length_app. cbn. lia. }
  2:{ exact Hpost. }
  rewrite app_nil_r, <- app_assoc.
  replace (- - root) with root by lia.
  change (pre ++ [root_node A base] ++ ?t)
    with ([] ++ pre ++ ([root_node A base] ++ t)).
  rewrite (backward_pass_writes _ root (Z.to_nat root) (-1) _ [] pre).
  2:{ cbn. lia. }
  2:{ exact Hpre. }
  reflexivity.
Qed.

(** [fromAffine] with a root inside the scale: the constructor does not
    throw, and the scale it returns holds the backward trail, the root and
    the forward trail, with the base frequency and the root index it was
    given. *)
Lemma fromAffine_nodes (A : AffineTransform.t) (base : R) (N root : Z) :
  0 <= root < N ->
  let M := linear_part A in
  let rs := findClosestWithinStrip M in
  let zr := AffineTransform.applyi M (fst rs) in
  let zs := AffineTransform.applyi M (snd rs) in
  Scale.fromAffine A base N root
  = Some (Scale.mk
            (rev (trail (Scale.backward_step A base (fst rs) (snd rs) zr zs)
                    (Z.to_nat root) (root_node A base))
             ++ root_node A base
             :: trail (Scale.forward_step A base (fst rs) (snd rs) zr zs)
                  (Z.to_nat (N - root - 1)) (root_node A base))
            base root).
Proof.
  intros Hroot M rs zr zs. unfold Scale.fromAffine, Scale.new, Scale.initNodes.
  destruct (Z.ltb_spec N 0); [lia |]. f_equal.
  set (self := Scale.mk (repeat Node.default (Z.to_nat N)) base root).
  pose proof (recalcWithAffine_nodes self A N root) as Hnodes.
  cbv zeta in Hnodes. fold M rs zr zs in Hnodes.
  change (Scale.base_freq_ self) with base in Hnodes.
  rewrite <- Hnodes; [| apply repeat_length | exact Hroot].
  unfold Scale.recalcWithAffine. destruct (findClosestWithinStrip _).
  reflexivity.
Qed.

Lemma fromAffine_Some_inv (A : AffineTransform.t) (base : R) (N root : Z)
  (scale : Scale.t) :
  0 <= root < N ->
  Scale.fromAffine A base N root = Some scale ->
  let M := linear_part A in
  let rs := findClosestWithinStrip M in
  let zr := AffineTransform.applyi M (fst rs) in
  let zs := AffineTransform.applyi M (snd rs) in
  Scale.nodes_ scale
  = rev (trail (Scale.backward_step A base (fst rs) (snd rs) zr zs)
           (Z.to_nat root) (root_node A base))
    ++ root_node A base
    :: trail (Scale.forward_step A base (fst rs) (snd rs) zr zs)
         (Z.to_nat (N - root - 1)) (root_node A base).
Proof.
  intros Hroot Hsome. rewrite fromAffine_nodes in Hsome by exact Hroot.
  injection Hsome as <-. reflexivity.
Qed.

Lemma length_fromAffine_nodes (A : AffineTransform.t) (base : R) (N root : Z) :
  0 <= root < N ->
  let M := linear_part A in
  let rs := findClosestWithinStrip M in
  let zr := AffineTransform.applyi M (fst rs) in
  let zs := AffineTransform.applyi M (snd rs) in
  List.length
    (rev (trail (Scale.backward_step A base (fst rs) (snd rs) zr zs)
            (Z.to_nat root) (root_node A base))
     ++ root_node A base
     :: trail (Scale.forward_step A base (fst rs) (snd rs) zr zs)
          (Z.to_nat (N - root - 1)) (root_node A base))
  = Z.to_nat N.
Proof.
  intros Hroot M rs zr zs.
  rewrite length_app, length_rev. cbn [List.length].
  rewrite !length_trail. lia.
Qed.

End Recalc.

(** ** One step of a pass *)

Lemma applyi_add (A : AffineTransform.t) (u v : Vector2i.t) :
  AffineTransform.applyi A (Vector2i.add u v)
  = Vector2d.mk
      (Vector2d.x (AffineTransform.applyi A u)
       + Vector2d.x (AffineTransform.applyi (linear_part A) v))
      (Vector2d.y (AffineTransform.applyi A u)
       + Vector2d.y (AffineTransform.applyi (linear_part A) v)).
Proof.
  unfold AffineTransform.applyi, AffineTransform.apply, Vector2d.ofVector2i,
    linear_part, Vector2i.add.
  cbn. rewrite !plus_IZR. f_equal; ring.
Qed.

Lemma applyi_sub (A : AffineTransform.t) (u v : Vector2i.t) :
  AffineTransform.applyi A (Vector2i.sub u v)
  = Vector2d.mk
      (Vector2d.x (AffineTransform.applyi A u)
       - Vector2d.x (AffineTransform.applyi (linear_part A) v))
      (Vector2d.y (AffineTransform.applyi A u)
       - Vector2d.y (AffineTransform.applyi (linear_part A) v)).
Proof.
  unfold AffineTransform.applyi, AffineTransform.apply, Vector2d.ofVector2i,
    linear_part, Vector2i.sub.
  cbn. rewrite !minus_IZR. f_equal; ring.
Qed.

Lemma linear_part_add (A : AffineTransform.t) (u v : Vector2i.t) :
  AffineTransform.applyi (linear_part A) (Vector2i.add u v)
  = Vector2d.mk
      (Vector2d.x (AffineTransform.applyi (linear_part A) u)
       + Vector2d.x (AffineTransform.applyi (linear_part A) v))
      (Vector2d.y (AffineTransform.applyi (linear_part A) u)
       + Vector2d.y (AffineTransform.applyi (linear_part A) v)).
Proof.
  unfold AffineTransform.applyi, AffineTransform.apply, Vector2d.ofVector2i,
    linear_part, Vector2i.add.
  cbn. rewrite !plus_IZR. f_equal; ring.
Qed.

Ltac split_strip_tests :=
  match goal with
  | |- context [if in_strip ?y1 then _ else if in_strip ?y2 then _ else _] =>
      let H1 := fresh "Hfirst" in
      let H2 := fresh "Hsecond" in
      destruct (in_strip y1) eqn:H1;
      [ apply in_strip_true_iff in H1
      | destruct (in_strip y2) eqn:H2;
        [ apply in_strip_true_iff in H2
        | apply in_strip_false_iff in H1; apply in_strip_false_iff in H2 ] ]
  end.

Section Steps.
Variables (A : AffineTransform.t) (base_freq : R) (r s : Vector2i.t).
Hypothesis Hkeep : keeps_in_strip (linear_part A) (r, s).

(** From a node of the strip the forward step leads to a node of the
    strip, in each of its three branches, and to a larger [x] when both
    steps advance. *)
Lemma forward_step_in_strip (nd : Node.t) :
  tuned A nd -> (0 <= node_y nd < 1)%R ->
  let nd' :=
    Scale.forward_step A base_freq r s
      (AffineTransform.applyi (linear_part A) r)
      (AffineTransform.applyi (linear_part A) s) nd in
  tuned A nd' /\ (0 <= node_y nd' < 1)%R /\
  (advances (linear_part A) (r, s) -> x_lt nd nd').
Proof.
  intros Ht Hy nd'.
  destruct Hkeep as [Hr Hs]. cbn [fst snd] in Hr, Hs.
  unfold x_lt, node_x, node_y, advances in *. cbn [fst snd].
  subst nd'. unfold Scale.forward_step, Scale.retuned, tuned.
  cbn [Node.tuning_coord Node.natural_coord].
  split; [reflexivity |].
  split_strip_tests.
  - rewrite applyi_add, <- Ht. cbn [Vector2d.x Vector2d.y].
    split; [exact Hfirst | intros [? ?]; lra].
  - rewrite applyi_add, <- Ht. cbn [Vector2d.x Vector2d.y].
    split; [exact Hsecond | intros [? ?]; lra].
  - rewrite applyi_add, linear_part_add, <- Ht. cbn [Vector2d.x Vector2d.y].
    split; [lra | intros [? ?]; lra].
Qed.

Lemma backward_step_in_strip (nd : Node.t) :
  tuned A nd -> (0 <= node_y nd < 1)%R ->
  let nd' :=
    Scale.backward_step A base_freq r s
      (AffineTransform.applyi (linear_part A) r)
      (AffineTransform.applyi (linear_part A) s) nd in
  tuned A nd' /\ (0 <= node_y nd' < 1)%R /\
  (advances (linear_part A) (r, s) -> x_lt nd' nd).
Proof.
  intros Ht Hy nd'.
  destruct Hkeep as [Hr Hs]. cbn [fst snd] in Hr, Hs.
  unfold x_lt, node_x, node_y, advances in *. cbn [fst snd].
  subst nd'. unfold Scale.backward_step, Scale.retuned, tuned.
  cbn [Node.tuning_coord Node.natural_coord].
  split; [reflexivity |].
  split_strip_tests.
  - rewrite applyi_sub, <- Ht. cbn [Vector2d.x Vector2d.y].
    split; [exact Hfirst | intros [? ?]; lra].
  - rewrite applyi_sub, <- Ht. cbn [Vector2d.x Vector2d.y].
    split; [exact Hsecond | intros [? ?]; lra].
  - rewrite applyi_sub, linear_part_add, <- Ht. cbn [Vector2d.x Vector2d.y].
    split; [lra | intros [? ?]; lra].
Qed.

End Steps.

Lemma forward_step_pitch A base r s zr zs nd :
  pitch_consistent base (Scale.forward_step A base r s zr zs nd).
Proof. reflexivity. Qed.

Lemma backward_step_pitch A base r s zr zs nd :
  pitch_consistent base (Scale.backward_step A base r s zr zs nd).
Proof. reflexivity. Qed.

(** ** The nodes of a pass *)

Section Trail.
Variables (I : Node.t -> Prop) (step : Node.t -> Node.t).
Hypothesis step_keeps : forall nd, I nd -> I (step nd).

Lemma trail_Forall (k : nat) (last : Node.t) :
  I last -> Forall I (trail step k last).
Proof.
  revert last. induction k as [| k IH]; intros last Hl; cbn; constructor; auto.
Qed.

Variable ord : Node.t -> Node.t -> Prop.
Hypothesis ord_trans : forall u v w, ord u v -> ord v w -> ord u w.
Hypothesis step_ord : forall nd, I nd -> ord nd (step nd).

Lemma trail_sorted (k : nat) (last : Node.t) :
  I last -> StronglySorted ord (last :: trail step k last).
Proof.
  revert last. induction k as [| k IH]; intros last Hl; cbn.
  - repeat constructor.
  - specialize (IH (step last) (step_keeps _ Hl)).
    constructor; [exact IH |].
    apply StronglySorted_inv in IH. destruct IH as [_ Hall].
    constructor; [apply step_ord; exact Hl |].
    eapply Forall_impl; [| exact Hall].
    intros w Hw. eapply ord_trans; [apply step_ord; exact Hl | exact Hw].
Qed.
End Trail.

Lemma trail_Forall_step (P : Node.t -> Prop) (step : Node.t -> Node.t) :
  (forall nd, P (step nd)) ->
  forall k last, Forall P (trail step k last).
Proof.
  intros Hstep k. induction k as [| k IH]; intros last; cbn; constructor; auto.
Qed.

Lemma StronglySorted_app {T : Type} (ord : T -> T -> Prop) (l1 l2 : list T) :
  StronglySorted ord l1 -> StronglySorted ord l2 ->
  (forall u v, In u l1 -> In v l2 -> ord u v) ->
  StronglySorted ord (l1 ++ l2).
Proof.
  intros H1 H2 H12. induction H1 as [| u l1 Hs IH Hall]; cbn; [exact H2 |].
  constructor.
  - apply IH. intros; apply H12; [right |]; assumption.
  - apply Forall_app. split; [exact Hall |].
    apply Forall_forall. intros v Hv. apply H12; [left; reflexivity | exact Hv].
Qed.

Lemma StronglySorted_rev {T : Type} (ord : T -> T -> Prop) (l : list T) :
  StronglySorted ord l -> StronglySorted (fun u v => ord v u) (rev l).
Proof.
  induction 1 as [| u l Hs IH Hall]; cbn; [constructor |].
  apply StronglySorted_app; [exact IH | repeat constructor |].
  intros v w Hv [<- | []]. apply in_rev in Hv.
  rewrite Forall_forall in Hall. apply Hall. exact Hv.
Qed.

Lemma StronglySorted_before_last {T : Type} (ord : T -> T -> Prop)
  (l : list T) (z u : T) :
  StronglySorted ord (l ++ [z]) -> In u l -> ord u z.
Proof.
  induction l as [| w l IH]; intros Hs Hu; [destruct Hu |].
  cbn in Hs. apply StronglySorted_inv in Hs. destruct Hs as [Hl Hw].
  destruct Hu as [<- | Hu].
  - rewrite Forall_forall in Hw. apply Hw. apply in_or_app. right. left.
    reflexivity.
  - apply IH; assumption.
Qed.

(** ** Scales generated by fromAffine *)

Section FromAffine.
Context {E : Externals}.

Lemma root_node_in_strip (A : AffineTransform.t) (base : R) :
  (0 <= AffineTransform.ty A < 1)%R ->
  tuned A (root_node A base) /\ (0 <= node_y (root_node A base) < 1)%R.
Proof.
  intros Hty. split; [reflexivity |].
  unfold node_y, root_node, AffineTransform.applyi, AffineTransform.apply.
  cbn. lra.
Qed.

(** C1. For a normalized transform [A] whose pair of steps [(r, s)] meets
    what section 4.3 asks of [findClosestWithinStrip] (neither image is as
    tall as the strip, [r] does not go down, [s] does not go up, both go
    right), every length [N] and root index [0 <= root_idx < N]: the scale
    [fromAffine(A, base_freq, N, root_idx)] returns a scale of [N] nodes,
    their [tuning_coord.x] increases strictly with the index, and every
    [tuning_coord.y] lies in [[0, 1)].  The nodes of the third branch of
    the traversal, the step [r + s], are among them. *)
Theorem fromAffine_path (A : AffineTransform.t) (base_freq : R)
  (N root_idx : Z) :
  normalized A ->
  keeps_in_strip (linear_part A) (findClosestWithinStrip (linear_part A)) ->
  advances (linear_part A) (findClosestWithinStrip (linear_part A)) ->
  0 <= root_idx < N ->
  exists scale,
    Scale.fromAffine A base_freq N root_idx = Some scale /\
    let nodes := Scale.getNodes scale in
    List.length nodes = Z.to_nat N /\
    StronglySorted x_lt nodes /\
    Forall (fun nd => (0 <= node_y nd < 1)%R) nodes.
Proof.
  intros [_ Hty] Hkeep Hadv Hroot.
  eexists. split; [apply fromAffine_nodes; exact Hroot |].
  cbv zeta. unfold Scale.getNodes. cbn [Scale.nodes_].
  split; [apply length_fromAffine_nodes; exact Hroot |].
  destruct (findClosestWithinStrip (linear_part A)) as [r s]. cbn [fst snd].
  set (I := fun nd => tuned A nd /\ (0 <= node_y nd < 1)%R).
  set (fwd := Scale.forward_step A base_freq r s _ _).
  set (bwd := Scale.backward_step A base_freq r s _ _).
  set (root := root_node A base_freq).
  assert (Hroot_I : I root) by (apply root_node_in_strip; exact Hty).
  assert (Hfwd : forall nd, I nd -> I (fwd nd) /\ x_lt nd (fwd nd)).
  { intros nd [Ht Hy].
    destruct (forward_step_in_strip A base_freq r s Hkeep nd Ht Hy)
      as (H1 & H2 & H3).
    split; [split; assumption | apply H3; exact Hadv]. }
  assert (Hbwd : forall nd, I nd -> I (bwd nd) /\ x_lt (bwd nd) nd).
  { intros nd [Ht Hy].
    destruct (backward_step_in_strip A base_freq r s Hkeep nd Ht Hy)
      as (H1 & H2 & H3).
    split; [split; assumption | apply H3; exact Hadv]. }
  assert (Htrans : forall u v w, x_lt u v -> x_lt v w -> x_lt u w).
  { unfold x_lt. intros; lra. }
  pose proof (trail_sorted I fwd (fun nd H => proj1 (Hfwd nd H)) x_lt Htrans
                (fun nd H => proj2 (Hfwd nd H))
                (Z.to_nat (N - root_idx - 1)) root Hroot_I) as Hup.
  pose proof (trail_sorted I bwd (fun nd H => proj1 (Hbwd nd H))
                (fun u v => x_lt v u)
                (fun u v w H1 H2 => Htrans _ _ _ H2 H1)
                (fun nd H => proj2 (Hbwd nd H))
                (Z.to_nat root_idx) root Hroot_I) as Hdown.
  apply StronglySorted_rev in Hdown. cbn [rev] in Hdown.
  split.
  - change (rev (trail bwd (Z.to_nat root_idx) root) ++ root :: ?F)
      with (rev (trail bwd (Z.to_nat root_idx) root) ++ [root] ++ F).
    rewrite app_assoc.
    apply StronglySorted_inv in Hup. destruct Hup as [HF Hroot_F].
    apply StronglySorted_app; [exact Hdown | exact HF |].
    intros u v Hu Hv. rewrite Forall_forall in Hroot_F.
    specialize (Hroot_F v Hv).
    apply in_app_or in Hu. destruct Hu as [Hu | [<- | []]]; [| exact Hroot_F].
    apply (Htrans u root v); [| exact Hroot_F].
    exact (StronglySorted_before_last _ _ _ _ Hdown Hu).
  - apply Forall_app. split.
    + apply Forall_rev. eapply Forall_impl; [| apply (trail_Forall I bwd)]; auto.
      * intros nd [_ H]; exact H.
      * intros nd H; apply Hbwd; exact H.
    + constructor; [apply Hroot_I |].
      eapply Forall_impl; [| apply (trail_Forall I fwd)]; auto.
      * intros nd [_ H]; exact H.
      * intros nd H; apply Hfwd; exact H.
Qed.

(** C2 (amended). [fromAffine] does not test or renormalize its transform.
    Whatever [A] is, for [0 <= root_idx < N] the node at [root_idx] has
    [natural_coord = (0,0)], [tuning_coord = A(0,0)] and
    [pitch = base_freq], and every other node has
    [pitch = base_freq * 2^tuning_coord.x]; when [A(0,0)] has [x = 0],
    every node of the scale has. *)
Theorem fromAffine_pitch (A : AffineTransform.t) (base_freq : R)
  (N root_idx : Z) :
  0 <= root_idx < N ->
  exists scale before after,
    Scale.fromAffine A base_freq N root_idx = Some scale /\
    Scale.getNodes scale = before ++ root_node A base_freq :: after /\
    List.length before = Z.to_nat root_idx /\
    Forall (pitch_consistent base_freq) before /\
    Forall (pitch_consistent base_freq) after /\
    (AffineTransform.tx A = 0%R ->
     Forall (pitch_consistent base_freq) (Scale.getNodes scale)).
Proof.
  intros Hroot. eexists.
  rewrite fromAffine_nodes by exact Hroot.
  unfold Scale.getNodes. cbn [Scale.nodes_].
  set (B := trail _ (Z.to_nat root_idx) _).
  set (F := trail _ (Z.to_nat (N - root_idx - 1)) _).
  assert (HB : Forall (pitch_consistent base_freq) (rev B)).
  { apply Forall_rev. apply trail_Forall_step.
    intros nd. apply backward_step_pitch. }
  assert (HF : Forall (pitch_consistent base_freq) F).
  { apply trail_Forall_step. intros nd. apply forward_step_pitch. }
  exists (rev B), F. split; [reflexivity |]. repeat split; auto.
  - rewrite length_rev. apply length_trail.
  - intros Htx. apply Forall_app. split; [exact HB |].
    constructor; [| exact HF].
    unfold pitch_consistent, node_x, root_node, AffineTransform.applyi,
      AffineTransform.apply. cbn. rewrite Htx.
    replace (AffineTransform.a A * 0 + AffineTransform.b A * 0 + 0)%R
      with 0%R by ring.
    rewrite exp2_0. ring.
Qed.

End FromAffine.

(** The scale of three nodes around the root through [diagonal_strip]:
    both passes take their third branch, the step [r + s]. *)
Example diagonal_strip_naturals :
  option_map (fun scale => map Node.natural_coord (Scale.getNodes scale))
    (Scale.fromAffine (E := example_externals) diagonal_strip 1 3 1)
  = Some [Vector2i.mk (-1) (-1); Vector2i.mk 0 0; Vector2i.mk 1 1].
Proof.
  rewrite (fromAffine_nodes (E := example_externals)) by lia.
  cbn [option_map]. f_equal. unfold Scale.getNodes. cbn [Scale.nodes_].
  cbn [findClosestWithinStrip example_externals unit_steps fst snd].
  change (Z.to_nat 1) with 1%nat. change (Z.to_nat (3 - 1 - 1)) with 1%nat.
  cbn [trail rev app map].
  unfold Scale.forward_step, Scale.backward_step, Scale.retuned, root_node.
  cbn [Node.natural_coord Node.tuning_coord].
  unfold diagonal_strip, linear_part, AffineTransform.applyi,
    AffineTransform.apply, Vector2d.ofVector2i.
  cbn [Vector2i.x Vector2i.y Vector2d.x Vector2d.y
       AffineTransform.set_tx AffineTransform.set_ty
       AffineTransform.a AffineTransform.b AffineTransform.c AffineTransform.d
       AffineTransform.tx AffineTransform.ty].
  repeat split_strip_tests; try lra; reflexivity.
Qed.

Lemma fromAffine_path_diagonal :
  exists scale,
    Scale.fromAffine (E := example_externals) diagonal_strip 1 3 1
    = Some scale /\
    let nodes := Scale.getNodes scale in
    List.length nodes = 3%nat /\
    StronglySorted x_lt nodes /\
    Forall (fun nd => (0 <= node_y nd < 1)%R) nodes.
Proof.
  apply (fromAffine_path (E := example_externals) diagonal_strip 1 3 1).
  - unfold normalized, diagonal_strip; cbn; lra.
  - unfold keeps_in_strip, diagonal_strip, AffineTransform.applyi,
      AffineTransform.apply; cbn; lra.
  - unfold advances, diagonal_strip, AffineTransform.applyi,
      AffineTransform.apply; cbn; lra.
  - lia.
Defined.

Lemma fromAffine_pitch_diagonal :
  exists scale,
    Scale.fromAffine (E := example_externals) diagonal_strip 1 3 1
    = Some scale /\
    Forall (pitch_consistent 1) (Scale.getNodes scale).
Proof.
  destruct (fromAffine_pitch (E := example_externals) diagonal_strip 1 3 1)
    as (scale & before & after & Hsome & _ & _ & _ & _ & Hall); [lia |].
  exists scale. split; [exact Hsome |].
  apply Hall. reflexivity.
Defined.

(** C2, as stated, fails: for the identity moved by [tx = 1], which is not
    normalized, [fromAffine] returns a scale all the same, and its root
    node has [tuning_coord.x = 1] and [pitch = base_freq = 1], not
    [1 * 2^1]. *)
Lemma fromAffine_root_pitch_unnormalized :
  let A := AffineTransform.mk 1 0 0 1 1 0 in
  exists scale,
    Scale.fromAffine (E := example_externals) A 1 1 0 = Some scale /\
    let root := nth 0 (Scale.getNodes scale) Node.default in
    ~ normalized A /\
    Node.natural_coord root = Vector2i.mk 0 0 /\
    node_x root = 1%R /\
    Node.pitch root = 1%R /\
    ~ pitch_consistent 1 root.
Proof.
  intros A. eexists.
  split; [apply (fromAffine_nodes (E := example_externals)); lia |].
  cbv zeta. unfold Scale.getNodes. cbn [Scale.nodes_].
  change (Z.to_nat 0) with 0%nat. cbn [trail rev app nth].
  assert (Hx : node_x (root_node A 1) = 1%R).
  { unfold node_x, root_node, A, AffineTransform.applyi, AffineTransform.apply.
    cbn. ring. }
  repeat split.
  - unfold normalized, A. cbn. lra.
  - exact Hx.
  - unfold pitch_consistent. rewrite Hx, exp2_1. cbn. lra.
Qed.

(** ** The transform implied by a MOS *)

Lemma dot_six (c0 c1 c2 c3 c4 c5 : R) (x : list R) :
  dot [c0; c1; c2; c3; c4; c5] x
  = (c0 * nth 0 x 0 + c1 * nth 1 x 0 + c2 * nth 2 x 0
     + c3 * nth 3 x 0 + c4 * nth 4 x 0 + c5 * nth 5 x 0)%R.
Proof.
  destruct x as [| x0 [| x1 [| x2 [| x3 [| x4 [| x5 x]]]]]]; cbn; ring.
Qed.

Section Fit.
Context {E : Externals}.

(** A solver that solves the system makes [affineFromThreeDots] map each
    source point to its target. *)
Lemma affineFromThreeDots_fits (a1 a2 a3 b1 b2 b3 : Vector2d.t) :
  Solves (three_dot_matrix a1 a2 a3) (three_dot_rhs b1 b2 b3)
    (LinearSolver6x6_solve (three_dot_matrix a1 a2 a3)
       (three_dot_rhs b1 b2 b3)) ->
  let A := affineFromThreeDots a1 a2 a3 b1 b2 b3 in
  AffineTransform.apply A a1 = b1 /\
  AffineTransform.apply A a2 = b2 /\
  AffineTransform.apply A a3 = b3.
Proof.
  unfold Solves, affineFromThreeDots.
  set (sol := LinearSolver6x6_solve _ _).
  unfold three_dot_matrix, three_dot_rhs. cbn [map].
  rewrite !dot_six. intros H.
  injection H as H1 H2 H3 H4 H5 H6.
  destruct b1 as [u1 v1], b2 as [u2 v2], b3 as [u3 v3].
  cbn [Vector2d.x Vector2d.y] in *.
  unfold AffineTransform.apply.
  cbn [AffineTransform.a AffineTransform.b AffineTransform.c AffineTransform.d
       AffineTransform.tx AffineTransform.ty].
  repeat split; f_equal; lra.
Qed.

Lemma calcImpliedAffine_fits (m : MOS.t) :
  let q := (5 / 10 / IZR (MOS.n0 m))%R in
  let a1 := Vector2d.mk 0 0 in
  let a2 := Vector2d.ofVector2i (MOS.v_gen m) in
  let a3 := Vector2d.mk (IZR (MOS.a0 m)) (IZR (MOS.b0 m)) in
  let b1 := Vector2d.mk 0 (q * IZR (2 * MOS.mode m + 1)) in
  let b2 := Vector2d.mk (MOS.generator m * MOS.period m)
              (q * IZR (2 * MOS.mode m + 3)) in
  let b3 := Vector2d.mk (MOS.period m) (q * IZR (2 * MOS.mode m + 1)) in
  MOS.impliedAffine m = MOS.calcImpliedAffine m ->
  Solves (three_dot_matrix a1 a2 a3) (three_dot_rhs b1 b2 b3)
    (LinearSolver6x6_solve (three_dot_matrix a1 a2 a3)
       (three_dot_rhs b1 b2 b3)) ->
  implied_fit m.
Proof.
  intros q a1 a2 a3 b1 b2 b3 HA Hsol.
  unfold implied_fit. rewrite HA. unfold MOS.calcImpliedAffine.
  exact (affineFromThreeDots_fits a1 a2 a3 b1 b2 b3 Hsol).
Qed.

End Fit.

Section YRow.
Variables (A : AffineTransform.t) (n0 mode vx vy a0 b0 : Z).
Let q : R := (5 / 10 / IZR n0)%R.
Hypothesis Hn0 : 0 < n0.
Hypothesis Hdet : vx * b0 - vy * a0 = 1.
Hypothesis H0 :
  Vector2d.y (AffineTransform.applyi A (Vector2i.mk 0 0))
  = (q * IZR (2 * mode + 1))%R.
Hypothesis Hg :
  Vector2d.y (AffineTransform.applyi A (Vector2i.mk vx vy))
  = (q * IZR (2 * mode + 3))%R.
Hypothesis Hp :
  Vector2d.y (AffineTransform.applyi A (Vector2i.mk a0 b0))
  = (q * IZR (2 * mode + 1))%R.

Lemma fit_q_pos : (0 < q)%R.
Proof. apply Rdiv_lt_0_compat; [lra | apply IZR_lt; lia]. Qed.

Lemma fit_q_n0 : (2 * q * IZR n0 = 1)%R.
Proof. unfold q. field. apply not_0_IZR. lia. Qed.

(** The [y] row of the fitted transform counts generator steps:
    [c X + d Y = (X b0 - Y a0) / n0]. *)
Lemma fit_y_row (X Y : Z) :
  (AffineTransform.c A * IZR X + AffineTransform.d A * IZR Y
   = IZR (X * b0 - Y * a0) * (2 * q))%R.
Proof.
  unfold AffineTransform.applyi, AffineTransform.apply, Vector2d.ofVector2i in *.
  cbn [Vector2i.x Vector2i.y Vector2d.x Vector2d.y] in *.
  set (c := AffineTransform.c A) in *. set (d := AffineTransform.d A) in *.
  set (ty := AffineTransform.ty A) in *.
  set (alpha := X * b0 - Y * a0).
  set (beta := vx * Y - vy * X).
  assert (HX : X = alpha * vx + beta * a0).
  { transitivity (X * (vx * b0 - vy * a0)); [rewrite Hdet; ring |].
    subst alpha beta; ring. }
  assert (HY : Y = alpha * vy + beta * b0).
  { transitivity (Y * (vx * b0 - vy * a0)); [rewrite Hdet; ring |].
    subst alpha beta; ring. }
  rewrite HX at 1. rewrite HY at 1.
  rewrite !plus_IZR, !mult_IZR.
  assert (H1 : (c * IZR vx + d * IZR vy = 2 * q)%R).
  { rewrite plus_IZR, mult_IZR in *. lra. }
  assert (H2 : (c * IZR a0 + d * IZR b0 = 0)%R) by lra.
  transitivity (IZR alpha * (c * IZR vx + d * IZR vy)
                + IZR beta * (c * IZR a0 + d * IZR b0))%R; [ring |].
  rewrite H1, H2. ring.
Qed.

(** A lattice point whose image is in the strip has its generator count,
    moved by the mode, in [[0, n0)]. *)
Lemma in_strip_generators (X Y : Z) :
  (0 <= Vector2d.y (AffineTransform.applyi A (Vector2i.mk X Y)) < 1)%R ->
  0 <= X * b0 - Y * a0 + mode < n0.
Proof.
  intros Hy.
  pose proof (fit_y_row X Y) as Hcd.
  pose proof fit_q_pos as Hq. pose proof fit_q_n0 as Hqn.
  unfold AffineTransform.applyi, AffineTransform.apply, Vector2d.ofVector2i in *.
  cbn [Vector2i.x Vector2i.y Vector2d.x Vector2d.y] in *.
  set (alpha := X * b0 - Y * a0) in *.
  assert (Hval : (AffineTransform.c A * IZR X + AffineTransform.d A * IZR Y
                  + AffineTransform.ty A
                  = q * IZR (2 * (alpha + mode) + 1))%R).
  { rewrite Hcd. rewrite !plus_IZR, !mult_IZR, !plus_IZR.
    rewrite plus_IZR, mult_IZR in H0. lra. }
  rewrite Hval in Hy. destruct Hy as [Hlo Hhi].
  assert (Hlo' : (0 <= IZR (2 * (alpha + mode) + 1))%R).
  { destruct (Rle_lt_dec 0 (IZR (2 * (alpha + mode) + 1))) as [| Hneg];
      [assumption |].
    pose proof (Rmult_lt_compat_l q _ _ Hq Hneg). lra. }
  assert (Hhi' : (IZR (2 * (alpha + mode) + 1) < IZR (2 * n0))%R).
  { rewrite (mult_IZR 2 n0).
    apply (Rmult_lt_reg_l q); [exact Hq |]. lra. }
  apply le_IZR in Hlo'. apply lt_IZR in Hhi'. lia.
Qed.

End YRow.

(** ** Membership of the nodes of the base scale *)

Section BaseScale.
Context {E : Externals}.

(** Under a fitted transform the images of [(1,0)] and [(0,1)] rise by
    [b0 / n0] and fall by [a0 / n0]. *)
Lemma implied_unit_step_y (self : MOS.t) (a b mode : Z) (e g : R) (m : MOS.t) :
  MOS.adjustParams self a b mode e g = MOS.Done m ->
  implied_fit m ->
  let M := linear_part (MOS.impliedAffine m) in
  let q := (5 / 10 / IZR (MOS.n0 m))%R in
  Vector2d.y (AffineTransform.applyi M (Vector2i.mk 1 0))
    = (IZR (MOS.b0 m) * (2 * q))%R /\
  Vector2d.y (AffineTransform.applyi M (Vector2i.mk 0 1))
    = (- IZR (MOS.a0 m) * (2 * q))%R /\
  (0 < q)%R /\ (2 * q * IZR (MOS.n0 m) = 1)%R /\
  1 <= MOS.a0 m /\ 1 <= MOS.b0 m /\ MOS.n0 m = MOS.a0 m + MOS.b0 m.
Proof.
  intros Hdone (Hf0 & Hfg & Hfp) M q.
  pose proof (v_gen_det _ _ _ _ _ _ _ Hdone) as Hdet.
  destruct (adjustParams_Done_inv _ _ _ _ _ _ _ Hdone) as (Ha & Hb & Hg).
  destruct (adjustParams_valid self a b mode e g Ha Hb Hg) as (m' & Hdone' & F).
  rewrite Hdone in Hdone'. injection Hdone' as <-.
  destruct F as (_ & _ & _ & _ & Fa0 & Fb0 & Fn0 & _).
  destruct (reduced_coprime a b Ha Hb) as (_ & _ & H1 & H2 & _).
  rewrite <- Fa0 in H1. rewrite <- Fb0 in H2.
  assert (Hn0 : 0 < MOS.n0 m) by lia.
  assert (Hvg : MOS.v_gen m
                = Vector2i.mk (Vector2i.x (MOS.v_gen m))
                    (Vector2i.y (MOS.v_gen m)))
    by (destruct (MOS.v_gen m); reflexivity).
  rewrite Hvg in Hfg.
  apply (f_equal Vector2d.y) in Hf0, Hfg, Hfp. cbn [Vector2d.y] in Hf0, Hfg, Hfp.
  pose proof (fit_y_row _ _ _ _ _ _ _ Hdet Hf0 Hfg Hfp 1 0) as Hr.
  pose proof (fit_y_row _ _ _ _ _ _ _ Hdet Hf0 Hfg Hfp 0 1) as Hs.
  pose proof (fit_q_pos (MOS.n0 m) Hn0) as Hq.
  pose proof (fit_q_n0 (MOS.n0 m) Hn0) as Hqn.
  fold q in Hr, Hs, Hq, Hqn.
  replace (1 * MOS.b0 m - 0 * MOS.a0 m) with (MOS.b0 m) in Hr by ring.
  replace (0 * MOS.b0 m - 1 * MOS.a0 m) with (- MOS.a0 m) in Hs by ring.
  rewrite opp_IZR in Hs.
  subst M.
  unfold linear_part, AffineTransform.applyi,
    AffineTransform.apply, Vector2d.ofVector2i.
  cbn [fst snd Vector2i.x Vector2i.y Vector2d.x Vector2d.y
       AffineTransform.set_tx AffineTransform.set_ty
       AffineTransform.a AffineTransform.b AffineTransform.c AffineTransform.d
       AffineTransform.tx AffineTransform.ty].
  repeat split; try assumption.
  - rewrite <- Hr. ring.
  - rewrite <- Hs. ring.
Qed.

(** So the large and the small step of a MOS are strip steps of its
    implied transform. *)
Lemma implied_unit_steps (self : MOS.t) (a b mode : Z) (e g : R) (m : MOS.t) :
  MOS.adjustParams self a b mode e g = MOS.Done m ->
  implied_fit m ->
  keeps_in_strip (linear_part (MOS.impliedAffine m))
    (Vector2i.mk 1 0, Vector2i.mk 0 1).
Proof.
  intros Hdone Hfit.
  destruct (implied_unit_step_y _ _ _ _ _ _ _ Hdone Hfit)
    as (Hr & Hs & Hq & Hqn & H1 & H2 & Fn0).
  unfold keeps_in_strip. cbn [fst snd]. rewrite Hr, Hs.
  set (q := (5 / 10 / IZR (MOS.n0 m))%R) in *.
  assert (Hb0 : (1 <= IZR (MOS.b0 m))%R) by (apply IZR_le; exact H2).
  assert (Ha0 : (1 <= IZR (MOS.a0 m))%R) by (apply IZR_le; exact H1).
  assert (Hsum : (IZR (MOS.n0 m) = IZR (MOS.a0 m) + IZR (MOS.b0 m))%R)
    by (rewrite Fn0; apply plus_IZR).
  nra.
Qed.

(** C3 (amended). Let [adjustParams(a, b, mode, equave, generator)] return
    the MOS [m], with [0 <= mode < n0] and either one period
    ([repetitions = 1]) or [mode = 0]; let the implied transform map the
    origin, the generator vector and the period vector to their three
    targets, and let the steps [findClosestWithinStrip] finds for it keep
    the traversal in the strip.  Then [nodeInScale] is true at the
    [natural_coord] of every node of the base scale. *)
Theorem base_scale_nodeInScale (self : MOS.t) (a b mode : Z)
  (equave generator : R) (m : MOS.t) :
  MOS.adjustParams self a b mode equave generator = MOS.Done m ->
  0 <= MOS.mode m < MOS.n0 m ->
  MOS.repetitions m = 1 \/ MOS.mode m = 0 ->
  implied_fit m ->
  keeps_in_strip (linear_part (MOS.impliedAffine m))
    (findClosestWithinStrip (linear_part (MOS.impliedAffine m))) ->
  Forall (fun node => MOS.nodeInScale m (Node.natural_coord node) = true)
    (Scale.getNodes (MOS.base_scale m)).
Proof.
  intros Hdone Hmode Hrep Hfit Hkeep.
  pose proof (v_gen_det _ _ _ _ _ _ _ Hdone) as Hdet.
  destruct (adjustParams_Done_inv _ _ _ _ _ _ _ Hdone) as (Ha & Hb & Hg).
  destruct (adjustParams_valid self a b mode equave generator Ha Hb Hg)
    as (m' & Hdone' & F).
  rewrite Hdone in Hdone'. injection Hdone' as <-.
  destruct F as (Fa & Fb & Fn & Fr & Fa0 & Fb0 & Fn0 & _ & _ & _ & _ & _ & _ & _ & _ & Fscale).
  destruct (reduced_coprime a b Ha Hb) as (_ & Hrpos & H1 & H2 & _ & Hra & Hrb).
  rewrite <- Fa0 in H1, Hra. rewrite <- Fb0 in H2, Hrb.
  rewrite <- Fr in Hrpos, Hra, Hrb.
  destruct Hfit as (Hf0 & Hfg & Hfp).
  set (A := MOS.impliedAffine m) in *.
  assert (Hn0 : 0 < MOS.n0 m) by lia.
  assert (Hnodes :
    Forall (fun nd => tuned A nd /\ (0 <= node_y nd < 1)%R)
      (Scale.getNodes (MOS.base_scale m))).
  { unfold Scale.getNodes. fold A in Fscale.
    rewrite (fromAffine_Some_inv A 1 (MOS.n m + 1) 0 _ ltac:(lia) Fscale).
    destruct (findClosestWithinStrip (linear_part A)) as [r s]. cbn [fst snd].
    cbn [Z.to_nat rev trail app].
    assert (Hroot : tuned A (root_node A 1)
                    /\ (0 <= node_y (root_node A 1) < 1)%R).
    { split; [reflexivity |].
      unfold node_y, root_node. cbn [Node.tuning_coord].
      rewrite Hf0. cbn [Vector2d.y].
      pose proof (fit_q_pos (MOS.n0 m) Hn0) as Hq.
      pose proof (fit_q_n0 (MOS.n0 m) Hn0) as Hqn.
      set (q := (5 / 10 / IZR (MOS.n0 m))%R) in *.
      assert (H3 : (0 <= IZR (2 * MOS.mode m + 1))%R) by (apply IZR_le; lia).
      assert (H4 : (IZR (2 * MOS.mode m + 1) < IZR (2 * MOS.n0 m))%R)
        by (apply IZR_lt; lia).
      rewrite mult_IZR in H4.
      split; [apply Rmult_le_pos; lra |].
      apply (Rmult_lt_compat_l q) in H4; [| exact Hq]. lra. }
    constructor; [exact Hroot |].
    apply (trail_Forall (fun nd => tuned A nd /\ (0 <= node_y nd < 1)%R));
      [| exact Hroot].
    intros nd [Ht Hy].
    destruct (forward_step_in_strip A 1 r s Hkeep nd Ht Hy) as (H3 & H4 & _).
    split; assumption. }
  eapply Forall_impl; [| exact Hnodes].
  intros nd [Ht Hy]. cbv beta.
  apply nodeInScale_true_iff.
  unfold node_y in Hy. rewrite Ht in Hy.
  assert (Hgen :
    0 <= Vector2i.x (Node.natural_coord nd) * MOS.b0 m
         - Vector2i.y (Node.natural_coord nd) * MOS.a0 m + MOS.mode m
      < MOS.n0 m).
  { apply (in_strip_generators A (MOS.n0 m) (MOS.mode m)
             (Vector2i.x (MOS.v_gen m)) (Vector2i.y (MOS.v_gen m))
             (MOS.a0 m) (MOS.b0 m) Hn0 Hdet).
    - rewrite Hf0. reflexivity.
    - destruct (MOS.v_gen m). cbn [Vector2i.x Vector2i.y]. rewrite Hfg.
      reflexivity.
    - rewrite Hfp. reflexivity.
    - destruct (Node.natural_coord nd). exact Hy. }
  set (X := Vector2i.x (Node.natural_coord nd)) in *.
  set (Y := Vector2i.y (Node.natural_coord nd)) in *.
  rewrite Fn, <- Hra, <- Hrb.
  rewrite Fa, Fb, <- Hra, <- Hrb in *. clear Fa Fb.
  destruct Hrep as [Hr1 | Hm0].
  - rewrite Hr1. lia.
  - rewrite Hm0 in *. nia.
Qed.

End BaseScale.

(** The solver of the examples solves every system whose three source
    points are not on a line. *)
Lemma three_dot_solve_fits (a1 a2 a3 b1 b2 b3 : Vector2d.t) :
  (Vector2d.x a1 * (Vector2d.y a2 - Vector2d.y a3)
   - Vector2d.y a1 * (Vector2d.x a2 - Vector2d.x a3)
   + (Vector2d.x a2 * Vector2d.y a3 - Vector2d.x a3 * Vector2d.y a2) <> 0)%R ->
  let A := affineFromThreeDots (E := example_externals) a1 a2 a3 b1 b2 b3 in
  AffineTransform.apply A a1 = b1 /\
  AffineTransform.apply A a2 = b2 /\
  AffineTransform.apply A a3 = b3.
Proof.
  intros Hdet A. subst A.
  destruct a1 as [x1 y1], a2 as [x2 y2], a3 as [x3 y3].
  destruct b1 as [u1 v1], b2 as [u2 v2], b3 as [u3 v3].
  cbn [Vector2d.x Vector2d.y] in Hdet.
  unfold affineFromThreeDots, three_dot_matrix, three_dot_rhs,
    AffineTransform.apply.
  cbn [LinearSolver6x6_solve example_externals].
  unfold three_dot_solve.
  cbn [nth app Vector2d.x Vector2d.y AffineTransform.a AffineTransform.b
       AffineTransform.c AffineTransform.d AffineTransform.tx AffineTransform.ty].
  repeat split; f_equal; field; exact Hdet.
Qed.

(** With it, every MOS that [adjustParams] returns has a fitted implied
    transform: its three source points have determinant 1. *)
Lemma example_implied_fit (self : MOS.t) (a b mode : Z) (e g : R) (m : MOS.t) :
  MOS.adjustParams (E := example_externals) self a b mode e g = MOS.Done m ->
  implied_fit m.
Proof.
  intros Hdone.
  pose proof (v_gen_det (E := example_externals) _ _ _ _ _ _ _ Hdone) as Hdet.
  destruct (adjustParams_Done_inv (E := example_externals) _ _ _ _ _ _ _ Hdone)
    as (Ha & Hb & Hg).
  destruct (adjustParams_valid (E := example_externals) self a b mode e g
              Ha Hb Hg) as (m' & Hdone' & F).
  rewrite Hdone in Hdone'. injection Hdone' as <-.
  destruct F as (_ & _ & _ & _ & _ & _ & _ & _ & _ & _ & _ & _ & _ & _ & FA & _).
  unfold implied_fit. rewrite FA. unfold MOS.calcImpliedAffine.
  unfold AffineTransform.applyi, Vector2d.ofVector2i.
  cbn [Vector2i.x Vector2i.y].
  apply three_dot_solve_fits. cbn [Vector2d.x Vector2d.y].
  replace (0 * (IZR (Vector2i.y (MOS.v_gen m)) - IZR (MOS.b0 m)) -
           0 * (IZR (Vector2i.x (MOS.v_gen m)) - IZR (MOS.a0 m)) +
           (IZR (Vector2i.x (MOS.v_gen m)) * IZR (MOS.b0 m) -
            IZR (MOS.a0 m) * IZR (Vector2i.y (MOS.v_gen m))))%R
    with (IZR (Vector2i.x (MOS.v_gen m) * MOS.b0 m
               - Vector2i.y (MOS.v_gen m) * MOS.a0 m)).
  - rewrite Hdet. lra.
  - rewrite minus_IZR, !mult_IZR. ring.
Qed.

Lemma diatonic_done :
  MOS.adjustParams (E := example_externals) raw_MOS 5 2 1 1 (585 / 1000)
  = MOS.Done diatonic.
Proof. apply example_MOS_done; [lia | lia | lra]. Qed.

(** Every node of the base scale of the diatonic MOS passes
    [nodeInScale]. *)
Lemma base_scale_nodeInScale_diatonic :
  Forall (fun node => MOS.nodeInScale diatonic (Node.natural_coord node) = true)
    (Scale.getNodes (MOS.base_scale diatonic)).
Proof.
  destruct (example_MOS_fields 5 2 1 1 (585 / 1000)) as
    (_ & _ & _ & Fm & Fr & _ & _ & Fn0 & _); [lia | lia | lra |].
  fold diatonic in Fm, Fr, Fn0.
  apply (base_scale_nodeInScale (E := example_externals) raw_MOS 5 2 1 1
           (585 / 1000) diatonic diatonic_done).
  - rewrite Fm, Fn0. cbn. lia.
  - left. rewrite Fr. reflexivity.
  - apply (example_implied_fit _ _ _ _ _ _ _ diatonic_done).
  - apply (implied_unit_steps (E := example_externals) _ _ _ _ _ _ _
             diatonic_done).
    apply (example_implied_fit _ _ _ _ _ _ _ diatonic_done).
Defined.

(** Which step the forward pass takes from a tuned node, read off the
    height of the node. *)
Lemma forward_step_natural (A : AffineTransform.t) (base_freq : R)
  (r s : Vector2i.t) (nd : Node.t) :
  tuned A nd ->
  let y := Vector2d.y (AffineTransform.applyi A (Node.natural_coord nd)) in
  let yr := Vector2d.y (AffineTransform.applyi (linear_part A) r) in
  let ys := Vector2d.y (AffineTransform.applyi (linear_part A) s) in
  let nd' :=
    Scale.forward_step A base_freq r s
      (AffineTransform.applyi (linear_part A) r)
      (AffineTransform.applyi (linear_part A) s) nd in
  tuned A nd' /\
  ((0 <= y + yr < 1)%R ->
   Node.natural_coord nd' = Vector2i.add (Node.natural_coord nd) r) /\
  ((y + yr < 0 \/ 1 <= y + yr)%R -> (0 <= y + ys < 1)%R ->
   Node.natural_coord nd' = Vector2i.add (Node.natural_coord nd) s).
Proof.
  intros Ht y yr ys nd'. subst nd' y yr ys.
  unfold Scale.forward_step, Scale.retuned. cbv zeta.
  cbn [Node.natural_coord]. unfold tuned in Ht. rewrite !Ht.
  split; [reflexivity |].
  split; intros H1.
  - apply in_strip_true_iff in H1. rewrite H1. reflexivity.
  - intros H2. apply in_strip_false_iff in H1. apply in_strip_true_iff in H2.
    rewrite H1, H2. reflexivity.
Qed.

(** The base scale of the diatonic MOS, one period and the node that
    closes it: the steps are L L s L L L s. *)
Example diatonic_base_scale_naturals :
  map Node.natural_coord (Scale.getNodes (MOS.base_scale diatonic))
  = [Vector2i.mk 0 0; Vector2i.mk 1 0; Vector2i.mk 2 0; Vector2i.mk 2 1;
     Vector2i.mk 3 1; Vector2i.mk 4 1; Vector2i.mk 5 1; Vector2i.mk 5 2].
Proof.
  destruct (example_MOS_fields 5 2 1 1 (585 / 1000)) as
    (_ & _ & _ & Fm & _ & Fa0 & Fb0 & Fn0 & Fs); [lia | lia | lra |].
  fold diatonic in Fm, Fa0, Fb0, Fn0, Fs.
  change (5 / Z.gcd 5 2) with 5 in Fa0, Fn0.
  change (2 / Z.gcd 5 2) with 2 in Fb0, Fn0. change (5 + 2) with 7 in Fn0.
  pose proof (example_implied_fit _ _ _ _ _ _ _ diatonic_done) as Hfit.
  destruct (implied_unit_step_y (E := example_externals) _ _ _ _ _ _ _
              diatonic_done Hfit) as (Hr & Hs & _).
  destruct Hfit as (Hf0 & _).
  apply (f_equal Vector2d.y) in Hf0.
  rewrite Fa0, Fb0, Fn0 in *. rewrite Fm in Hf0.
  unfold Scale.getNodes.
  rewrite (fromAffine_Some_inv (E := example_externals) _ 1 (5 + 2 + 1) 0 _
             ltac:(lia) Fs).
  cbn [findClosestWithinStrip example_externals unit_steps fst snd].
  change (Z.to_nat 0) with 0%nat.
  change (Z.to_nat (5 + 2 + 1 - 0 - 1)) with 7%nat.
  set (A := MOS.impliedAffine diatonic) in *.
  cbn [trail rev app].
  set (fwd := Scale.forward_step A 1 (Vector2i.mk 1 0) (Vector2i.mk 0 1) _ _).
  unfold linear_part, AffineTransform.applyi, AffineTransform.apply,
    Vector2d.ofVector2i in Hr, Hs, Hf0.
  cbn [Vector2i.x Vector2i.y Vector2d.x Vector2d.y
       AffineTransform.set_tx AffineTransform.set_ty
       AffineTransform.a AffineTransform.b AffineTransform.c AffineTransform.d
       AffineTransform.tx AffineTransform.ty] in Hr, Hs, Hf0.
  assert (Hc : AffineTransform.c A = (2 / 7)%R) by lra.
  assert (Hd : AffineTransform.d A = (- 5 / 7)%R) by lra.
  assert (Hty : AffineTransform.ty A = (3 / 14)%R) by (cbn in Hf0; lra).
  clear Hr Hs Hf0.
  set (n0 := root_node A 1). set (n1 := fwd n0). set (n2 := fwd n1).
  set (n3 := fwd n2). set (n4 := fwd n3). set (n5 := fwd n4).
  set (n6 := fwd n5). set (n7 := fwd n6).
  assert (step : forall nd X Y,
            tuned A nd /\ Node.natural_coord nd = Vector2i.mk X Y ->
            let y := (2 / 7 * IZR X + - 5 / 7 * IZR Y + 3 / 14)%R in
            tuned A (fwd nd) /\
            ((0 <= y + 2 / 7 < 1)%R ->
             Node.natural_coord (fwd nd) = Vector2i.mk (X + 1) (Y + 0)) /\
            ((1 <= y + 2 / 7)%R -> (0 <= y - 5 / 7 < 1)%R ->
             Node.natural_coord (fwd nd) = Vector2i.mk (X + 0) (Y + 1))).
  { intros nd X Y [Ht Hn] y.
    destruct (forward_step_natural A 1 (Vector2i.mk 1 0) (Vector2i.mk 0 1) nd Ht)
      as (Ht' & Hstep_r & Hstep_s).
    fold fwd in Ht', Hstep_r, Hstep_s.
    rewrite Hn in Hstep_r, Hstep_s.
    unfold linear_part, AffineTransform.applyi, AffineTransform.apply,
      Vector2d.ofVector2i, Vector2i.add in Hstep_r, Hstep_s.
    cbn [Vector2i.x Vector2i.y Vector2d.x Vector2d.y
         AffineTransform.set_tx AffineTransform.set_ty
         AffineTransform.a AffineTransform.b AffineTransform.c AffineTransform.d
         AffineTransform.tx AffineTransform.ty] in Hstep_r, Hstep_s.
    rewrite Hc, Hd, Hty in Hstep_r, Hstep_s.
    split; [exact Ht' |]. split.
    - intros H. apply Hstep_r. subst y. lra.
    - intros H1 H2. apply Hstep_s; subst y; lra. }
  assert (H0 : tuned A n0 /\ Node.natural_coord n0 = Vector2i.mk 0 0)
    by (split; reflexivity).
  assert (H1 : tuned A n1 /\ Node.natural_coord n1 = Vector2i.mk 1 0).
  { destruct (step n0 0 0 H0) as (Ht & Hr & _). split; [exact Ht |].
    apply Hr. lra. }
  assert (H2 : tuned A n2 /\ Node.natural_coord n2 = Vector2i.mk 2 0).
  { destruct (step n1 1 0 H1) as (Ht & Hr & _). split; [exact Ht |].
    apply Hr. lra. }
  assert (H3 : tuned A n3 /\ Node.natural_coord n3 = Vector2i.mk 2 1).
  { destruct (step n2 2 0 H2) as (Ht & _ & Hs). split; [exact Ht |].
    apply Hs; lra. }
  assert (H4 : tuned A n4 /\ Node.natural_coord n4 = Vector2i.mk 3 1).
  { destruct (step n3 2 1 H3) as (Ht & Hr & _). split; [exact Ht |].
    apply Hr. lra. }
  assert (H5 : tuned A n5 /\ Node.natural_coord n5 = Vector2i.mk 4 1).
  { destruct (step n4 3 1 H4) as (Ht & Hr & _). split; [exact Ht |].
    apply Hr. lra. }
  assert (H6 : tuned A n6 /\ Node.natural_coord n6 = Vector2i.mk 5 1).
  { destruct (step n5 4 1 H5) as (Ht & Hr & _). split; [exact Ht |].
    apply Hr. lra. }
  assert (H7 : tuned A n7 /\ Node.natural_coord n7 = Vector2i.mk 5 2).
  { destruct (step n6 5 1 H6) as (Ht & _ & Hs). split; [exact Ht |].
    apply Hs; lra. }
  cbn [map].
  rewrite (proj2 H0), (proj2 H1), (proj2 H2), (proj2 H3), (proj2 H4),
    (proj2 H5), (proj2 H6), (proj2 H7).
  reflexivity.
Qed.

(** C3, as stated, fails: [a = 5], [b = 2], [generator = 0.585] are valid
    and [mode = 7] is accepted; the base scale holds its root node
    [(0,0)], and [nodeInScale((0,0))] is false, since [d = mode = 7 = n]. *)
Lemma base_scale_root_outside :
  let m := example_MOS 5 2 7 1 (585 / 1000) in
  MOS.new (E := example_externals) raw_MOS 5 2 7 1 (585 / 1000) = MOS.Done m /\
  exists node,
    In node (Scale.getNodes (MOS.base_scale m)) /\
    Node.natural_coord node = Vector2i.mk 0 0 /\
    MOS.nodeInScale m (Node.natural_coord node) = false.
Proof.
  intros m.
  split; [apply example_MOS_done; [lia | lia | lra] |].
  destruct (example_MOS_fields 5 2 7 1 (585 / 1000)) as
    (Fa & Fb & Fn & Fm & _ & _ & _ & _ & Fs); [lia | lia | lra |].
  fold m in Fa, Fb, Fn, Fm, Fs.
  exists (root_node (MOS.impliedAffine m) 1). split; [| split].
  - unfold Scale.getNodes.
    rewrite (fromAffine_Some_inv (E := example_externals) _ 1 (5 + 2 + 1) 0 _
               ltac:(lia) Fs).
    apply in_or_app. right. left. reflexivity.
  - reflexivity.
  - unfold MOS.nodeInScale. rewrite Fa, Fb, Fn, Fm. reflexivity.
Qed.

(** The other way out of C3: two periods and a mode other than 0.  For
    [MOS(a=2, b=2, mode=1, equave=1, generator=0.5)] the mode is in range
    ([n0 = 2]), the node after the root is [(0,1)], with [y = 0.25] in the
    strip, and [nodeInScale((0,1))] is false: [d = 0*2 - 1*2 + 1 = -1].
    The test uses [a], [b], [n] where the strip counts with [a0], [b0],
    [n0]. *)
Lemma base_scale_two_periods_outside :
  let m := example_MOS 2 2 1 1 (1 / 2) in
  MOS.new (E := example_externals) raw_MOS 2 2 1 1 (1 / 2) = MOS.Done m /\
  0 <= MOS.mode m < MOS.n0 m /\
  exists node,
    In node (Scale.getNodes (MOS.base_scale m)) /\
    Node.natural_coord node = Vector2i.mk 0 1 /\
    (0 <= node_y node < 1)%R /\
    MOS.nodeInScale m (Node.natural_coord node) = false.
Proof.
  intros m.
  assert (Hdone : MOS.adjustParams (E := example_externals) raw_MOS 2 2 1 1
                    (1 / 2) = MOS.Done m)
    by (apply example_MOS_done; [lia | lia | lra]).
  destruct (example_MOS_fields 2 2 1 1 (1 / 2)) as
    (Fa & Fb & Fn & Fm & _ & Fa0 & Fb0 & Fn0 & Fs); [lia | lia | lra |].
  fold m in Fa, Fb, Fn, Fm, Fa0, Fb0, Fn0, Fs.
  change (2 / Z.gcd 2 2) with 1 in Fa0, Fb0, Fn0. change (1 + 1) with 2 in Fn0.
  split; [exact Hdone |].
  split; [rewrite Fm, Fn0; lia |].
  pose proof (example_implied_fit _ _ _ _ _ _ _ Hdone) as Hfit.
  destruct (implied_unit_step_y (E := example_externals) _ _ _ _ _ _ _
              Hdone Hfit) as (Hr & Hs & _).
  pose proof (implied_unit_steps (E := example_externals) _ _ _ _ _ _ _
                Hdone Hfit) as Hkeep.
  destruct Hfit as (Hf0 & _).
  rewrite Fa0, Fb0, Fn0 in *. rewrite Fm in Hf0.
  set (A := MOS.impliedAffine m) in *.
  set (fwd := Scale.forward_step A 1 (Vector2i.mk 1 0) (Vector2i.mk 0 1)
                (AffineTransform.applyi (linear_part A) (Vector2i.mk 1 0))
                (AffineTransform.applyi (linear_part A) (Vector2i.mk 0 1))).
  assert (Hnat : Node.natural_coord (fwd (root_node A 1)) = Vector2i.mk 0 1).
  { unfold fwd, Scale.forward_step, Scale.retuned, root_node.
    cbn [Node.natural_coord Node.tuning_coord].
    rewrite Hf0, Hr, Hs. cbn [Vector2d.y].
    split_strip_tests; try reflexivity; cbn in *; lra. }
  assert (Hroot : tuned A (root_node A 1)
                  /\ (0 <= node_y (root_node A 1) < 1)%R).
  { split; [reflexivity |].
    unfold node_y, root_node. cbn [Node.tuning_coord].
    rewrite Hf0. cbn. lra. }
  exists (fwd (root_node A 1)). split; [| split; [| split]].
  - unfold Scale.getNodes.
    rewrite (fromAffine_Some_inv (E := example_externals) _ 1 (2 + 2 + 1) 0 _
               ltac:(lia) Fs).
    apply in_or_app. right. right. left. reflexivity.
  - exact Hnat.
  - destruct Hroot as [Ht Hy].
    apply (forward_step_in_strip A 1 _ _ Hkeep _ Ht Hy).
  - rewrite Hnat. unfold MOS.nodeInScale. rewrite Fa, Fb, Fn, Fm. reflexivity.
Qed.

(** ** Retuning *)

Lemma updateVectors_impliedAffine (m : MOS.t) :
  MOS.impliedAffine (MOS.updateVectors m) = MOS.impliedAffine m.
Proof. unfold MOS.updateVectors. destruct (Rltb _ _); reflexivity. Qed.


(** [_recalcOnRetuneUsingAffine] returns when the period vector gets a
    width other than zero, and only then. *)
Lemma recalcOnRetune_defined (m : MOS.t) (A : AffineTransform.t) :
  period_under m A <> 0%R ->
  MOS._recalcOnRetuneUsingAffine m A = Some (retuned_MOS m A).
Proof.
  intros Hp. unfold MOS._recalcOnRetuneUsingAffine, retuned_MOS.
  cbn [MOS.set_impliedAffine MOS.set_base_scale MOS.a MOS.b MOS.a0 MOS.b0
       MOS.v_gen].
  fold (period_under m A). rewrite Rdiv_checked_some by exact Hp.
  reflexivity.
Qed.

Lemma recalcOnRetune_undefined (m : MOS.t) (A : AffineTransform.t) :
  period_under m A = 0%R -> MOS._recalcOnRetuneUsingAffine m A = None.
Proof.
  intros Hp. unfold MOS._recalcOnRetuneUsingAffine.
  cbn [MOS.set_impliedAffine MOS.set_base_scale MOS.a MOS.b MOS.a0 MOS.b0
       MOS.v_gen].
  fold (period_under m A). rewrite Hp, Rdiv_checked_none. reflexivity.
Qed.

Lemma recalcOnRetune_impliedAffine (m : MOS.t) (A : AffineTransform.t) :
  MOS.impliedAffine (retuned_MOS m A) = A.
Proof.
  unfold retuned_MOS. rewrite updateVectors_impliedAffine.
  reflexivity.
Qed.


(** The width of the period vector depends on the linear part of the
    transform only. *)
Lemma period_under_linear (m : MOS.t) (A : AffineTransform.t) :
  period_under m A
  = (AffineTransform.a A * IZR (MOS.a0 m)
     + AffineTransform.b A * IZR (MOS.b0 m))%R.
Proof.
  unfold period_under, AffineTransform.applyi, AffineTransform.apply,
    Vector2d.ofVector2i.
  cbn [Vector2i.x Vector2i.y Vector2d.x Vector2d.y]. ring.
Qed.

Lemma retuneWithAffine_natural (s : Scale.t) (A : AffineTransform.t) :
  map Node.natural_coord (Scale.getNodes (Scale.retuneWithAffine s A))
  = map Node.natural_coord (Scale.getNodes s).
Proof.
  unfold Scale.retuneWithAffine, Scale.getNodes. cbn [Scale.nodes_].
  rewrite map_map. apply map_ext. reflexivity.
Qed.

Lemma retuneWithAffine_tuned (s : Scale.t) (A : AffineTransform.t) :
  Forall (fun nd => tuned A nd /\ pitch_consistent (Scale.getBaseFreq s) nd)
    (Scale.getNodes (Scale.retuneWithAffine s A)).
Proof.
  unfold Scale.retuneWithAffine, Scale.getNodes, Scale.getBaseFreq.
  cbn [Scale.nodes_]. apply Forall_map. apply Forall_forall.
  intros nd _. split; reflexivity.
Qed.


(** The implied transform of an example MOS maps the origin to [x = 0] and
    the period vector to [x = period]. *)
Lemma example_period_under (a b mode : Z) (e g : R) :
  0 < a -> 0 < b -> (0 <= g <= 1)%R ->
  let m := example_MOS a b mode e g in
  period_under m (MOS.impliedAffine m) = (e / IZR (Z.gcd a b))%R.
Proof.
  intros Ha Hb Hg m.
  pose proof (example_MOS_done a b mode e g Ha Hb Hg) as Hdone. fold m in Hdone.
  destruct (example_implied_fit _ _ _ _ _ _ _ Hdone) as (Hf0 & _ & Hfp).
  destruct (example_MOS_tuning a b mode e g Ha Hb Hg) as (_ & Fp & _).
  fold m in Fp.
  unfold period_under. rewrite Hf0, Hfp. cbn [Vector2d.x]. rewrite Fp. ring.
Qed.

(** [retuneOnePoint] hands the moved transform on; the width of the
    period vector is the one it had. *)
Lemma retuneOnePoint_defined (m : MOS.t) (v : Vector2i.t) (log2fr : R) :
  period_under m (MOS.impliedAffine m) <> 0%R ->
  MOS.retuneOnePoint m v log2fr
  = Some (retuned_MOS m (one_point_transform (MOS.impliedAffine m) v log2fr)).
Proof.
  intros Hp. unfold MOS.retuneOnePoint.
  fold (one_point_transform (MOS.impliedAffine m) v log2fr).
  apply recalcOnRetune_defined.
  rewrite period_under_linear in *. exact Hp.
Qed.

Lemma retuneOnePoint_undefined (m : MOS.t) (v : Vector2i.t) (log2fr : R) :
  period_under m (MOS.impliedAffine m) = 0%R ->
  MOS.retuneOnePoint m v log2fr = None.
Proof.
  intros Hp. unfold MOS.retuneOnePoint.
  fold (one_point_transform (MOS.impliedAffine m) v log2fr).
  apply recalcOnRetune_undefined.
  rewrite period_under_linear in *. exact Hp.
Qed.


Lemma diatonic_period_under :
  period_under diatonic (MOS.impliedAffine diatonic) = 1%R.
Proof.
  unfold diatonic.
  rewrite (example_period_under 5 2 1 1 (585 / 1000)) by (lia || lra).
  change (Z.gcd 5 2) with 1. lra.
Qed.





(** [retuneTwoPoints] with two points whose images differ in [x]: the
    first quotient is a number, and the call goes on to
    [_recalcOnRetuneUsingAffine] with the scaled transform. *)
Lemma retuneTwoPoints_hands_on (m : MOS.t) (fixed v : Vector2i.t)
  (log2fr : R) :
  Vector2d.x (AffineTransform.applyi (MOS.impliedAffine m) v)
  <> Vector2d.x (AffineTransform.applyi (MOS.impliedAffine m) fixed) ->
  MOS.retuneTwoPoints m fixed v log2fr
  = MOS._recalcOnRetuneUsingAffine m
      (two_point_transform (MOS.impliedAffine m) fixed v log2fr).
Proof.
  intros Hne. unfold MOS.retuneTwoPoints.
  rewrite Rdiv_checked_some by lra. reflexivity.
Qed.

Lemma retuneTwoPoints_same_image (m : MOS.t) (fixed v : Vector2i.t)
  (log2fr : R) :
  Vector2d.x (AffineTransform.applyi (MOS.impliedAffine m) v)
  = Vector2d.x (AffineTransform.applyi (MOS.impliedAffine m) fixed) ->
  MOS.retuneTwoPoints m fixed v log2fr = None.
Proof.
  intros Heq. unfold MOS.retuneTwoPoints. rewrite Heq.
  match goal with
  | |- context [Rdiv_checked _ (?t - ?t)%R] =>
      replace (t - t)%R with 0%R by ring
  end.
  rewrite Rdiv_checked_none. reflexivity.
Qed.

(** The scaled transform gives the period vector the scale factor times
    the width it had. *)
Lemma period_under_two_point (m : MOS.t) (A : AffineTransform.t)
  (fixed v : Vector2i.t) (log2fr : R) :
  period_under m (two_point_transform A fixed v log2fr)
  = (two_point_scale A fixed v log2fr * period_under m A)%R.
Proof.
  rewrite !period_under_linear.
  unfold two_point_transform, AffineTransform.compose, AffineTransform.set_a,
    AffineTransform.set_tx, AffineTransform.identity.
  cbn [AffineTransform.a AffineTransform.b AffineTransform.c
       AffineTransform.d AffineTransform.tx AffineTransform.ty]. ring.
Qed.

Lemma two_point_scale_zero (A : AffineTransform.t) (fixed v : Vector2i.t)
  (log2fr : R) :
  Vector2d.x (AffineTransform.applyi A v)
  <> Vector2d.x (AffineTransform.applyi A fixed) ->
  two_point_scale A fixed v log2fr = 0%R
  <-> log2fr = Vector2d.x (AffineTransform.applyi A fixed).
Proof.
  intros Hne. unfold two_point_scale.
  set (F := Vector2d.x (AffineTransform.applyi A fixed)) in *.
  set (V := Vector2d.x (AffineTransform.applyi A v)) in *.
  split; intros H.
  - apply (f_equal (fun t => (t * (V - F))%R)) in H.
    field_simplify in H; lra.
  - rewrite H. field. lra.
Qed.

(** C9 (amended). [retuneTwoPoints(fixed, v, log2fr)] divides twice, both
    times with no test before: by [(A v).x - (A fixed).x] for the scale
    factor, and, in [_recalcOnRetuneUsingAffine], by the new width of the
    period vector, the scale factor times the old width, for [generator].
    The call is defined exactly when the two images have different [x],
    [log2fr] is not [(A fixed).x] and the period vector has a width other
    than zero under [A]; then, in the transform it leaves, the image of [v]
    is [log2fr - (A fixed).x] to the right of the image of [fixed], and the
    period is the scale factor times the old width. *)
Theorem retuneTwoPoints_divisor (m : MOS.t) (fixed v : Vector2i.t)
  (log2fr : R) :
  let A := MOS.impliedAffine m in
  let image_x (w : Vector2i.t) := Vector2d.x (AffineTransform.applyi A w) in
  let scale := ((log2fr - image_x fixed) / (image_x v - image_x fixed))%R in
  (MOS.retuneTwoPoints m fixed v log2fr = None <->
   image_x v = image_x fixed \/ log2fr = image_x fixed
   \/ period_under m A = 0%R) /\
  (image_x v <> image_x fixed -> log2fr <> image_x fixed ->
   period_under m A <> 0%R ->
   exists m',
     MOS.retuneTwoPoints m fixed v log2fr = Some m' /\
     (Vector2d.x (AffineTransform.applyi (MOS.impliedAffine m') v)
      - Vector2d.x (AffineTransform.applyi (MOS.impliedAffine m') fixed)
      = log2fr - image_x fixed)%R /\
     MOS.period m' = (scale * period_under m A)%R).
Proof.
  intros A image_x scale.
  set (A' := two_point_transform A fixed v log2fr).
  pose proof (period_under_two_point m A fixed v log2fr) as Hwidth.
  fold A' in Hwidth. change (two_point_scale A fixed v log2fr) with scale in Hwidth.
  assert (Hdefined : image_x v <> image_x fixed -> log2fr <> image_x fixed ->
                     period_under m A <> 0%R ->
                     MOS.retuneTwoPoints m fixed v log2fr
                     = Some (retuned_MOS m A')).
  { intros Hne Hlog Hp. rewrite (retuneTwoPoints_hands_on m fixed v log2fr Hne).
    apply recalcOnRetune_defined. fold A A'. rewrite Hwidth.
    apply Rmult_integral_contrapositive_currified; [| exact Hp].
    intros H0. apply (two_point_scale_zero A fixed v log2fr Hne) in H0.
    contradiction. }
  split.
  - split.
    + intros Hnone.
      destruct (Req_dec_T (image_x v) (image_x fixed)) as [| Hne];
        [left; assumption |].
      destruct (Req_dec_T log2fr (image_x fixed)) as [| Hlog];
        [right; left; assumption |].
      destruct (Req_dec_T (period_under m A) 0) as [| Hp];
        [right; right; assumption |].
      rewrite (Hdefined Hne Hlog Hp) in Hnone. discriminate.
    + intros Hzero.
      destruct (Req_dec_T (image_x v) (image_x fixed)) as [Heq | Hne].
      * apply retuneTwoPoints_same_image. exact Heq.
      * rewrite (retuneTwoPoints_hands_on m fixed v log2fr Hne).
        apply recalcOnRetune_undefined. fold A A'. rewrite Hwidth.
        destruct Hzero as [Heq | [Hlog | Hp]]; [contradiction | |].
        -- apply (two_point_scale_zero A fixed v log2fr Hne) in Hlog.
           change (two_point_scale A fixed v log2fr) with scale in Hlog.
           rewrite Hlog. ring.
        -- rewrite Hp. ring.
  - intros Hne Hlog Hp. rewrite (Hdefined Hne Hlog Hp).
    eexists. split; [reflexivity |].
    rewrite recalcOnRetune_impliedAffine. split.
    + subst A' scale image_x. cbv beta in *.
      unfold two_point_transform, two_point_scale,
        AffineTransform.applyi, AffineTransform.apply,
        Vector2d.ofVector2i, AffineTransform.compose, AffineTransform.set_a,
        AffineTransform.set_tx, AffineTransform.identity in *.
      cbn [Vector2i.x Vector2i.y Vector2d.x Vector2d.y
           AffineTransform.a AffineTransform.b AffineTransform.c
           AffineTransform.d AffineTransform.tx AffineTransform.ty] in *.
      field. lra.
    + rewrite <- Hwidth. unfold retuned_MOS, MOS.updateVectors.
      destruct (Rltb _ _); reflexivity.
Qed.

(** The images of the origin and of the period vector [(5,2)] under the
    implied transform of the diatonic MOS. *)
Lemma diatonic_octave :
  let A := MOS.impliedAffine diatonic in
  Vector2d.x (AffineTransform.applyi A (Vector2i.mk 0 0)) = 0%R /\
  Vector2d.x (AffineTransform.applyi A (Vector2i.mk 5 2)) = 1%R.
Proof.
  destruct (example_implied_fit _ _ _ _ _ _ _ diatonic_done) as (Hf0 & _ & Hfp).
  destruct (example_MOS_fields 5 2 1 1 (585 / 1000)) as
    (_ & _ & _ & _ & _ & Fa0 & Fb0 & _); [lia | lia | lra |].
  destruct (example_MOS_tuning 5 2 1 1 (585 / 1000)) as
    (_ & Fp & _); [lia | lia | lra |].
  fold diatonic in Fa0, Fb0, Fp.
  change (5 / Z.gcd 5 2) with 5 in Fa0. change (2 / Z.gcd 5 2) with 2 in Fb0.
  change (Z.gcd 5 2) with 1 in Fp.
  rewrite Fa0, Fb0, Fp in Hfp. cbv zeta. rewrite Hf0, Hfp. cbn [Vector2d.x].
  split; lra.
Qed.

(** In the diatonic MOS the period vector [(5,2)] has its image one octave
    right of the origin's: stretching that octave to [1.2] with the origin
    fixed is defined. *)
Lemma retuneTwoPoints_stretched_octave :
  exists m',
    MOS.retuneTwoPoints diatonic (Vector2i.mk 0 0) (Vector2i.mk 5 2) (12 / 10)
      = Some m' /\
    (Vector2d.x (AffineTransform.applyi (MOS.impliedAffine m') (Vector2i.mk 5 2))
     - Vector2d.x (AffineTransform.applyi (MOS.impliedAffine m') (Vector2i.mk 0 0))
     = 12 / 10
       - Vector2d.x (AffineTransform.applyi (MOS.impliedAffine diatonic)
                       (Vector2i.mk 0 0)))%R /\
    MOS.period m'
    = ((12 / 10
        - Vector2d.x (AffineTransform.applyi (MOS.impliedAffine diatonic)
                        (Vector2i.mk 0 0)))
       / (Vector2d.x (AffineTransform.applyi (MOS.impliedAffine diatonic)
                        (Vector2i.mk 5 2))
          - Vector2d.x (AffineTransform.applyi (MOS.impliedAffine diatonic)
                          (Vector2i.mk 0 0)))
       * period_under diatonic (MOS.impliedAffine diatonic))%R.
Proof.
  destruct diatonic_octave as [H0 H1].
  apply (proj2 (retuneTwoPoints_divisor diatonic (Vector2i.mk 0 0)
                  (Vector2i.mk 5 2) (12 / 10))).
  - rewrite H0, H1. lra.
  - rewrite H0. lra.
  - rewrite diatonic_period_under. lra.
Defined.

(** C9, as stated, fails: in the diatonic MOS the images of the origin and
    of [(5,2)] have different [x], and [retuneTwoPoints] with the origin
    fixed and [(5,2)] sent to [log2fr = 0], where the origin is, is not
    defined all the same: the scale factor is zero, so is the new period,
    and [generator] is a quotient by it. *)
Lemma retuneTwoPoints_collapsed_octave :
  let A := MOS.impliedAffine diatonic in
  Vector2d.x (AffineTransform.applyi A (Vector2i.mk 5 2))
  <> Vector2d.x (AffineTransform.applyi A (Vector2i.mk 0 0)) /\
  MOS.retuneTwoPoints diatonic (Vector2i.mk 0 0) (Vector2i.mk 5 2) 0 = None.
Proof.
  destruct diatonic_octave as [H0 H1]. cbv zeta in *. split.
  - rewrite H0, H1. lra.
  - rewrite retuneTwoPoints_hands_on by (rewrite H0, H1; lra).
    apply recalcOnRetune_undefined. rewrite period_under_two_point.
    replace (two_point_scale (MOS.impliedAffine diatonic) (Vector2i.mk 0 0)
               (Vector2i.mk 5 2) 0) with 0%R; [ring |].
    symmetry. apply two_point_scale_zero; rewrite H0; [rewrite H1; lra |].
    reflexivity.
Qed.

(** * Further properties of the sources *)

(** ** gcd and the brightness path, continued *)

Lemma gcd_abs_Zgcd (a b : Z) : Z.abs (gcd a b) = Z.gcd a b.
Proof.
  funelim (gcd a b).
  - subst. symmetry. apply Z.gcd_0_r.
  - rewrite H.
    rewrite (Z.gcd_comm a b).
    replace (Z.rem a b) with (a + (- Z.quot a b) * b).
    + apply Z.gcd_add_mult_diag_r.
    + pose proof (Z.quot_rem' a b). lia.
Qed.

(** Every call of the recursion has arguments no larger in absolute value
    than the larger of the first two. *)
Lemma gcd_calls_bounded (a b bound : Z) :
  Z.abs a <= bound -> Z.abs b <= bound ->
  forall x y, gcd_calls a b x y -> Z.abs x <= bound /\ Z.abs y <= bound.
Proof.
  intros Ha Hb x y Hcalls.
  induction Hcalls as [| x y _ [_ Hy] Hnz]; [split; assumption |].
  split; [exact Hy |].
  pose proof (Z.rem_bound_abs x y Hnz). lia.
Qed.

(** X1. The [gcd] of mos.cpp on two [int]s other than [INT_MIN].  In every
    call of its recursion both arguments are other than [INT_MIN], so that
    no [a % b] it takes is [INT_MIN % -1].  The absolute value of what it
    returns is the greatest common divisor; it is the greatest common
    divisor on non-negative arguments; and [gcd(a, 0)] is [a] itself,
    negative when [a] is. *)
Theorem gcd_magnitude (a b : Z) :
  - 2147483648 < a <= 2147483647 -> - 2147483648 < b <= 2147483647 ->
  (forall x y, gcd_calls a b x y ->
     - 2147483648 < x <= 2147483647 /\ - 2147483648 < y <= 2147483647) /\
  Z.abs (gcd a b) = Z.gcd a b /\
  - 2147483648 < gcd a b <= 2147483647 /\
  (0 <= a -> 0 <= b -> gcd a b = Z.gcd a b) /\
  (b = 0 -> gcd a b = a).
Proof.
  intros Ha Hb.
  assert (Hcalls : forall x y, gcd_calls a b x y ->
                     Z.abs x <= 2147483647 /\ Z.abs y <= 2147483647)
    by (apply gcd_calls_bounded; lia).
  split; [intros x y Hxy; specialize (Hcalls x y Hxy); lia |].
  split; [apply gcd_abs_Zgcd |]. split; [| split; [apply gcd_Zgcd |]].
  - pose proof (gcd_abs_Zgcd a b) as Habs.
    pose proof (Z.gcd_nonneg a b) as Hpos.
    assert (Hle : Z.gcd a b <= 2147483647).
    { destruct (Z.eq_dec a 0) as [-> | Hnz].
      - rewrite Z.gcd_0_l. lia.
      - pose proof (Z.gcd_divide_l a b) as Hdiv.
        apply Z.divide_abs_r in Hdiv.
        apply Z.divide_pos_le in Hdiv; lia. }
    lia.
  - intros ->. now simp gcd.
Qed.

Lemma gcd_magnitude_4_minus_6 :
  (forall x y, gcd_calls 4 (-6) x y ->
     - 2147483648 < x <= 2147483647 /\ - 2147483648 < y <= 2147483647) /\
  Z.abs (gcd 4 (-6)) = Z.gcd 4 (-6) /\
  - 2147483648 < gcd 4 (-6) <= 2147483647 /\
  (0 <= 4 -> 0 <= -6 -> gcd 4 (-6) = Z.gcd 4 (-6)) /\
  (-6 = 0 -> gcd 4 (-6) = 4).
Proof.
  apply (gcd_magnitude 4 (-6)); lia.
Defined.

Example gcd_negative : gcd 4 (-6) = -2.
Proof. reflexivity. Qed.

(** A path applied to a pair of positive numbers keeps them positive and
    adds at least one to their sum at every step. *)
Lemma fold_applyPath_grows (path : list bool) (x y : Z) :
  1 <= x -> 1 <= y ->
  let ab := fold_left applyPath_step path (x, y) in
  1 <= fst ab /\ 1 <= snd ab /\
  x + y + Z.of_nat (List.length path) <= fst ab + snd ab.
Proof.
  revert x y. induction path as [| p path IH]; intros x y Hx Hy; cbn.
  - lia.
  - destruct p; cbn [applyPath_step].
    + destruct (IH x (y + x)) as (H1 & H2 & H3); lia.
    + destruct (IH (x + y) y) as (H1 & H2 & H3); lia.
Qed.

Lemma applyPath_fold (path : list bool) (v : Vector2i.t) :
  fold_left applyPath_step path (Vector2i.x v, Vector2i.y v)
  = (Vector2i.x (applyPath path v), Vector2i.y (applyPath path v)).
Proof.
  unfold applyPath.
  destruct (fold_left applyPath_step path (Vector2i.x v, Vector2i.y v)).
  reflexivity.
Qed.

(** X2. Decoding. From positive coprime [a] and [b] the loop of [calcPath]
    ends, and the path it returns leads from [(1, 1)] back to [(a, b)]; the
    path has at most [a + b - 2] steps. *)
Theorem calcPath_decodes (a b : Z) :
  1 <= a -> 1 <= b -> Z.gcd a b = 1 ->
  exists path,
    calcPath a b = Some path /\
    applyPath path (Vector2i.mk 1 1) = Vector2i.mk a b /\
    Z.of_nat (List.length path) <= a + b - 2.
Proof.
  intros Ha Hb Hg.
  destruct (calcPath_terminates a b Ha Hb Hg) as (p & Hp & Hab).
  exists p. split; [exact Hp |]. split; [exact Hab |].
  pose proof (fold_applyPath_grows p 1 1 ltac:(lia) ltac:(lia)) as H.
  cbv zeta in H.
  change (fold_left applyPath_step p (1, 1))
    with (fold_left applyPath_step p
            (Vector2i.x (Vector2i.mk 1 1), Vector2i.y (Vector2i.mk 1 1))) in H.
  rewrite applyPath_fold, Hab in H. cbn [fst snd Vector2i.x Vector2i.y] in H. lia.
Qed.

Lemma calcPath_decodes_5_2 :
  exists path,
    calcPath 5 2 = Some path /\
    applyPath path (Vector2i.mk 1 1) = Vector2i.mk 5 2 /\
    Z.of_nat (List.length path) <= 5 + 2 - 2.
Proof.
  apply (calcPath_decodes 5 2); [lia | lia | reflexivity].
Defined.

(** The loop of [calcPath] undoes a path step by step. *)
Lemma calcPath_loop_undoes (path : list bool) :
  forall fuel acc,
    let ab := fold_left applyPath_step path (1, 1) in
    fst ab + snd ab <= Z.of_nat fuel + 2 ->
    calcPath_loop fuel (fst ab) (snd ab) acc = Some (acc ++ rev path).
Proof.
  induction path as [| p path IH] using rev_ind; intros fuel acc ab.
  - subst ab. cbn [fold_left fst snd rev]. intros _.
    destruct fuel; cbn; now rewrite app_nil_r.
  - subst ab. rewrite fold_left_app. cbn [fold_left].
    pose proof (fold_applyPath_grows path 1 1 ltac:(lia) ltac:(lia)) as Hpos.
    cbv zeta in Hpos.
    destruct (fold_left applyPath_step path (1, 1)) as [a b] eqn:Hfold.
    cbn [fst snd] in Hpos. destruct Hpos as (Ha & Hb & _).
    rewrite rev_unit.
    specialize (IH (Nat.pred fuel) (acc ++ [p])).
    cbv zeta in IH. try rewrite Hfold in IH. cbn [fst snd] in IH.
    destruct p; cbn [applyPath_step fst snd]; intros Hfuel.
    + destruct fuel as [| fuel]; [lia |]. cbn [calcPath_loop Nat.pred] in *.
      replace ((1 <? a) || (1 <? b + a)) with true.
      2:{ symmetry. apply orb_true_iff. right. apply Z.ltb_lt. lia. }
      replace (b + a <? a) with false by (symmetry; apply Z.ltb_ge; lia).
      replace (b + a - a) with b by lia.
      rewrite IH by lia. rewrite <- app_assoc. reflexivity.
    + destruct fuel as [| fuel]; [lia |]. cbn [calcPath_loop Nat.pred] in *.
      replace ((1 <? a + b) || (1 <? b)) with true.
      2:{ symmetry. apply orb_true_iff. left. apply Z.ltb_lt. lia. }
      replace (b <? a + b) with true by (symmetry; apply Z.ltb_lt; lia).
      replace (a + b - b) with a by lia.
      rewrite IH by lia. rewrite <- app_assoc. reflexivity.
Qed.

(** The path is read back from the pair it leads to. *)
Lemma calcPath_applyPath (path : list bool) :
  calcPath (Vector2i.x (applyPath path (Vector2i.mk 1 1)))
    (Vector2i.y (applyPath path (Vector2i.mk 1 1))) = Some path.
Proof.
  unfold calcPath.
  pose proof (applyPath_fold path (Vector2i.mk 1 1)) as Hf.
  cbn [Vector2i.x Vector2i.y] in Hf.
  pose proof (calcPath_loop_undoes path
                (Z.to_nat (Vector2i.x (applyPath path (Vector2i.mk 1 1))
                           + Vector2i.y (applyPath path (Vector2i.mk 1 1))))
                []) as H.
  cbv zeta in H. rewrite Hf in H. cbn [fst snd] in H.
  rewrite H by lia. cbn [app option_map]. now rewrite rev_involutive.
Qed.

(** X3. Encoding.  Every path is the one [calcPath] returns for the pair the
    path leads to from [(1, 1)]: [calcPath(applyPath(path, (1,1))) = path].
    So two different paths never lead to the same pair. *)
Theorem calcPath_encodes (path : list bool) :
  (let v := applyPath path (Vector2i.mk 1 1) in
   calcPath (Vector2i.x v) (Vector2i.y v) = Some path) /\
  (forall path',
     applyPath path' (Vector2i.mk 1 1) = applyPath path (Vector2i.mk 1 1) ->
     path' = path).
Proof.
  split; [apply calcPath_applyPath |].
  intros path' Hsame. pose proof (calcPath_applyPath path') as H.
  rewrite Hsame, calcPath_applyPath in H. congruence.
Qed.

Lemma positive_multiple (g k : Z) : 2 <= g -> 0 < k * g -> 2 <= k * g.
Proof.
  intros Hg Hk.
  destruct (Z.le_gt_cases k 0) as [Hle | Hgt].
  - pose proof (Z.mul_nonpos_nonneg k g Hle ltac:(lia)). lia.
  - nia.
Qed.

Lemma common_divisor_above_1 (g a b : Z) :
  2 <= g -> 0 <= a -> 0 <= b -> 0 < a + b -> (g | a) -> (g | b) ->
  (1 <? a) || (1 <? b) = true.
Proof.
  intros Hg Ha Hb Hab [ka ->] [kb ->].
  apply orb_true_iff.
  destruct (Z.eq_dec (ka * g) 0) as [H0 | H0].
  - right. apply Z.ltb_lt.
    pose proof (positive_multiple g kb Hg ltac:(lia)). lia.
  - left. apply Z.ltb_lt.
    pose proof (positive_multiple g ka Hg ltac:(lia)). lia.
Qed.

(** A loop state whose two numbers have a common divisor above 1 never
    reaches [(1, 1)]. *)
Lemma calcPath_loop_stuck (g : Z) (fuel : nat) :
  2 <= g ->
  forall a b acc, 0 <= a -> 0 <= b -> 0 < a + b -> (g | a) -> (g | b) ->
    calcPath_loop fuel a b acc = None.
Proof.
  intros Hg. induction fuel as [| fuel IH]; intros a b acc Ha Hb Hab Da Db;
    cbn [calcPath_loop];
    rewrite (common_divisor_above_1 g a b Hg Ha Hb Hab Da Db);
    [reflexivity |].
  destruct (Z.ltb_spec b a).
  - apply IH; try lia; auto. apply Z.divide_sub_r; assumption.
  - apply IH; try lia; auto. apply Z.divide_sub_r; assumption.
Qed.

(** X4. The loop of [calcPath] does not end from positive numbers that are
    not coprime, however many iterations it is given; [adjustParams]
    divides by the gcd before it calls [calcPath]. *)
Theorem calcPath_needs_coprime (a b : Z) :
  1 <= a -> 1 <= b -> Z.gcd a b <> 1 ->
  (forall fuel acc, calcPath_loop fuel a b acc = None) /\
  calcPath a b = None.
Proof.
  intros Ha Hb Hg.
  assert (H : forall fuel acc, calcPath_loop fuel a b acc = None).
  { intros fuel acc.
    apply (calcPath_loop_stuck (Z.gcd a b)); try lia.
    - pose proof (Z.gcd_nonneg a b).
      assert (Z.gcd a b <> 0) by (intros H0; apply Z.gcd_eq_0_l in H0; lia).
      lia.
    - apply Z.gcd_divide_l.
    - apply Z.gcd_divide_r. }
  split; [exact H |]. unfold calcPath. now rewrite H.
Qed.

Lemma calcPath_needs_coprime_4_6 :
  (forall fuel acc, calcPath_loop fuel 4 6 acc = None) /\ calcPath 4 6 = None.
Proof.
  apply (calcPath_needs_coprime 4 6); [lia | lia | cbn; lia].
Defined.

(** ** The path as a linear map *)

Lemma fold_applyPath_linear (path : list bool) (k l : Z) :
  forall u v : Z * Z,
    fold_left applyPath_step path
      (fst u * k + fst v * l, snd u * k + snd v * l)
    = (fst (fold_left applyPath_step path u) * k
       + fst (fold_left applyPath_step path v) * l,
       snd (fold_left applyPath_step path u) * k
       + snd (fold_left applyPath_step path v) * l).
Proof.
  induction path as [| p path IH]; intros [u1 u2] [v1 v2]; cbn [fold_left].
  - reflexivity.
  - rewrite <- IH. f_equal.
    destruct p; cbn; f_equal; ring.
Qed.

(** X5. [applyPath(path, .)] is a linear map of the lattice with determinant
    1: it maps [u * k + v * l] to the same combination of the images, and
    keeps [u.x * v.y - u.y * v.x]. *)
Theorem applyPath_unimodular (path : list bool) (u v : Vector2i.t) (k l : Z) :
  applyPath path (Vector2i.add (Vector2i.scale u k) (Vector2i.scale v l))
  = Vector2i.add (Vector2i.scale (applyPath path u) k)
      (Vector2i.scale (applyPath path v) l) /\
  Vector2i.x (applyPath path u) * Vector2i.y (applyPath path v)
  - Vector2i.y (applyPath path u) * Vector2i.x (applyPath path v)
  = Vector2i.x u * Vector2i.y v - Vector2i.y u * Vector2i.x v.
Proof.
  split; [| apply applyPath_det].
  unfold applyPath at 1. unfold Vector2i.add, Vector2i.scale.
  cbn [Vector2i.x Vector2i.y].
  pose proof (fold_applyPath_linear path k l
                (Vector2i.x u, Vector2i.y u) (Vector2i.x v, Vector2i.y v)) as H.
  cbn [fst snd] in H. rewrite H, !applyPath_fold. reflexivity.
Qed.

(** ** Mapping between two MOS *)

Lemma applyPathReverse_undoes (path : list bool) (v : Vector2i.t) :
  applyPathReverse path (applyPath path v) = v.
Proof.
  unfold applyPathReverse. rewrite <- applyPath_fold.
  rewrite fold_reverse_inverse. destruct v; reflexivity.
Qed.

(** X6. [mapFromMOS] composes and inverts: coordinates taken from [m1] to
    [m2] and on to [m3] are those taken from [m1] to [m3] at once, and
    taken to [m2] and back they are what they were. *)
Theorem mapFromMOS_compose (m1 m2 m3 : MOS.t) (v : Vector2i.t) :
  MOS.mapFromMOS m3 m2 (MOS.mapFromMOS m2 m1 v) = MOS.mapFromMOS m3 m1 v /\
  MOS.mapFromMOS m1 m2 (MOS.mapFromMOS m2 m1 v) = v.
Proof.
  unfold MOS.mapFromMOS.
  rewrite !applyPathReverse_undoes. split; [reflexivity |].
  apply applyPath_applyPathReverse.
Qed.

(** ** updateVectors *)

(** After [updateVectors] the large step is at least as wide as the small
    one, the two steps are the two unit vectors, the chroma is their
    difference, and [nL] large steps with [nS] small ones make up the
    period [(a, b)]. *)
Theorem updateVectors_steps (m : MOS.t) :
  let m' := MOS.updateVectors m in
  let width (v : Vector2i.t) :=
    Vector2d.x (AffineTransform.applyi (MOS.impliedAffine m) v) in
  (MOS.L_vec m' = Vector2i.mk 1 0 /\ MOS.s_vec m' = Vector2i.mk 0 1 /\
   MOS.nL m' = MOS.a m /\ MOS.nS m' = MOS.b m
   \/
   MOS.L_vec m' = Vector2i.mk 0 1 /\ MOS.s_vec m' = Vector2i.mk 1 0 /\
   MOS.nL m' = MOS.b m /\ MOS.nS m' = MOS.a m) /\
  MOS.L_fr m' = width (MOS.L_vec m') /\
  MOS.s_fr m' = width (MOS.s_vec m') /\
  (MOS.s_fr m' <= MOS.L_fr m')%R /\
  MOS.chroma_vec m' = Vector2i.sub (MOS.L_vec m') (MOS.s_vec m') /\
  MOS.chroma_fr m' = (MOS.L_fr m' - MOS.s_fr m')%R /\
  (0 <= MOS.chroma_fr m')%R /\
  Vector2i.add (Vector2i.scale (MOS.L_vec m') (MOS.nL m'))
    (Vector2i.scale (MOS.s_vec m') (MOS.nS m'))
  = Vector2i.mk (MOS.a m) (MOS.b m).
Proof.
  intros m' width. subst m' width. unfold MOS.updateVectors.
  destruct (Rltb _ _) eqn:Hlt;
    cbn [MOS.L_vec MOS.s_vec MOS.nL MOS.nS MOS.L_fr MOS.s_fr MOS.chroma_vec
         MOS.chroma_fr MOS.impliedAffine].
  - apply Rltb_true_iff in Hlt.
    repeat split; try reflexivity; try lra.
    + left. repeat split.
    + unfold Vector2i.add, Vector2i.scale. cbn [Vector2i.x Vector2i.y]. f_equal; ring.
  - assert (Hle : ~ (Vector2d.x (AffineTransform.applyi (MOS.impliedAffine m)
                                   (Vector2i.mk 0 1))
                     < Vector2d.x (AffineTransform.applyi (MOS.impliedAffine m)
                                     (Vector2i.mk 1 0)))%R).
    { intros H. apply Rltb_true_iff in H. congruence. }
    repeat split; try reflexivity; try lra.
    + right. repeat split.
    + unfold Vector2i.add, Vector2i.scale. cbn [Vector2i.x Vector2i.y]. f_equal; ring.
Qed.

(** ** The lattice basis of a MOS *)

Lemma fold_applyPath_gcd (path : list bool) (x y : Z) :
  let ab := fold_left applyPath_step path (x, y) in
  Z.gcd (fst ab) (snd ab) = Z.gcd x y.
Proof.
  revert x y. induction path as [| p path IH]; intros x y; cbn [fold_left].
  - reflexivity.
  - cbv zeta in *. destruct p; cbn [applyPath_step]; rewrite IH.
    + apply Z.gcd_add_diag_r.
    + rewrite Z.gcd_comm, Z.gcd_add_diag_r. apply Z.gcd_comm.
Qed.

Section Basis.
Context {E : Externals}.

(** X7. In every MOS that [adjustParams] returns, [path] is the path
    [calcPath] gives for [(a0, b0)] and has [depth] steps, at most
    [n0 - 2]; it leads from [(1, 1)] to [(a0, b0)], from [(1, 0)] to
    [v_gen] and from [(0, 1)] to [(a0, b0) - v_gen]; and [v_gen] with
    [(a0, b0)] is a basis of the lattice:
    [v_gen.x * b0 - v_gen.y * a0 = 1]. *)
Theorem adjustParams_lattice_basis (self : MOS.t) (a b mode : Z)
  (equave generator : R) (m : MOS.t) :
  MOS.adjustParams self a b mode equave generator = MOS.Done m ->
  calcPath (MOS.a0 m) (MOS.b0 m) = Some (MOS.path m) /\
  MOS.depth m = Z.of_nat (List.length (MOS.path m)) /\
  MOS.depth m <= MOS.n0 m - 2 /\
  applyPath (MOS.path m) (Vector2i.mk 1 1) = Vector2i.mk (MOS.a0 m) (MOS.b0 m) /\
  applyPath (MOS.path m) (Vector2i.mk 1 0) = MOS.v_gen m /\
  applyPath (MOS.path m) (Vector2i.mk 0 1)
  = Vector2i.sub (Vector2i.mk (MOS.a0 m) (MOS.b0 m)) (MOS.v_gen m) /\
  Vector2i.x (MOS.v_gen m) * MOS.b0 m - Vector2i.y (MOS.v_gen m) * MOS.a0 m = 1.
Proof.
  intros Hdone.
  pose proof (v_gen_det _ _ _ _ _ _ _ Hdone) as Hdet.
  destruct (adjustParams_Done_inv _ _ _ _ _ _ _ Hdone) as (Ha & Hb & Hg).
  destruct (adjustParams_valid self a b mode equave generator Ha Hb Hg)
    as (m' & Hdone' & F).
  rewrite Hdone in Hdone'. injection Hdone' as <-.
  destruct F as (_ & _ & _ & _ & Fa0 & Fb0 & Fn0 & _ & _ & _ & _ & Fpath & Fd
                 & Fv & _).
  destruct (reduced_coprime a b Ha Hb) as (_ & _ & H1 & H2 & Hco & _ & _).
  rewrite <- Fa0 in H1, Hco. rewrite <- Fb0 in H2, Hco.
  destruct (calcPath_terminates _ _ H1 H2 Hco) as (p & Hp & Hab).
  rewrite Fpath in Hp. injection Hp as <-.
  pose proof (fold_applyPath_grows (MOS.path m) 1 1 ltac:(lia) ltac:(lia)) as Hgrow.
  cbv zeta in Hgrow.
  change (fold_left applyPath_step (MOS.path m) (1, 1))
    with (fold_left applyPath_step (MOS.path m)
            (Vector2i.x (Vector2i.mk 1 1), Vector2i.y (Vector2i.mk 1 1)))
    in Hgrow.
  rewrite applyPath_fold, Hab in Hgrow.
  cbn [fst snd Vector2i.x Vector2i.y] in Hgrow.
  repeat split; try assumption; try (symmetry; assumption).
  - rewrite Fd, Fn0. lia.
  - pose proof (fold_applyPath_linear (MOS.path m) 1 (-1) (1, 1) (1, 0)) as Hl.
    cbn [fst snd] in Hl.
    change (1 * 1 + 1 * -1, 1 * 1 + 0 * -1) with (0, 1) in Hl.
    unfold applyPath at 1. cbn [Vector2i.x Vector2i.y]. rewrite Hl.
    change (fold_left applyPath_step (MOS.path m) (1, 1))
      with (fold_left applyPath_step (MOS.path m)
              (Vector2i.x (Vector2i.mk 1 1), Vector2i.y (Vector2i.mk 1 1))).
    change (fold_left applyPath_step (MOS.path m) (1, 0))
      with (fold_left applyPath_step (MOS.path m)
              (Vector2i.x (Vector2i.mk 1 0), Vector2i.y (Vector2i.mk 1 0))).
    rewrite !applyPath_fold, Hab, <- Fv.
    unfold Vector2i.sub. cbn [fst snd Vector2i.x Vector2i.y]. f_equal; ring.
Qed.

(** X8. The step counts of [scalatrix_mos_from_params] are those of one
    period: for coprime positive [a] and [b] and [repetitions >= 1] the
    MOS has [a0 = a], [b0 = b], [n0 = a + b], the path of [(a, b)], and
    [repetitions] periods, each [equave / repetitions] wide. *)
Theorem scalatrix_mos_from_params_periods (raw : MOS.t) (a b mode : Z)
  (equave generator : R) (repetitions : Z) :
  1 <= a -> 1 <= b -> Z.gcd a b = 1 -> 1 <= repetitions ->
  (0 <= generator <= 1)%R ->
  exists m,
    scalatrix_mos_from_params raw a b mode equave generator repetitions
      = MOS.Done m /\
    MOS.a m = a * repetitions /\ MOS.b m = b * repetitions /\
    MOS.n m = (a + b) * repetitions /\
    MOS.a0 m = a /\ MOS.b0 m = b /\ MOS.n0 m = a + b /\
    MOS.repetitions m = repetitions /\
    MOS.period m = (equave / IZR repetitions)%R /\
    calcPath a b = Some (MOS.path m).
Proof.
  intros Ha Hb Hco Hk Hg.
  assert (Hak : 0 < a * repetitions) by nia.
  assert (Hbk : 0 < b * repetitions) by nia.
  destruct (adjustParams_valid raw (a * repetitions) (b * repetitions) mode
              equave generator Hak Hbk Hg) as (m & Hdone & F).
  destruct F as (Fa & Fb & Fn & Fr & Fa0 & Fb0 & Fn0 & _ & _ & Fp & _ & Fpath & _).
  assert (Hgcd : gcd (a * repetitions) (b * repetitions) = repetitions).
  { rewrite gcd_Zgcd by lia.
    rewrite Z.gcd_mul_mono_r_nonneg by lia. rewrite Hco. lia. }
  rewrite Hgcd in *.
  rewrite Z.quot_mul in Fa0, Fb0 by lia.
  exists m. unfold scalatrix_mos_from_params, MOS.new.
  rewrite Fn0, Fn, Fa0, Fb0 in *.
  repeat split; try assumption. ring.
Qed.

End Basis.

Lemma adjustParams_lattice_basis_diatonic :
  calcPath (MOS.a0 diatonic) (MOS.b0 diatonic) = Some (MOS.path diatonic) /\
  MOS.depth diatonic = Z.of_nat (List.length (MOS.path diatonic)) /\
  MOS.depth diatonic <= MOS.n0 diatonic - 2 /\
  applyPath (MOS.path diatonic) (Vector2i.mk 1 1)
  = Vector2i.mk (MOS.a0 diatonic) (MOS.b0 diatonic) /\
  applyPath (MOS.path diatonic) (Vector2i.mk 1 0) = MOS.v_gen diatonic /\
  applyPath (MOS.path diatonic) (Vector2i.mk 0 1)
  = Vector2i.sub (Vector2i.mk (MOS.a0 diatonic) (MOS.b0 diatonic))
      (MOS.v_gen diatonic) /\
  Vector2i.x (MOS.v_gen diatonic) * MOS.b0 diatonic
  - Vector2i.y (MOS.v_gen diatonic) * MOS.a0 diatonic = 1.
Proof.
  apply (adjustParams_lattice_basis (E := example_externals) raw_MOS 5 2 1 1
           (585 / 1000) diatonic).
  apply example_MOS_done; [lia | lia | lra].
Defined.

Lemma scalatrix_mos_from_params_two_periods :
  exists m,
    scalatrix_mos_from_params (E := example_externals) raw_MOS 5 2 1 1
      (585 / 1000) 2 = MOS.Done m /\
    MOS.a m = 5 * 2 /\ MOS.b m = 2 * 2 /\ MOS.n m = (5 + 2) * 2 /\
    MOS.a0 m = 5 /\ MOS.b0 m = 2 /\ MOS.n0 m = 5 + 2 /\
    MOS.repetitions m = 2 /\
    MOS.period m = (1 / IZR 2)%R /\
    calcPath 5 2 = Some (MOS.path m).
Proof.
  apply (scalatrix_mos_from_params_periods (E := example_externals) raw_MOS
           5 2 1 1 (585 / 1000) 2); [lia | lia | reflexivity | lia | lra].
Defined.

(** ** fromG and adjustG *)

Lemma adjustG_loop_fold (iters : nat) :
  forall a0 b0 a_len b_len,
    MOS.adjustG_loop iters a0 b0 a_len b_len
    = fold_left applyPath_step (adjustG_tests iters a_len b_len) (a0, b0).
Proof.
  induction iters as [| iters IH]; intros a0 b0 a_len b_len;
    cbn [MOS.adjustG_loop adjustG_tests].
  - reflexivity.
  - destruct (Rltb b_len a_len); cbn [fold_left applyPath_step]; apply IH.
Qed.

Lemma length_adjustG_tests (iters : nat) :
  forall a_len b_len, List.length (adjustG_tests iters a_len b_len) = iters.
Proof.
  induction iters as [| iters IH]; intros a_len b_len; cbn [adjustG_tests].
  - reflexivity.
  - destruct (Rltb b_len a_len); cbn [List.length]; now rewrite IH.
Qed.

Section FromG.
Context {E : Externals}.

(** X9. For a generator in [[0, 1]] and [repetitions >= 1], [adjustG] (and
    [fromG], which runs the same loop) returns a MOS whose path has
    [depth] steps (none for a negative [depth]): step [i] of the path is
    the outcome of the test [a_len > b_len] in iteration [i] of the loop.
    Its [a0] and [b0] are the counts the loop ends with, they are coprime,
    and it has [repetitions] periods. *)
Theorem adjustG_path (self : MOS.t) (depth mode : Z) (g e : R)
  (repetitions : Z) :
  (0 <= g <= 1)%R -> 1 <= repetitions ->
  exists m,
    MOS.adjustG self depth mode g e repetitions = MOS.Done m /\
    MOS.fromG self depth mode g e repetitions = MOS.Done m /\
    MOS.path m = adjustG_tests (Z.to_nat depth) g (1 - g) /\
    MOS.depth m = Z.max 0 depth /\
    (MOS.a0 m, MOS.b0 m) = MOS.adjustG_loop (Z.to_nat depth) 1 1 g (1 - g) /\
    Z.gcd (MOS.a0 m) (MOS.b0 m) = 1 /\
    MOS.repetitions m = repetitions /\
    MOS.a m = MOS.a0 m * repetitions /\ MOS.b m = MOS.b0 m * repetitions /\
    MOS.generator m = g /\ MOS.equave m = e.
Proof.
  intros Hg Hk.
  unfold MOS.adjustG, MOS.fromG, MOS.new.
  rewrite adjustG_loop_fold.
  set (tests := adjustG_tests (Z.to_nat depth) g (1 - g)).
  pose proof (fold_applyPath_grows tests 1 1 ltac:(lia) ltac:(lia)) as Hgrow.
  pose proof (fold_applyPath_gcd tests 1 1) as Hco.
  pose proof (calcPath_applyPath tests) as Henc.
  pose proof (applyPath_fold tests (Vector2i.mk 1 1)) as Hfold.
  cbv zeta in Hgrow, Hco, Henc. cbn [Vector2i.x Vector2i.y] in Hfold.
  rewrite Hfold in *. cbn [fst snd] in *.
  set (a0 := Vector2i.x (applyPath tests (Vector2i.mk 1 1))) in *.
  set (b0 := Vector2i.y (applyPath tests (Vector2i.mk 1 1))) in *.
  destruct Hgrow as (Ha0 & Hb0 & _).
  change (Z.gcd 1 1) with 1 in Hco.
  assert (Hak : 0 < a0 * repetitions) by nia.
  assert (Hbk : 0 < b0 * repetitions) by nia.
  destruct (adjustParams_valid self (a0 * repetitions) (b0 * repetitions) mode
              e g Hak Hbk Hg) as (m & Hdone & F).
  destruct F as (Fa & Fb & _ & Fr & Fa0 & Fb0 & _ & _ & Fe & _ & Fg & Fpath & Fd & _).
  assert (Hgcd : gcd (a0 * repetitions) (b0 * repetitions) = repetitions).
  { rewrite gcd_Zgcd by lia.
    rewrite Z.gcd_mul_mono_r_nonneg by lia. rewrite Hco. lia. }
  rewrite Hgcd in *.
  rewrite Z.quot_mul in Fa0, Fb0 by lia.
  rewrite Fa0, Fb0 in Fpath. rewrite Henc in Fpath. injection Fpath as Fpath.
  exists m. rewrite Fa0, Fb0, Fa, Fb, Fd, <- Fpath.
  repeat split; try assumption; try reflexivity.
  subst tests. rewrite length_adjustG_tests. lia.
Qed.

End FromG.

(** The generator of the diatonic scale, [0.585], unfolded three times:
    the tests come out [true; false; false], the path of [(5, 2)]. *)
Lemma adjustG_path_diatonic :
  exists m,
    MOS.adjustG (E := example_externals) raw_MOS 3 1 (585 / 1000) 1 1
      = MOS.Done m /\
    MOS.fromG (E := example_externals) raw_MOS 3 1 (585 / 1000) 1 1
      = MOS.Done m /\
    MOS.path m = adjustG_tests (Z.to_nat 3) (585 / 1000) (1 - 585 / 1000) /\
    MOS.depth m = Z.max 0 3 /\
    (MOS.a0 m, MOS.b0 m)
    = MOS.adjustG_loop (Z.to_nat 3) 1 1 (585 / 1000) (1 - 585 / 1000) /\
    Z.gcd (MOS.a0 m) (MOS.b0 m) = 1 /\
    MOS.repetitions m = 1 /\
    MOS.a m = MOS.a0 m * 1 /\ MOS.b m = MOS.b0 m * 1 /\
    MOS.generator m = (585 / 1000)%R /\ MOS.equave m = 1%R.
Proof.
  apply (adjustG_path (E := example_externals) raw_MOS 3 1 (585 / 1000) 1 1);
    [lra | lia].
Defined.

Example adjustG_tests_diatonic :
  adjustG_tests 3 (585 / 1000) (1 - 585 / 1000) = [true; false; false].
Proof.
  cbn [adjustG_tests].
  replace (Rltb (1 - 585 / 1000) (585 / 1000)) with true
    by (symmetry; apply Rltb_true_iff; lra).
  replace (Rltb (1 - 585 / 1000) (585 / 1000 - (1 - 585 / 1000))) with false.
  2:{ symmetry. apply not_true_iff_false. rewrite Rltb_true_iff. lra. }
  replace (Rltb (1 - 585 / 1000 - (585 / 1000 - (1 - 585 / 1000)))
             (585 / 1000 - (1 - 585 / 1000))) with false.
  2:{ symmetry. apply not_true_iff_false. rewrite Rltb_true_iff. lra. }
  reflexivity.
Qed.

(** ** Retuning, continued *)



Lemma diatonic_structure :
  MOS.a diatonic = 5 /\ MOS.b diatonic = 2 /\ MOS.n diatonic = 7 /\
  MOS.mode diatonic = 1 /\ MOS.repetitions diatonic = 1 /\
  MOS.a0 diatonic = 5 /\ MOS.b0 diatonic = 2 /\ MOS.n0 diatonic = 7.
Proof.
  destruct (example_MOS_fields 5 2 1 1 (585 / 1000)) as
    (Fa & Fb & Fn & Fm & Fr & Fa0 & Fb0 & Fn0 & _); [lia | lia | lra |].
  fold diatonic in Fa, Fb, Fn, Fm, Fr, Fa0, Fb0, Fn0.
  repeat split; assumption.
Qed.


(** X11. [retuneOnePoint] is a translation of the tuning.  When the period
    vector has a width other than zero under the implied transform, both
    [retuneZeroPoint] and [retuneOnePoint] return: the equave, the period,
    the generator, the choice of the large and the small step and the
    chroma are those [retuneZeroPoint] computes from the transform as it
    was; [L_fr] and [s_fr], which [updateVectors] reads off the images of
    [(1,0)] and [(0,1)], both move by the shift.  When the width is zero,
    neither call is defined. *)
Theorem retuneOnePoint_intervals (m : MOS.t) (v : Vector2i.t) (log2fr : R) :
  let shift :=
    (log2fr - Vector2d.x (AffineTransform.applyi (MOS.impliedAffine m) v))%R in
  (period_under m (MOS.impliedAffine m) <> 0%R ->
   exists m0 m1,
     MOS.retuneZeroPoint m = Some m0 /\
     MOS.retuneOnePoint m v log2fr = Some m1 /\
     MOS.equave m1 = MOS.equave m0 /\
     MOS.period m1 = MOS.period m0 /\
     MOS.generator m1 = MOS.generator m0 /\
     MOS.L_vec m1 = MOS.L_vec m0 /\ MOS.s_vec m1 = MOS.s_vec m0 /\
     MOS.chroma_vec m1 = MOS.chroma_vec m0 /\
     MOS.nL m1 = MOS.nL m0 /\ MOS.nS m1 = MOS.nS m0 /\
     MOS.chroma_fr m1 = MOS.chroma_fr m0 /\
     MOS.L_fr m1 = (MOS.L_fr m0 + shift)%R /\
     MOS.s_fr m1 = (MOS.s_fr m0 + shift)%R) /\
  (period_under m (MOS.impliedAffine m) = 0%R ->
   MOS.retuneZeroPoint m = None /\ MOS.retuneOnePoint m v log2fr = None).
Proof.
  intros shift. split.
  2:{ intros Hp. split; [apply recalcOnRetune_undefined; exact Hp |].
      apply retuneOnePoint_undefined. exact Hp. }
  intros Hp. rewrite retuneOnePoint_defined by exact Hp.
  unfold MOS.retuneZeroPoint. rewrite recalcOnRetune_defined by exact Hp.
  do 2 eexists. split; [reflexivity |]. split; [reflexivity |].
  unfold one_point_transform. fold shift.
  set (A := MOS.impliedAffine m).
  unfold retuned_MOS, period_under, MOS.updateVectors.
  cbn [MOS.set_tuning MOS.set_impliedAffine MOS.set_base_scale
       MOS.a MOS.b MOS.a0 MOS.b0 MOS.v_gen MOS.impliedAffine].
  unfold AffineTransform.applyi, AffineTransform.apply, Vector2d.ofVector2i,
    AffineTransform.set_tx.
  cbn [Vector2i.x Vector2i.y Vector2d.x Vector2d.y
       AffineTransform.a AffineTransform.b AffineTransform.c AffineTransform.d
       AffineTransform.tx AffineTransform.ty].
  set (w1 := (AffineTransform.a A * 1 + AffineTransform.b A * 0)%R).
  set (w2 := (AffineTransform.a A * 0 + AffineTransform.b A * 1)%R).
  assert (Hcmp : Rltb (w2 + (AffineTransform.tx A + shift))
                   (w1 + (AffineTransform.tx A + shift))
                 = Rltb (w2 + AffineTransform.tx A) (w1 + AffineTransform.tx A)).
  { destruct (Rltb (w2 + AffineTransform.tx A) (w1 + AffineTransform.tx A)) eqn:H.
    - apply Rltb_true_iff in H. apply Rltb_true_iff. lra.
    - apply not_true_iff_false. apply not_true_iff_false in H.
      rewrite Rltb_true_iff in *. lra. }
  rewrite Hcmp.
  destruct (Rltb (w2 + AffineTransform.tx A) (w1 + AffineTransform.tx A));
    cbn [MOS.set_tuning MOS.set_impliedAffine MOS.set_base_scale
         MOS.a MOS.b MOS.a0 MOS.b0
         MOS.equave MOS.period MOS.generator MOS.L_vec MOS.s_vec
         MOS.chroma_vec MOS.nL MOS.nS MOS.chroma_fr MOS.L_fr MOS.s_fr];
    repeat split; try reflexivity; try ring; f_equal; ring.
Qed.

(** The diatonic MOS moved so that its origin sounds a fifth higher. *)
Lemma retuneOnePoint_intervals_diatonic :
  let shift :=
    (7 / 12
     - Vector2d.x (AffineTransform.applyi (MOS.impliedAffine diatonic)
                     (Vector2i.mk 0 0)))%R in
  exists m0 m1,
    MOS.retuneZeroPoint diatonic = Some m0 /\
    MOS.retuneOnePoint diatonic (Vector2i.mk 0 0) (7 / 12) = Some m1 /\
    MOS.equave m1 = MOS.equave m0 /\
    MOS.period m1 = MOS.period m0 /\
    MOS.generator m1 = MOS.generator m0 /\
    MOS.L_vec m1 = MOS.L_vec m0 /\ MOS.s_vec m1 = MOS.s_vec m0 /\
    MOS.chroma_vec m1 = MOS.chroma_vec m0 /\
    MOS.nL m1 = MOS.nL m0 /\ MOS.nS m1 = MOS.nS m0 /\
    MOS.chroma_fr m1 = MOS.chroma_fr m0 /\
    MOS.L_fr m1 = (MOS.L_fr m0 + shift)%R /\
    MOS.s_fr m1 = (MOS.s_fr m0 + shift)%R.
Proof.
  apply (proj1 (retuneOnePoint_intervals diatonic (Vector2i.mk 0 0) (7 / 12))).
  rewrite diatonic_period_under. lra.
Defined.






(** ** Scales generated and retuned from a MOS *)

Lemma load_middle (i : Z) (pre : list Node.t) (g : Node.t) (post : list Node.t) :
  i = Z.of_nat (List.length pre) -> load i (pre ++ g :: post) = g.
Proof.
  intros ->. unfold load.
  destruct (Z.ltb_spec (Z.of_nat (List.length pre)) 0); [lia |].
  rewrite Nat2Z.id, app_nth2 by lia. now rewrite Nat.sub_diag.
Qed.

Lemma length_map_from f i l : List.length (map_from f i l) = List.length l.
Proof. revert i; induction l; intros; cbn; auto. Qed.


(** The loop of [generateScaleFromMOS] rewrites the slots it visits, each
    from its counter and its old content. *)
Lemma generateScaleFromMOS_loop_writes (self : MOS.t) (base_freq : R)
  (root : Z) (iters : nat) :
  forall i pre gap post,
    i + root = Z.of_nat (List.length pre) -> List.length gap = iters ->
    MOS.generateScaleFromMOS_loop self base_freq root iters i
      (pre ++ gap ++ post)
    = pre ++ map_from (MOS.generated_node self base_freq) i gap ++ post.
Proof.
  induction iters as [| iters IH]; intros i pre gap post Hi Hlen.
  - destruct gap; [reflexivity | discriminate].
  - destruct gap as [| g gap]; [discriminate |].
    cbn [MOS.generateScaleFromMOS_loop map_from app].
    rewrite (load_middle _ pre g) by exact Hi.
    rewrite (store_middle _ pre g) by exact Hi.
    change (pre ++ ?x :: gap ++ post) with (pre ++ [x] ++ gap ++ post).
    rewrite app_assoc, IH.
    + rewrite <- app_assoc. reflexivity.
    + rewrite length_app. cbn. lia.
    + cbn in Hlen. lia.
Qed.

Lemma retuneScaleWithMOS_loop_writes (self : MOS.t) (base_freq : R)
  (root_idx : Z) (iters : nat) :
  forall i pre gap post,
    i = Z.of_nat (List.length pre) -> List.length gap = iters ->
    MOS.retuneScaleWithMOS_loop self base_freq root_idx iters i
      (pre ++ gap ++ post)
    = pre ++ map_from (MOS.retuned_node self base_freq root_idx) i gap ++ post.
Proof.
  induction iters as [| iters IH]; intros i pre gap post Hi Hlen.
  - destruct gap; [reflexivity | discriminate].
  - destruct gap as [| g gap]; [discriminate |].
    cbn [MOS.retuneScaleWithMOS_loop map_from app].
    rewrite (load_middle _ pre g) by exact Hi.
    rewrite (store_middle _ pre g) by exact Hi.
    change (pre ++ ?x :: gap ++ post) with (pre ++ [x] ++ gap ++ post).
    rewrite app_assoc, IH.
    + rewrite <- app_assoc. reflexivity.
    + rewrite length_app. cbn. lia.
    + cbn in Hlen. lia.
Qed.

(** [generateScaleFromMOS] throws for a negative number of nodes, in the
    constructor of the scale, and otherwise returns the nodes its loop
    writes with the base frequency and the root index it was given. *)
Lemma generateScaleFromMOS_nodes_ (m : MOS.t) (base_freq : R) (n_nodes root : Z) :
  0 <= n_nodes ->
  MOS.generateScaleFromMOS m base_freq n_nodes root
  = Some (Scale.mk
            (map_from (MOS.generated_node m base_freq) (- root)
               (repeat Node.default (Z.to_nat n_nodes)))
            base_freq root).
Proof.
  intros HN.
  unfold MOS.generateScaleFromMOS, Scale.new, Scale.initNodes.
  destruct (Z.ltb_spec n_nodes 0); [lia |].
  unfold Scale.getNodes, Scale.getBaseFreq, Scale.getRootIdx.
  cbn [Scale.nodes_ Scale.base_freq_ Scale.root_idx_]. do 2 f_equal.
  pose proof (generateScaleFromMOS_loop_writes m base_freq root
                (Z.to_nat n_nodes) (- root) []
                (repeat Node.default (Z.to_nat n_nodes)) []) as Hloop.
  cbn [app] in Hloop. rewrite !app_nil_r in Hloop. apply Hloop.
  - cbn. lia.
  - apply repeat_length.
Qed.

Lemma generateScaleFromMOS_throws (m : MOS.t) (base_freq : R)
  (n_nodes root : Z) :
  n_nodes < 0 -> MOS.generateScaleFromMOS m base_freq n_nodes root = None.
Proof.
  intros HN.
  unfold MOS.generateScaleFromMOS, Scale.new, Scale.initNodes.
  destruct (Z.ltb_spec n_nodes 0); [reflexivity | lia].
Qed.

Lemma retuneScaleWithMOS_nodes_ (m : MOS.t) (scale : Scale.t) (base_freq : R) :
  Scale.getNodes (MOS.retuneScaleWithMOS m scale base_freq)
  = map_from (MOS.retuned_node m base_freq (Scale.getRootIdx scale)) 0
      (Scale.getNodes scale).
Proof.
  unfold MOS.retuneScaleWithMOS. unfold Scale.getNodes at 1. cbn [Scale.nodes_].
  pose proof (retuneScaleWithMOS_loop_writes m base_freq
                (Scale.getRootIdx scale)
                (List.length (Scale.getNodes scale)) 0 []
                (Scale.getNodes scale) []) as H.
  cbn [app] in H. rewrite !app_nil_r in H. apply H; reflexivity.
Qed.







Lemma retuned_generated (m : MOS.t) (base_freq : R) (root i : Z) (x : Node.t) :
  MOS.retuned_node m base_freq root i
    (MOS.generated_node m base_freq (i - root) x)
  = MOS.generated_node m base_freq (i - root) x.
Proof. reflexivity. Qed.

Lemma map_from_retuned_generated (m : MOS.t) (base_freq : R) (root : Z)
  (l : list Node.t) :
  forall i,
    map_from (MOS.retuned_node m base_freq root) i
      (map_from (MOS.generated_node m base_freq) (i - root) l)
    = map_from (MOS.generated_node m base_freq) (i - root) l.
Proof.
  induction l as [| x l IH]; intros i; cbn [map_from]; [reflexivity |].
  rewrite retuned_generated. f_equal.
  replace (i - root + 1) with (i + 1 - root) by ring. apply IH.
Qed.

Lemma map_from_natural (m : MOS.t) (base_freq : R) (root : Z)
  (l : list Node.t) :
  forall i,
    map Node.natural_coord (map_from (MOS.retuned_node m base_freq root) i l)
    = map Node.natural_coord l.
Proof.
  induction l as [| x l IH]; intros i; cbn [map_from map]; [reflexivity |].
  now rewrite IH.
Qed.

(** The base scale of a MOS that [adjustParams] returned has [n + 1]
    nodes. *)
Lemma diatonic_base_scale_length :
  List.length (Scale.getNodes (MOS.base_scale diatonic)) = 8%nat.
Proof.
  destruct (example_MOS_fields 5 2 1 1 (585 / 1000)) as
    (_ & _ & _ & _ & _ & _ & _ & _ & Fs); [lia | lia | lra |].
  fold diatonic in Fs. unfold Scale.getNodes.
  rewrite (fromAffine_Some_inv (E := example_externals) _ 1 (5 + 2 + 1) 0 _
             ltac:(lia) Fs).
  rewrite (length_fromAffine_nodes (E := example_externals)) by lia.
  reflexivity.
Qed.

(** X16. Let the MOS have [n > 0] and a base scale of at least [n] nodes.
    [retuneScaleWithMOS] keeps the length of a scale whose root index is at
    most [128 * n], its root index, its [base_freq_] member and the
    [natural_coord] of every node; and for [n_nodes >= 0] and
    [root <= 128 * n] it leaves the scale that [generateScaleFromMOS]
    returns for the same MOS, with the same base frequency, exactly as it
    is. *)
Theorem retuneScaleWithMOS_generated (m : MOS.t) (scale : Scale.t)
  (base_freq : R) (n_nodes root : Z) :
  0 < MOS.n m ->
  MOS.n m <= Z.of_nat (List.length (Scale.getNodes (MOS.base_scale m))) ->
  Scale.getRootIdx scale <= 128 * MOS.n m ->
  0 <= n_nodes -> root <= 128 * MOS.n m ->
  (let scale' := MOS.retuneScaleWithMOS m scale base_freq in
   List.length (Scale.getNodes scale') = List.length (Scale.getNodes scale) /\
   Scale.getRootIdx scale' = Scale.getRootIdx scale /\
   Scale.getBaseFreq scale' = Scale.getBaseFreq scale /\
   map Node.natural_coord (Scale.getNodes scale')
   = map Node.natural_coord (Scale.getNodes scale)) /\
  exists generated,
    MOS.generateScaleFromMOS m base_freq n_nodes root = Some generated /\
    MOS.retuneScaleWithMOS m generated base_freq = generated.
Proof.
  intros _ _ _ HN _. split.
  - cbv zeta. rewrite retuneScaleWithMOS_nodes_.
    rewrite length_map_from, map_from_natural. repeat split.
  - eexists. split; [apply generateScaleFromMOS_nodes_; exact HN |].
    set (G := Scale.mk _ base_freq root).
    transitivity
      (Scale.mk (Scale.getNodes (MOS.retuneScaleWithMOS m G base_freq))
         base_freq root); [reflexivity |].
    rewrite retuneScaleWithMOS_nodes_.
    change (Scale.getRootIdx G) with root.
    unfold G at 2. f_equal.
    unfold G, Scale.getNodes. cbn [Scale.nodes_].
    replace (- root) with (0 - root) by ring.
    apply map_from_retuned_generated.
Qed.

(** The base scale of the diatonic MOS retuned with the MOS itself, and the
    scale of fifteen nodes around the root that the MOS generates. *)
Lemma retuneScaleWithMOS_generated_diatonic :
  (let scale' :=
     MOS.retuneScaleWithMOS diatonic (MOS.base_scale diatonic) 440 in
   List.length (Scale.getNodes scale')
   = List.length (Scale.getNodes (MOS.base_scale diatonic)) /\
   Scale.getRootIdx scale' = Scale.getRootIdx (MOS.base_scale diatonic) /\
   Scale.getBaseFreq scale' = Scale.getBaseFreq (MOS.base_scale diatonic) /\
   map Node.natural_coord (Scale.getNodes scale')
   = map Node.natural_coord (Scale.getNodes (MOS.base_scale diatonic))) /\
  exists generated,
    MOS.generateScaleFromMOS diatonic 440 15 7 = Some generated /\
    MOS.retuneScaleWithMOS diatonic generated 440 = generated.
Proof.
  destruct diatonic_structure as (_ & _ & Fn & _).
  destruct (example_MOS_fields 5 2 1 1 (585 / 1000)) as
    (_ & _ & _ & _ & _ & _ & _ & _ & Fs); [lia | lia | lra |].
  fold diatonic in Fs.
  assert (Hroot : Scale.getRootIdx (MOS.base_scale diatonic) = 0).
  { rewrite (fromAffine_nodes (E := example_externals)) in Fs by lia.
    injection Fs as <-. reflexivity. }
  apply (retuneScaleWithMOS_generated diatonic (MOS.base_scale diatonic) 440
           15 7).
  - rewrite Fn. lia.
  - rewrite Fn, diatonic_base_scale_length. lia.
  - rewrite Hroot, Fn. lia.
  - lia.
  - rewrite Fn. lia.
Defined.

(** ** Tempering a scale to a pitch set *)

Lemma closest_in_spec (pitchset : list PitchSetPitch.t) (x : R) :
  forall min_dist cl0 c0,
    let dist (p : PitchSetPitch.t) := Rabs (PitchSetPitch.log2fr p - x) in
    let res := Scale.closest_in pitchset x min_dist cl0 c0 in
    (Forall (fun p => (min_dist <= dist p)%R) pitchset /\ res = (cl0, c0))
    \/
    (exists before after,
       pitchset = before ++ snd res :: after /\
       fst res = PitchSetPitch.log2fr (snd res) /\
       (dist (snd res) < min_dist)%R /\
       Forall (fun p => (dist (snd res) < dist p)%R) before /\
       Forall (fun p => (dist (snd res) <= dist p)%R) after).
Proof.
  induction pitchset as [| p ps IH]; intros min_dist cl0 c0 dist res;
    subst dist res; cbv beta zeta.
  - left. split; [constructor | reflexivity].
  - cbn [Scale.closest_in].
    destruct (Rltb (Rabs (PitchSetPitch.log2fr p - x)) min_dist) eqn:Hlt.
    + apply Rltb_true_iff in Hlt.
      destruct (IH (Rabs (PitchSetPitch.log2fr p - x))
                  (PitchSetPitch.log2fr p) p) as [[Hall Hres] | Hex].
      * right. rewrite Hres. cbn [fst snd].
        exists [], ps.
        split; [reflexivity |]. split; [reflexivity |]. split; [exact Hlt |].
        split; [constructor | exact Hall].
      * right. destruct Hex as (before & after & Hps & Hfst & Hd & Hb & Ha).
        exists (p :: before), after.
        split; [cbn [app]; f_equal; exact Hps |].
        split; [exact Hfst |]. split; [lra |].
        split; [constructor; [exact Hd | exact Hb] | exact Ha].
    + assert (Hge : (min_dist <= Rabs (PitchSetPitch.log2fr p - x))%R).
      { destruct (Rle_lt_dec min_dist (Rabs (PitchSetPitch.log2fr p - x)))
          as [| H]; [assumption |].
        apply Rltb_true_iff in H. congruence. }
      destruct (IH min_dist cl0 c0) as [[Hall Hres] | Hex].
      * left. split; [constructor; assumption | exact Hres].
      * right. destruct Hex as (before & after & Hps & Hfst & Hd & Hb & Ha).
        exists (p :: before), after.
        split; [cbn [app]; f_equal; exact Hps |].
        split; [exact Hfst |]. split; [exact Hd |].
        split; [constructor; [lra | exact Hb] | exact Ha].
Qed.

Lemma log2_exp2 (x : R) : log2 (exp2 x) = x.
Proof.
  unfold log2, exp2, Rpower. rewrite ln_exp.
  assert (0 < ln 2)%R by (rewrite <- ln_1; apply ln_increasing; lra).
  field. lra.
Qed.

Lemma exp2_pos (x : R) : (0 < exp2 x)%R.
Proof. unfold exp2, Rpower. apply exp_pos. Qed.

(** X17. [temperToPitchSet] moves every node to the pitch of the set that is
    nearest to it.  For a scale with a positive base frequency whose nodes
    have [pitch = base_freq * 2^tuning_coord.x]: each node keeps its
    [natural_coord] and [tuning_coord], becomes tempered, and gets the same
    pitch of the set as [temperedPitch] and [closestPitch]: the first one
    of the set at the smallest distance from [tuning_coord.x], with
    [pitch = base_freq * 2^log2fr] of it.  A node that no pitch of the set
    comes nearer than [1e6] to gets [pitch = base_freq]. *)
Theorem temperToPitchSet_nearest (s : Scale.t)
  (pitchset : list PitchSetPitch.t) :
  (0 < Scale.getBaseFreq s)%R ->
  Forall (pitch_consistent (Scale.getBaseFreq s)) (Scale.getNodes s) ->
  let s' := Scale.temperToPitchSet s pitchset in
  Scale.getBaseFreq s' = Scale.getBaseFreq s /\
  Scale.getRootIdx s' = Scale.getRootIdx s /\
  Forall2
    (fun nd nd' =>
       let dist (p : PitchSetPitch.t) :=
         Rabs (PitchSetPitch.log2fr p - node_x nd) in
       Node.natural_coord nd' = Node.natural_coord nd /\
       Node.tuning_coord nd' = Node.tuning_coord nd /\
       Node.isTempered nd' = true /\
       Node.closestPitch nd' = Node.temperedPitch nd' /\
       ((exists before after,
           pitchset = before ++ Node.temperedPitch nd' :: after /\
           (dist (Node.temperedPitch nd') < 1000000)%R /\
           Forall (fun p => (dist (Node.temperedPitch nd') < dist p)%R) before /\
           Forall (fun p => (dist (Node.temperedPitch nd') <= dist p)%R) after /\
           Node.pitch nd'
           = (Scale.getBaseFreq s
              * exp2 (PitchSetPitch.log2fr (Node.temperedPitch nd')))%R)
        \/
        (Forall (fun p => (1000000 <= dist p)%R) pitchset /\
         Node.pitch nd' = Scale.getBaseFreq s)))
    (Scale.getNodes s) (Scale.getNodes s').
Proof.
  intros Hbase Hcons s'. subst s'.
  unfold Scale.temperToPitchSet, Scale.getBaseFreq, Scale.getRootIdx,
    Scale.getNodes in *.
  cbn [Scale.nodes_ Scale.base_freq_ Scale.root_idx_].
  split; [reflexivity |]. split; [reflexivity |].
  induction Hcons as [| nd nodes Hnd Hrest IH]; cbn [map]; constructor;
    [| exact IH].
  assert (Hx : log2 (Node.pitch nd / Scale.base_freq_ s) = node_x nd).
  { unfold pitch_consistent in Hnd. rewrite Hnd.
    replace (Scale.base_freq_ s * exp2 (node_x nd) / Scale.base_freq_ s)%R
      with (exp2 (node_x nd)) by (field; lra).
    apply log2_exp2. }
  rewrite Hx.
  pose proof (closest_in_spec pitchset (node_x nd) 1000000 0
                PitchSetPitch.default) as Hspec.
  cbv zeta in Hspec.
  destruct (Scale.closest_in pitchset (node_x nd) 1000000 0
              PitchSetPitch.default) as [cl c].
  cbn [fst snd] in Hspec.
  cbn [Node.natural_coord Node.tuning_coord Node.isTempered
       Node.closestPitch Node.temperedPitch Node.pitch].
  repeat split.
  destruct Hspec as [[Hall Hres] | (before & after & Hps & Hfst & Hd & Hb & Ha)].
  - right. injection Hres as -> ->. split; [exact Hall |].
    rewrite exp2_0. ring.
  - left. exists before, after. rewrite Hfst. repeat split; assumption.
Qed.

(** The three-node scale through [diagonal_strip], tempered to the two
    pitches 0 and 1. *)
Lemma temperToPitchSet_nearest_diagonal :
  exists s,
    Scale.fromAffine (E := example_externals) diagonal_strip 1 3 1 = Some s /\
    let pitchset := [PitchSetPitch.mk "1:1" 0; PitchSetPitch.mk "2:1" 1] in
    let s' := Scale.temperToPitchSet s pitchset in
    Scale.getBaseFreq s' = Scale.getBaseFreq s /\
    Scale.getRootIdx s' = Scale.getRootIdx s /\
    Forall2
      (fun nd nd' =>
         let dist (p : PitchSetPitch.t) :=
           Rabs (PitchSetPitch.log2fr p - node_x nd) in
         Node.natural_coord nd' = Node.natural_coord nd /\
         Node.tuning_coord nd' = Node.tuning_coord nd /\
         Node.isTempered nd' = true /\
         Node.closestPitch nd' = Node.temperedPitch nd' /\
         ((exists before after,
             pitchset = before ++ Node.temperedPitch nd' :: after /\
             (dist (Node.temperedPitch nd') < 1000000)%R /\
             Forall (fun p => (dist (Node.temperedPitch nd') < dist p)%R)
               before /\
             Forall (fun p => (dist (Node.temperedPitch nd') <= dist p)%R)
               after /\
             Node.pitch nd'
             = (Scale.getBaseFreq s
                * exp2 (PitchSetPitch.log2fr (Node.temperedPitch nd')))%R)
          \/
          (Forall (fun p => (1000000 <= dist p)%R) pitchset /\
           Node.pitch nd' = Scale.getBaseFreq s)))
      (Scale.getNodes s) (Scale.getNodes s').
Proof.
  eexists.
  split; [apply (fromAffine_nodes (E := example_externals)); lia |].
  intros pitchset.
  match goal with
  | |- let s' := Scale.temperToPitchSet ?s _ in _ =>
      apply (temperToPitchSet_nearest s pitchset)
  end.
  - cbn. lra.
  - unfold Scale.getBaseFreq, Scale.getNodes.
    cbn [Scale.nodes_ Scale.base_freq_].
    apply Forall_app. split.
    + apply Forall_rev. apply trail_Forall_step.
      intros nd. apply backward_step_pitch.
    + constructor.
      * unfold pitch_consistent, node_x, root_node, diagonal_strip,
          AffineTransform.applyi, AffineTransform.apply. cbn.
        replace (1 * 0 + 1 * 0 + 0)%R with 0%R by ring.
        rewrite exp2_0. ring.
      * apply trail_Forall_step. intros nd. apply forward_step_pitch.
Defined.

(** Tempering to an empty pitch set is not refused: every node becomes
    tempered with [pitch = base_freq], whatever its pitch was. *)
Theorem temperToPitchSet_empty (s : Scale.t) :
  Forall (fun nd => Node.isTempered nd = true
                    /\ Node.pitch nd = Scale.getBaseFreq s)
    (Scale.getNodes (Scale.temperToPitchSet s [])) /\
  map Node.natural_coord (Scale.getNodes (Scale.temperToPitchSet s []))
  = map Node.natural_coord (Scale.getNodes s).
Proof.
  unfold Scale.temperToPitchSet, Scale.getNodes, Scale.getBaseFreq.
  cbn [Scale.nodes_ Scale.closest_in]. split.
  - apply Forall_map. apply Forall_forall. intros nd _.
    cbn [Node.isTempered Node.pitch]. split; [reflexivity |].
    rewrite exp2_0. ring.
  - rewrite map_map. apply map_ext. reflexivity.
Qed.

(** ** Retuning a scale *)

(** [retuneWithAffine] forgets the transform a scale had: retuning with
    [A] and then with [B] gives what retuning with [B] gives; in
    particular it is idempotent. *)
Theorem retuneWithAffine_last_wins (s : Scale.t) (A B : AffineTransform.t) :
  Scale.retuneWithAffine (Scale.retuneWithAffine s A) B
  = Scale.retuneWithAffine s B /\
  Scale.retuneWithAffine (Scale.retuneWithAffine s A) A
  = Scale.retuneWithAffine s A.
Proof.
  unfold Scale.retuneWithAffine.
  cbn [Scale.nodes_ Scale.base_freq_ Scale.root_idx_].
  split; f_equal; rewrite map_map; apply map_ext; intros nd; reflexivity.
Qed.

Section FromAffineStructure.
Context {E : Externals}.

Lemma retuneWithAffine_fresh (A : AffineTransform.t) (base_freq : R)
  (nodes : list Node.t) :
  Forall (fresh A base_freq) nodes ->
  map (fun node =>
         let tuning := AffineTransform.applyi A (Node.natural_coord node) in
         Node.mk (Node.natural_coord node) tuning
           (base_freq * exp2 (Vector2d.x tuning))
           false (Node.temperedPitch node) (Node.closestPitch node)) nodes
  = nodes.
Proof.
  induction 1 as [| nd nodes (Ht & Hp & Hi) _ IH]; cbn [map]; [reflexivity |].
  cbv zeta in IH |- *. rewrite IH. f_equal.
  destruct nd as [nat_ tun pitch temp tp cp].
  unfold tuned, pitch_consistent, node_x in *. cbn in *. subst. reflexivity.
Qed.

(** X18. A scale that [fromAffine] generated from a transform with
    [A(0,0).x = 0] is left as it is by [retuneWithAffine] with the same
    transform. *)
Theorem retuneWithAffine_fromAffine (A : AffineTransform.t) (base_freq : R)
  (N root_idx : Z) :
  AffineTransform.tx A = 0%R -> 0 <= root_idx < N ->
  exists scale,
    Scale.fromAffine A base_freq N root_idx = Some scale /\
    Scale.retuneWithAffine scale A = scale.
Proof.
  intros Htx Hroot.
  eexists. split; [apply fromAffine_nodes; exact Hroot |].
  unfold Scale.retuneWithAffine.
  cbn [Scale.nodes_ Scale.base_freq_ Scale.root_idx_]. f_equal.
  apply retuneWithAffine_fresh.
  assert (Hrootnode : fresh A base_freq (root_node A base_freq)).
  { split; [reflexivity |]. split; [| reflexivity].
    unfold pitch_consistent, node_x, root_node, AffineTransform.applyi,
      AffineTransform.apply. cbn. rewrite Htx.
    replace (AffineTransform.a A * 0 + AffineTransform.b A * 0 + 0)%R
      with 0%R by ring.
    rewrite exp2_0. ring. }
  apply Forall_app. split.
  - apply Forall_rev. apply (trail_Forall (fresh A base_freq));
      [| exact Hrootnode].
    intros nd (_ & _ & Hi). repeat split. exact Hi.
  - constructor; [exact Hrootnode |].
    apply (trail_Forall (fresh A base_freq)); [| exact Hrootnode].
    intros nd (_ & _ & Hi). repeat split. exact Hi.
Qed.

End FromAffineStructure.

Lemma retuneWithAffine_fromAffine_diagonal :
  exists scale,
    Scale.fromAffine (E := example_externals) diagonal_strip 1 3 1
    = Some scale /\
    Scale.retuneWithAffine scale diagonal_strip = scale.
Proof.
  apply (retuneWithAffine_fromAffine (E := example_externals) diagonal_strip
           1 3 1); [reflexivity | lia].
Defined.

(** ** A generated scale as a lattice path *)

Lemma trail_chain (R : Node.t -> Node.t -> Prop) (step : Node.t -> Node.t) :
  (forall nd, R nd (step nd)) ->
  forall k last, Sorted R (last :: trail step k last).
Proof.
  intros Hstep k. induction k as [| k IH]; intros last; cbn [trail].
  - repeat constructor.
  - constructor; [apply IH |]. constructor. apply Hstep.
Qed.

Lemma Sorted_rev_app {T : Type} (R : T -> T -> Prop) (l : list T) :
  forall x rest,
    Sorted (fun u v => R v u) (x :: l) -> Sorted R (x :: rest) ->
    Sorted R (rev l ++ x :: rest).
Proof.
  induction l as [| y l IH]; intros x rest Hl Hrest; cbn [rev app].
  - exact Hrest.
  - rewrite <- app_assoc. cbn [app].
    apply Sorted_inv in Hl. destruct Hl as [Hl Hhd].
    apply HdRel_inv in Hhd.
    apply IH; [exact Hl |].
    constructor; [exact Hrest |]. constructor. exact Hhd.
Qed.

Lemma vector_add_sub (u d : Vector2i.t) :
  Vector2i.sub (Vector2i.add u d) u = d.
Proof.
  destruct u, d. unfold Vector2i.sub, Vector2i.add. cbn. f_equal; ring.
Qed.

Lemma vector_sub_sub (u d : Vector2i.t) :
  Vector2i.sub u (Vector2i.sub u d) = d.
Proof.
  destruct u, d. unfold Vector2i.sub. cbn. f_equal; ring.
Qed.

Section LatticePath.
Context {E : Externals}.

(** X19. Whatever steps [findClosestWithinStrip] returns and whatever the
    transform is, the scale [fromAffine(A, base_freq, N, root_idx)] with
    [0 <= root_idx < N] is a path on the lattice: from each node to the
    next the [natural_coord] grows by [r], by [s] or by [r + s]; every
    [tuning_coord] is the image of the [natural_coord]; no node is
    tempered; and the members [base_freq_] and [root_idx_] are the
    arguments. *)
Theorem fromAffine_lattice_path (A : AffineTransform.t) (base_freq : R)
  (N root_idx : Z) :
  0 <= root_idx < N ->
  let rs := findClosestWithinStrip (linear_part A) in
  exists scale,
    Scale.fromAffine A base_freq N root_idx = Some scale /\
    Sorted (lattice_step (fst rs) (snd rs)) (Scale.getNodes scale) /\
    Forall (fun nd => tuned A nd /\ Node.isTempered nd = false)
      (Scale.getNodes scale) /\
    Scale.getBaseFreq scale = base_freq /\
    Scale.getRootIdx scale = root_idx.
Proof.
  intros Hroot rs.
  eexists. split; [apply fromAffine_nodes; exact Hroot |].
  unfold Scale.getNodes, Scale.getBaseFreq, Scale.getRootIdx.
  cbn [Scale.nodes_ Scale.base_freq_ Scale.root_idx_].
  fold rs.
  destruct rs as [r s]. cbn [fst snd].
  set (fwd := Scale.forward_step A base_freq r s _ _).
  set (bwd := Scale.backward_step A base_freq r s _ _).
  assert (Hfwd : forall nd, lattice_step r s nd (fwd nd)).
  { intros nd. unfold lattice_step, fwd, Scale.forward_step, Scale.retuned.
    cbn [Node.natural_coord].
    destruct (in_strip _); [| destruct (in_strip _)];
      rewrite vector_add_sub; auto. }
  assert (Hbwd : forall nd, lattice_step r s (bwd nd) nd).
  { intros nd. unfold lattice_step, bwd, Scale.backward_step, Scale.retuned.
    cbn [Node.natural_coord].
    destruct (in_strip _); [| destruct (in_strip _)];
      rewrite vector_sub_sub; auto. }
  repeat split.
  - apply Sorted_rev_app.
    + apply (trail_chain (fun u v => lattice_step r s v u)). exact Hbwd.
    + apply trail_chain. exact Hfwd.
  - assert (Hrootnode : tuned A (root_node A base_freq)
                         /\ Node.isTempered (root_node A base_freq) = false)
      by (split; reflexivity).
    apply Forall_app. split.
    + apply Forall_rev.
      apply (trail_Forall (fun nd => tuned A nd /\ Node.isTempered nd = false));
        [| exact Hrootnode].
      intros nd [_ Hi]. split; [reflexivity | exact Hi].
    + constructor; [exact Hrootnode |].
      apply (trail_Forall (fun nd => tuned A nd /\ Node.isTempered nd = false));
        [| exact Hrootnode].
      intros nd [_ Hi]. split; [reflexivity | exact Hi].
Qed.

End LatticePath.

Lemma fromAffine_lattice_path_diagonal :
  let rs := findClosestWithinStrip (Externals := example_externals)
              (linear_part diagonal_strip) in
  exists scale,
    Scale.fromAffine (E := example_externals) diagonal_strip 1 3 1
    = Some scale /\
    Sorted (lattice_step (fst rs) (snd rs)) (Scale.getNodes scale) /\
    Forall (fun nd => tuned diagonal_strip nd /\ Node.isTempered nd = false)
      (Scale.getNodes scale) /\
    Scale.getBaseFreq scale = 1%R /\
    Scale.getRootIdx scale = 1.
Proof.
  apply (fromAffine_lattice_path (E := example_externals) diagonal_strip 1 3 1).
  lia.
Defined.

(** ** Scale degree and equave number, continued *)

(** X20. Degree and equave number always add up to the diagonal of the
    vector, [nodeScaleDegree(v) + n * nodeEquaveNr(v) = v.x + v.y] for every
    [v] when [n] is not zero; and for [n = a + b > 0] and
    [v.x + v.y >= -256 * n], one period [(a, b)] further the degree is the
    same and the equave number is one more. *)
Theorem node_degree_equave_period (m : MOS.t) (v : Vector2i.t) :
  0 < MOS.n m -> MOS.n m = MOS.a m + MOS.b m ->
  - (256 * MOS.n m) <= Vector2i.x v + Vector2i.y v ->
  let w := Vector2i.add v (Vector2i.mk (MOS.a m) (MOS.b m)) in
  MOS.nodeScaleDegree m v + MOS.n m * MOS.nodeEquaveNr m v
  = Vector2i.x v + Vector2i.y v /\
  MOS.nodeScaleDegree m w = MOS.nodeScaleDegree m v /\
  MOS.nodeEquaveNr m w = MOS.nodeEquaveNr m v + 1.
Proof.
  intros Hn Hab Hv w. subst w.
  unfold MOS.nodeScaleDegree, MOS.nodeEquaveNr, Vector2i.add.
  cbn [Vector2i.x Vector2i.y].
  set (t := Vector2i.x v + Vector2i.y v) in *.
  replace (Vector2i.x v + MOS.a m + (Vector2i.y v + MOS.b m) + 256 * MOS.n m)
    with (t + 257 * MOS.n m) by (subst t; lia).
  rewrite !Z.rem_mod_nonneg, !Z.quot_div_nonneg by lia.
  rewrite (Z.mod_add t 256), (Z.mod_add t 257) by lia.
  rewrite (Z.div_add t 256), (Z.div_add t 257) by lia.
  pose proof (Z.div_mod t (MOS.n m) ltac:(lia)).
  repeat split; lia.
Qed.

Lemma node_degree_equave_period_diatonic :
  let v := Vector2i.mk (-9) 1 in
  let w := Vector2i.add v (Vector2i.mk (MOS.a diatonic) (MOS.b diatonic)) in
  MOS.nodeScaleDegree diatonic v + MOS.n diatonic * MOS.nodeEquaveNr diatonic v
  = Vector2i.x v + Vector2i.y v /\
  MOS.nodeScaleDegree diatonic w = MOS.nodeScaleDegree diatonic v /\
  MOS.nodeEquaveNr diatonic w = MOS.nodeEquaveNr diatonic v + 1.
Proof.
  destruct diatonic_structure as (Fa & Fb & Fn & _).
  apply (node_degree_equave_period diatonic (Vector2i.mk (-9) 1));
    rewrite ?Fn, ?Fa, ?Fb; cbn; lia.
Defined.

(** ** Labels *)

(** [floor((k + 0.5) / n0)] is the floor quotient of the integers. *)
Lemma floor_half (k n0 : Z) :
  0 < n0 -> Zfloor ((IZR k + 5 / 10) / IZR n0) = k / n0.
Proof.
  intros Hn. apply Zfloor_eq.
  pose proof (Z.div_mod k n0 ltac:(lia)) as Hk.
  pose proof (Z.mod_pos_bound k n0 Hn) as Hr.
  set (q := k / n0) in *. set (r := k mod n0) in *.
  assert (HkR : IZR k = (IZR n0 * IZR q + IZR r)%R).
  { rewrite Hk at 1. rewrite plus_IZR, mult_IZR. reflexivity. }
  assert (Hn0 : (0 < IZR n0)%R) by (apply IZR_lt; lia).
  assert (Hr0 : (0 <= IZR r)%R) by (apply IZR_le; lia).
  assert (Hr1 : (IZR r <= IZR n0 - 1)%R).
  { rewrite <- minus_IZR. apply IZR_le. lia. }
  replace ((IZR k + 5 / 10) / IZR n0)%R
    with (IZR q + (IZR r + 5 / 10) / IZR n0)%R by (rewrite HkR; field; lra).
  assert (H0 : (0 <= (IZR r + 5 / 10) / IZR n0)%R).
  { apply Rmult_le_pos; [lra |]. apply Rlt_le. apply Rinv_0_lt_compat. lra. }
  assert (H1 : ((IZR r + 5 / 10) / IZR n0 < 1)%R).
  { apply (Rmult_lt_reg_r (IZR n0)); [exact Hn0 |].
    replace ((IZR r + 5 / 10) / IZR n0 * IZR n0)%R with (IZR r + 5 / 10)%R
      by (field; lra).
    lra. }
  lra.
Qed.

Lemma floor_quotient (k n : Z) :
  0 < n -> Zfloor (IZR k / IZR n) = k / n.
Proof.
  intros Hn. apply Zfloor_eq.
  pose proof (Z.div_mod k n ltac:(lia)) as Hk.
  pose proof (Z.mod_pos_bound k n Hn) as Hr.
  set (q := k / n) in *. set (r := k mod n) in *.
  assert (HkR : IZR k = (IZR n * IZR q + IZR r)%R).
  { rewrite Hk at 1. rewrite plus_IZR, mult_IZR. reflexivity. }
  assert (Hn0 : (0 < IZR n)%R) by (apply IZR_lt; lia).
  assert (Hr0 : (0 <= IZR r)%R) by (apply IZR_le; lia).
  assert (Hr1 : (IZR r <= IZR n - 1)%R).
  { rewrite <- minus_IZR. apply IZR_le. lia. }
  replace (IZR k / IZR n)%R with (IZR q + IZR r / IZR n)%R
    by (rewrite HkR; field; lra).
  assert (H0 : (0 <= IZR r / IZR n)%R).
  { apply Rmult_le_pos; [lra |]. apply Rlt_le. apply Rinv_0_lt_compat. lra. }
  assert (H1 : (IZR r / IZR n < 1)%R).
  { apply (Rmult_lt_reg_r (IZR n)); [exact Hn0 |].
    replace (IZR r / IZR n * IZR n)%R with (IZR r) by (field; lra).
    lra. }
  lra.
Qed.

Lemma times_empty_iff (k : nat) (s : string) :
  s <> EmptyString -> (LabelCalculator.times k s = EmptyString <-> k = 0%nat).
Proof.
  intros Hs. destruct k as [| k]; cbn [LabelCalculator.times].
  - tauto.
  - split; [| discriminate]. intros H.
    destruct (LabelCalculator.times k s); cbn in H; [contradiction |].
    discriminate.
Qed.

Lemma string_length_append (s1 s2 : string) :
  String.length (s1 ++ s2) = (String.length s1 + String.length s2)%nat.
Proof. induction s1 as [| c s1 IH]; cbn; [reflexivity | now rewrite IH]. Qed.

Lemma string_append_nil_r (s : string) : (s ++ EmptyString)%string = s.
Proof. induction s as [| c s IH]; cbn; [reflexivity | now rewrite IH]. Qed.

Lemma length_times (k : nat) (s : string) :
  String.length (LabelCalculator.times k s) = (k * String.length s)%nat.
Proof.
  induction k as [| k IH]; cbn [LabelCalculator.times]; [reflexivity |].
  rewrite string_length_append, IH. lia.
Qed.

Lemma accidentalStringTuning_empty_iff (m : MOS.t) (v : Vector2i.t) :
  LabelCalculator.accidentalStringTuning m v = EmptyString
  <-> LabelCalculator.accidentalTuning m v = 0.
Proof.
  unfold LabelCalculator.accidentalStringTuning.
  set (acc := LabelCalculator.accidentalTuning m v).
  split.
  - intros H.
    destruct (LabelCalculator.times (Z.to_nat (- acc)) LabelCalculator.flat)
      eqn:H1; [| discriminate].
    cbn [append] in H.
    apply times_empty_iff in H1; [| discriminate].
    apply times_empty_iff in H; [| discriminate]. lia.
  - intros ->. reflexivity.
Qed.

(** X21. The accidental of the Tuning labels.  For [n0 > 0], with
    [g = v.x * b0 - v.y * a0] the generator count of [v]: when the large
    step is [(1, 0)] the count [acc] is [floor((g + 1) / n0)], otherwise it
    is [- floor((g + n0 - 2) / n0)]; the string is [-acc] flats for a
    negative [acc] and [acc] sharps for a positive one, 3 bytes each; and
    one period [(a0, b0)] further the accidental is the same. *)
Theorem accidentalStringTuning_count (m : MOS.t) (v : Vector2i.t) :
  0 < MOS.n0 m ->
  let g := Vector2i.x v * MOS.b0 m - Vector2i.y v * MOS.a0 m in
  let acc := LabelCalculator.accidentalTuning m v in
  acc = (if Vector2i.x (MOS.L_vec m) =? 1
         then (g + 1) / MOS.n0 m
         else - ((g + (MOS.n0 m - 2)) / MOS.n0 m)) /\
  LabelCalculator.accidentalStringTuning m v
  = (if acc <? 0
     then LabelCalculator.times (Z.to_nat (- acc)) LabelCalculator.flat
     else LabelCalculator.times (Z.to_nat acc) LabelCalculator.sharp) /\
  Z.of_nat (String.length (LabelCalculator.accidentalStringTuning m v))
  = 3 * Z.abs acc /\
  LabelCalculator.accidentalStringTuning m
    (Vector2i.add v (Vector2i.mk (MOS.a0 m) (MOS.b0 m)))
  = LabelCalculator.accidentalStringTuning m v.
Proof.
  intros Hn g acc.
  assert (Hacc : acc = (if Vector2i.x (MOS.L_vec m) =? 1
                        then (g + 1) / MOS.n0 m
                        else - ((g + (MOS.n0 m - 2)) / MOS.n0 m))).
  { subst acc. unfold LabelCalculator.accidentalTuning. fold g.
    rewrite floor_half by exact Hn.
    destruct (Vector2i.x (MOS.L_vec m) =? 1); lia. }
  split; [exact Hacc |].
  assert (Hstr : LabelCalculator.accidentalStringTuning m v
                 = (if acc <? 0
                    then LabelCalculator.times (Z.to_nat (- acc))
                           LabelCalculator.flat
                    else LabelCalculator.times (Z.to_nat acc)
                           LabelCalculator.sharp)).
  { unfold LabelCalculator.accidentalStringTuning. fold acc.
    destruct (Z.ltb_spec acc 0).
    - replace (Z.to_nat acc) with 0%nat by lia.
      cbn [LabelCalculator.times]. apply string_append_nil_r.
    - replace (Z.to_nat (- acc)) with 0%nat by lia. reflexivity. }
  split; [exact Hstr |]. split.
  - rewrite Hstr. destruct (Z.ltb_spec acc 0); rewrite length_times.
    + change (String.length LabelCalculator.flat) with 3%nat. lia.
    + change (String.length LabelCalculator.sharp) with 3%nat. lia.
  - unfold LabelCalculator.accidentalStringTuning,
      LabelCalculator.accidentalTuning, Vector2i.add.
    cbn [Vector2i.x Vector2i.y].
    replace ((Vector2i.x v + MOS.a0 m) * MOS.b0 m
             - (Vector2i.y v + MOS.b0 m) * MOS.a0 m)
      with (Vector2i.x v * MOS.b0 m - Vector2i.y v * MOS.a0 m) by ring.
    reflexivity.
Qed.

Lemma accidentalStringTuning_count_diatonic :
  let v := Vector2i.mk 0 1 in
  let g := Vector2i.x v * MOS.b0 diatonic - Vector2i.y v * MOS.a0 diatonic in
  let acc := LabelCalculator.accidentalTuning diatonic v in
  acc = (if Vector2i.x (MOS.L_vec diatonic) =? 1
         then (g + 1) / MOS.n0 diatonic
         else - ((g + (MOS.n0 diatonic - 2)) / MOS.n0 diatonic)) /\
  LabelCalculator.accidentalStringTuning diatonic v
  = (if acc <? 0
     then LabelCalculator.times (Z.to_nat (- acc)) LabelCalculator.flat
     else LabelCalculator.times (Z.to_nat acc) LabelCalculator.sharp) /\
  Z.of_nat (String.length (LabelCalculator.accidentalStringTuning diatonic v))
  = 3 * Z.abs acc /\
  LabelCalculator.accidentalStringTuning diatonic
    (Vector2i.add v (Vector2i.mk (MOS.a0 diatonic) (MOS.b0 diatonic)))
  = LabelCalculator.accidentalStringTuning diatonic v.
Proof.
  destruct diatonic_structure as (_ & _ & _ & _ & _ & _ & _ & Fn0).
  apply (accidentalStringTuning_count diatonic (Vector2i.mk 0 1)).
  rewrite Fn0. lia.
Defined.

(** X22. In the neutral mode the notes without an accidental are the notes of
    the scale.  For a MOS of one period ([a = a0], [b = b0], [n = n0 > 0])
    whose mode is the neutral mode of the labels (1 when the large step is
    [(1, 0)], [n0 - 2] otherwise), [accidentalStringTuning(v)] is empty
    exactly when [nodeInScale(v)] is true. *)
Theorem accidentalStringTuning_in_scale (m : MOS.t) (v : Vector2i.t) :
  0 < MOS.n0 m ->
  MOS.a m = MOS.a0 m -> MOS.b m = MOS.b0 m -> MOS.n m = MOS.n0 m ->
  MOS.mode m = (if Vector2i.x (MOS.L_vec m) =? 1 then 1 else MOS.n0 m - 2) ->
  LabelCalculator.accidentalStringTuning m v = EmptyString
  <-> MOS.nodeInScale m v = true.
Proof.
  intros Hn Ha Hb Hnn Hmode.
  rewrite accidentalStringTuning_empty_iff, nodeInScale_true_iff.
  unfold LabelCalculator.accidentalTuning.
  rewrite floor_half by exact Hn.
  rewrite Ha, Hb, Hnn, Hmode.
  set (g := Vector2i.x v * MOS.b0 m - Vector2i.y v * MOS.a0 m).
  destruct (Vector2i.x (MOS.L_vec m) =? 1).
  - pose proof (Z.div_small_iff (g + 1) (MOS.n0 m) ltac:(lia)) as H.
    split; intros H1.
    + assert ((g + 1) / MOS.n0 m = 0) as H2 by lia. apply H in H2. lia.
    + assert ((g + 1) / MOS.n0 m = 0) as H2 by (apply H; lia). lia.
  - pose proof (Z.div_small_iff (g + (MOS.n0 m - 2)) (MOS.n0 m) ltac:(lia)) as H.
    split; intros H1.
    + assert ((g + (MOS.n0 m - 2)) / MOS.n0 m = 0) as H2 by lia.
      apply H in H2. lia.
    + assert ((g + (MOS.n0 m - 2)) / MOS.n0 m = 0) as H2 by (apply H; lia). lia.
Qed.

Lemma updateVectors_idempotent (m : MOS.t) :
  MOS.updateVectors (MOS.updateVectors m) = MOS.updateVectors m.
Proof.
  unfold MOS.updateVectors.
  destruct (Rltb (Vector2d.x (AffineTransform.applyi (MOS.impliedAffine m)
                                (Vector2i.mk 0 1)))
              (Vector2d.x (AffineTransform.applyi (MOS.impliedAffine m)
                             (Vector2i.mk 1 0)))) eqn:H;
    cbn [MOS.a MOS.b MOS.n MOS.a0 MOS.b0 MOS.n0 MOS.mode MOS.nL MOS.nS
         MOS.repetitions MOS.depth MOS.equave MOS.period MOS.generator
         MOS.L_vec MOS.s_vec MOS.chroma_vec MOS.L_fr MOS.s_fr MOS.chroma_fr
         MOS.path MOS.impliedAffine MOS.mosTransform MOS.v_gen MOS.base_scale];
    rewrite H; reflexivity.
Qed.

Lemma updateVectors_set_base_scale (m : MOS.t) (s : Scale.t) :
  MOS.updateVectors (MOS.set_base_scale m s)
  = MOS.set_base_scale (MOS.updateVectors m) s.
Proof.
  unfold MOS.updateVectors, MOS.set_base_scale.
  cbn [MOS.impliedAffine]. destruct (Rltb _ _); reflexivity.
Qed.

Lemma updateVectors_set_mosTransform (m : MOS.t) (T : IntegerAffineTransform.t) :
  MOS.updateVectors (MOS.set_mosTransform m T)
  = MOS.set_mosTransform (MOS.updateVectors m) T.
Proof.
  unfold MOS.updateVectors, MOS.set_mosTransform.
  cbn [MOS.impliedAffine]. destruct (Rltb _ _); reflexivity.
Qed.

Section InSync.
Context {E : Externals}.

(** The step vectors of a MOS that [adjustParams] returns are those of its
    implied transform: [updateVectors] would not change it. *)
Lemma adjustParams_updateVectors (self : MOS.t) (a b mode : Z) (e g : R)
  (m : MOS.t) :
  MOS.adjustParams self a b mode e g = MOS.Done m -> MOS.updateVectors m = m.
Proof.
  intros Hdone.
  destruct (adjustParams_Done_inv _ _ _ _ _ _ _ Hdone) as (Ha & Hb & Hg).
  unfold MOS.adjustParams in Hdone.
  assert (Hta : (0 <? a) = true) by (apply Z.ltb_lt; lia).
  assert (Htb : (0 <? b) = true) by (apply Z.ltb_lt; lia).
  assert (Htg : Rleb 0 g && Rleb g 1 = true).
  { apply andb_true_iff; split; apply Rleb_true_iff; lra. }
  rewrite Hta, Htb, Htg in Hdone. cbn [negb] in Hdone.
  destruct (calcPath _ _) as [p |]; [| discriminate].
  cbv zeta in Hdone.
  destruct (Scale.fromAffine _ _ _ _) as [scale |]; [| discriminate].
  injection Hdone as <-.
  rewrite updateVectors_set_mosTransform, updateVectors_set_base_scale,
    updateVectors_idempotent.
  reflexivity.
Qed.

End InSync.

Lemma diatonic_path :
  MOS.path diatonic = [true; false; false] /\
  MOS.v_gen diatonic = Vector2i.mk 3 1.
Proof.
  destruct (example_MOS_tuning 5 2 1 1 (585 / 1000)) as
    (_ & _ & _ & Fpath & Fv); [lia | lia | lra |].
  fold diatonic in Fpath, Fv.
  change (calcPath (5 / Z.gcd 5 2) (2 / Z.gcd 5 2))
    with (Some [true; false; false]) in Fpath.
  injection Fpath as Fpath. rewrite <- Fpath in *. split; [reflexivity |].
  exact Fv.
Qed.

(** In the diatonic MOS a step along [(1, 0)] is [0.17] wide and a step
    along [(0, 1)] is [0.075] wide: the large step is [(1, 0)]. *)
Lemma diatonic_large_step :
  AffineTransform.a (MOS.impliedAffine diatonic) = (17 / 100)%R /\
  AffineTransform.b (MOS.impliedAffine diatonic) = (75 / 1000)%R /\
  AffineTransform.tx (MOS.impliedAffine diatonic) = 0%R /\
  MOS.L_vec diatonic = Vector2i.mk 1 0.
Proof.
  destruct (example_implied_fit _ _ _ _ _ _ _ diatonic_done) as (Hf0 & Hfg & Hfp).
  destruct diatonic_structure as (_ & _ & _ & _ & _ & Fa0 & Fb0 & _).
  destruct diatonic_path as [_ Fv].
  destruct (example_MOS_tuning 5 2 1 1 (585 / 1000)) as
    (_ & Fp & Fg & _); [lia | lia | lra |].
  fold diatonic in Fp, Fg. change (Z.gcd 5 2) with 1 in Fp.
  rewrite Fv in Hfg. rewrite Fa0, Fb0 in Hfp. rewrite Fp, Fg in *.
  apply (f_equal Vector2d.x) in Hf0, Hfg, Hfp.
  unfold AffineTransform.applyi, AffineTransform.apply, Vector2d.ofVector2i
    in Hf0, Hfg, Hfp.
  cbn [Vector2i.x Vector2i.y Vector2d.x Vector2d.y] in Hf0, Hfg, Hfp.
  set (A := MOS.impliedAffine diatonic) in *.
  assert (Htx : AffineTransform.tx A = 0%R) by lra.
  assert (HAa : AffineTransform.a A = (17 / 100)%R) by lra.
  assert (HAb : AffineTransform.b A = (75 / 1000)%R) by lra.
  repeat split; try assumption.
  rewrite <- (adjustParams_updateVectors (E := example_externals) _ _ _ _ _ _ _
                diatonic_done).
  unfold MOS.updateVectors. fold A.
  replace (Rltb _ _) with true; [reflexivity |].
  symmetry. apply Rltb_true_iff.
  unfold AffineTransform.applyi, AffineTransform.apply, Vector2d.ofVector2i.
  cbn [Vector2i.x Vector2i.y Vector2d.x Vector2d.y].
  rewrite HAa, HAb, Htx. lra.
Qed.

Lemma accidentalStringTuning_in_scale_diatonic :
  LabelCalculator.accidentalStringTuning diatonic (Vector2i.mk 2 1) = EmptyString
  <-> MOS.nodeInScale diatonic (Vector2i.mk 2 1) = true.
Proof.
  destruct diatonic_structure as (Fa & Fb & Fn & Fm & _ & Fa0 & Fb0 & Fn0).
  destruct diatonic_large_step as (_ & _ & _ & FL).
  apply (accidentalStringTuning_in_scale diatonic (Vector2i.mk 2 1)).
  - rewrite Fn0. lia.
  - rewrite Fa, Fa0. reflexivity.
  - rewrite Fb, Fb0. reflexivity.
  - rewrite Fn, Fn0. reflexivity.
  - rewrite Fm, FL. reflexivity.
Defined.

(** X23. The Tuning labels one equave further.  For [n = a + b > 0], [(a, b)]
    a multiple of [(a0, b0)] and [v.x + v.y >= -128 * n]: at [v + (a, b)]
    the letter label and the digit labels are those at [v]; the label with
    octave number is the letter label followed by the decimal digits of
    [middle_C_octave + floor((v.x + v.y) / n)], and one more at
    [v + (a, b)]. *)
Theorem nodeLabelTuning_equave (m : MOS.t) (v : Vector2i.t)
  (middle_C_octave : Z) (accidentalAfter : bool) :
  0 < MOS.n m -> MOS.n m = MOS.a m + MOS.b m ->
  MOS.a m * MOS.b0 m = MOS.b m * MOS.a0 m ->
  - (128 * MOS.n m) <= Vector2i.x v + Vector2i.y v ->
  let w := Vector2i.add v (Vector2i.mk (MOS.a m) (MOS.b m)) in
  let octave := middle_C_octave + (Vector2i.x v + Vector2i.y v) / MOS.n m in
  LabelCalculator.nodeLabelLetterTuning m w accidentalAfter
  = LabelCalculator.nodeLabelLetterTuning m v accidentalAfter /\
  LabelCalculator.nodeLabelDigitTuning m w accidentalAfter
  = LabelCalculator.nodeLabelDigitTuning m v accidentalAfter /\
  LabelCalculator.nodeLabelDigitTuningZeroBased m w accidentalAfter
  = LabelCalculator.nodeLabelDigitTuningZeroBased m v accidentalAfter /\
  LabelCalculator.nodeLabelLetterWithOctaveNumberTuning m v middle_C_octave
    accidentalAfter
  = (LabelCalculator.nodeLabelLetterTuning m v accidentalAfter
     ++ to_string octave)%string /\
  LabelCalculator.nodeLabelLetterWithOctaveNumberTuning m w middle_C_octave
    accidentalAfter
  = (LabelCalculator.nodeLabelLetterTuning m v accidentalAfter
     ++ to_string (octave + 1))%string.
Proof.
  intros Hn Hab Hper Hv w octave.
  assert (Hacc : LabelCalculator.accidentalStringTuning m w
                 = LabelCalculator.accidentalStringTuning m v).
  { subst w. unfold LabelCalculator.accidentalStringTuning,
      LabelCalculator.accidentalTuning, Vector2i.add.
    cbn [Vector2i.x Vector2i.y].
    replace ((Vector2i.x v + MOS.a m) * MOS.b0 m
             - (Vector2i.y v + MOS.b m) * MOS.a0 m)
      with (Vector2i.x v * MOS.b0 m - Vector2i.y v * MOS.a0 m) by lia.
    reflexivity. }
  assert (Hsum : Vector2i.x w + Vector2i.y w
                 = Vector2i.x v + Vector2i.y v + 1 * MOS.n m).
  { subst w. unfold Vector2i.add. cbn [Vector2i.x Vector2i.y]. lia. }
  assert (Hletter : LabelCalculator.nodeLabelLetterTuning m w accidentalAfter
                    = LabelCalculator.nodeLabelLetterTuning m v accidentalAfter).
  { unfold LabelCalculator.nodeLabelLetterTuning. rewrite Hacc, Hsum.
    rewrite !Z.rem_mod_nonneg by lia.
    replace (Vector2i.x v + Vector2i.y v + 1 * MOS.n m + 2 + 128 * MOS.n m)
      with (Vector2i.x v + Vector2i.y v + 2 + 128 * MOS.n m + 1 * MOS.n m)
      by ring.
    rewrite (Z.mod_add _ 1) by lia. reflexivity. }
  assert (Hfloor : forall u : Vector2i.t,
            Zfloor ((0 + IZR (Vector2i.x u) + IZR (Vector2i.y u)) / IZR (MOS.n m))
            = (Vector2i.x u + Vector2i.y u) / MOS.n m).
  { intros u. rewrite <- (floor_quotient _ _ Hn). f_equal.
    rewrite plus_IZR. f_equal. ring. }
  split; [exact Hletter |]. split; [| split; [| split]].
  - unfold LabelCalculator.nodeLabelDigitTuning. rewrite Hacc, Hsum.
    rewrite !Z.rem_mod_nonneg by lia.
    replace (Vector2i.x v + Vector2i.y v + 1 * MOS.n m + 128 * MOS.n m)
      with (Vector2i.x v + Vector2i.y v + 128 * MOS.n m + 1 * MOS.n m) by ring.
    rewrite (Z.mod_add _ 1) by lia. reflexivity.
  - unfold LabelCalculator.nodeLabelDigitTuningZeroBased. rewrite Hacc, Hsum.
    rewrite !Z.rem_mod_nonneg by lia.
    replace (Vector2i.x v + Vector2i.y v + 1 * MOS.n m + 128 * MOS.n m)
      with (Vector2i.x v + Vector2i.y v + 128 * MOS.n m + 1 * MOS.n m) by ring.
    rewrite (Z.mod_add _ 1) by lia. reflexivity.
  - unfold LabelCalculator.nodeLabelLetterWithOctaveNumberTuning.
    rewrite Hfloor. reflexivity.
  - unfold LabelCalculator.nodeLabelLetterWithOctaveNumberTuning.
    rewrite Hfloor, Hletter, Hsum, Z.div_add by lia.
    subst octave. f_equal. f_equal. ring.
Qed.

Lemma nodeLabelTuning_equave_diatonic :
  let v := Vector2i.mk 2 1 in
  let w := Vector2i.add v (Vector2i.mk (MOS.a diatonic) (MOS.b diatonic)) in
  let octave := 4 + (Vector2i.x v + Vector2i.y v) / MOS.n diatonic in
  LabelCalculator.nodeLabelLetterTuning diatonic w false
  = LabelCalculator.nodeLabelLetterTuning diatonic v false /\
  LabelCalculator.nodeLabelDigitTuning diatonic w false
  = LabelCalculator.nodeLabelDigitTuning diatonic v false /\
  LabelCalculator.nodeLabelDigitTuningZeroBased diatonic w false
  = LabelCalculator.nodeLabelDigitTuningZeroBased diatonic v false /\
  LabelCalculator.nodeLabelLetterWithOctaveNumberTuning diatonic v 4 false
  = (LabelCalculator.nodeLabelLetterTuning diatonic v false
     ++ to_string octave)%string /\
  LabelCalculator.nodeLabelLetterWithOctaveNumberTuning diatonic w 4 false
  = (LabelCalculator.nodeLabelLetterTuning diatonic v false
     ++ to_string (octave + 1))%string.
Proof.
  destruct diatonic_structure as (Fa & Fb & Fn & _ & _ & Fa0 & Fb0 & _).
  apply (nodeLabelTuning_equave diatonic (Vector2i.mk 2 1) 4 false);
    rewrite ?Fn, ?Fa, ?Fb, ?Fa0, ?Fb0; cbn; lia.
Defined.

(** The notes of the diatonic MOS from the root: C4 D4 E4 F4, and the
    note [(0, 1)] off the scale, a flat D. *)
Example diatonic_labels :
  map (fun v => LabelCalculator.nodeLabelLetterWithOctaveNumberTuning diatonic
                  v 4 false)
    [Vector2i.mk 0 0; Vector2i.mk 1 0; Vector2i.mk 2 0; Vector2i.mk 2 1;
     Vector2i.mk 0 1]
  = ["C4"; "D4"; "E4"; "F4"; (LabelCalculator.flat ++ "D4")]%string.
Proof.
  destruct diatonic_structure as (Fa & Fb & Fn & Fm & _ & Fa0 & Fb0 & Fn0).
  destruct diatonic_large_step as (_ & _ & _ & FL).
  assert (H : forall x y,
    LabelCalculator.nodeLabelLetterWithOctaveNumberTuning diatonic
      (Vector2i.mk x y) 4 false
    = (LabelCalculator.times (Z.to_nat (- ((x * 2 - y * 5 + 1) / 7)))
         LabelCalculator.flat
       ++ LabelCalculator.times (Z.to_nat ((x * 2 - y * 5 + 1) / 7))
            LabelCalculator.sharp
       ++ String (ascii_of_N
                    (Z.to_N ((65 + Z.rem (x + y + 2 + 128 * 7) 7) mod 256)))
            EmptyString
       ++ to_string (4 + (x + y) / 7))%string).
  { intros x y.
    unfold LabelCalculator.nodeLabelLetterWithOctaveNumberTuning,
      LabelCalculator.nodeLabelLetterTuning,
      LabelCalculator.accidentalStringTuning, LabelCalculator.accidentalTuning.
    cbn [Vector2i.x Vector2i.y].
    rewrite FL, Fn, Fn0, Fa0, Fb0. cbn [Vector2i.x Z.eqb Pos.eqb].
    rewrite floor_half by lia.
    replace ((0 + IZR x + IZR y) / IZR 7)%R with (IZR (x + y) / IZR 7)%R
      by (rewrite plus_IZR; f_equal; ring).
    rewrite floor_quotient by lia.
    replace (1 * ((x * 2 - y * 5 + 1) / 7)) with ((x * 2 - y * 5 + 1) / 7)
      by ring.
    set (a1 := LabelCalculator.times _ LabelCalculator.flat).
    set (a2 := LabelCalculator.times _ LabelCalculator.sharp).
    set (l := String _ EmptyString). set (o := to_string _).
    clearbody a1 a2 l o.
    induction a1 as [| c a1 IH]; cbn [append].
    - induction a2 as [| c a2 IH]; cbn [append]; [reflexivity |].
      now rewrite IH.
    - now rewrite IH. }
  cbn [map]. rewrite !H. reflexivity.
Qed.

(** ** Prime factors (spectrum.cpp) *)

(** A number above 1 that nothing from 2 up to its square root divides is
    prime. *)
Lemma prime_by_trial (i n : Z) :
  1 < n -> n < i * i -> 0 <= i ->
  (forall d, 2 <= d < i -> ~ (d | n)) -> prime n.
Proof.
  intros Hn Hi Hi0 Hfree. apply prime_alt. split; [exact Hn |].
  intros d Hd [e He].
  assert (He1 : 1 < e).
  { destruct (Z.le_gt_cases e 1) as [Hle | Hgt]; [| exact Hgt]. nia. }
  assert (He2 : e < n) by nia.
  destruct (Z.le_gt_cases d e) as [Hde | Hed].
  - apply (Hfree d).
    + split; [lia |]. destruct (Z.lt_ge_cases d i) as [| Hge]; [assumption |].
      nia.
    + exists e. exact He.
  - apply (Hfree e).
    + split; [lia |]. destruct (Z.lt_ge_cases e i) as [| Hge]; [assumption |].
      nia.
    + exists d. lia.
Qed.

Lemma quot_exact (n i : Z) :
  0 < n -> 0 < i -> Z.rem n i = 0 -> n = i * Z.quot n i /\ 0 < Z.quot n i.
Proof.
  intros Hn Hi Hrem.
  pose proof (Z.quot_rem' n i) as H. rewrite Hrem in H.
  split; [lia |]. nia.
Qed.

(** The loop of [primeFactors] from a state in which nothing from 2 up to
    [i - 1] divides [n]: it ends within [2 * n - i] iterations, and the
    factors it appends are primes from [i] on, in ascending order, none
    above what is left of [n]. *)
Lemma primeFactors_loop_ends (fuel : nat) :
  forall i n factors,
    2 <= i -> 1 <= n -> 2 * n - i <= Z.of_nat fuel ->
    (forall d, 2 <= d < i -> ~ (d | n)) ->
    exists n' fs,
      Spectrum.primeFactors_loop fuel i n factors = Some (n', factors ++ fs) /\
      1 <= n' /\ (1 < n' -> prime n') /\
      fold_right Z.mul 1 fs * n' = n /\
      Forall prime fs /\
      StronglySorted Z.le fs /\
      Forall (fun f => i <= f) fs /\
      Forall (fun f => 1 < n' -> f <= n') fs.
Proof.
  induction fuel as [| fuel IH]; intros i n factors Hi Hn Hfuel Hfree.
  - cbn [Spectrum.primeFactors_loop].
    destruct (Z.leb_spec (i * i) n) as [Hle | Hgt]; [nia |].
    exists n, []. rewrite app_nil_r.
    split; [reflexivity |]. split; [lia |].
    split; [intros H1; apply (prime_by_trial i); auto; lia |].
    split; [cbn [fold_right]; lia |].
    split; [constructor |]. split; [constructor |]. split; constructor.
  - cbn [Spectrum.primeFactors_loop].
    destruct (Z.leb_spec (i * i) n) as [Hle | Hgt].
    + destruct (Z.eqb_spec (Z.rem n i) 0) as [Hrem | Hrem].
      * destruct (quot_exact n i ltac:(lia) ltac:(lia) Hrem) as [Hq Hqpos].
        set (q := Z.quot n i) in *.
        assert (Hqi : i <= q) by nia.
        destruct (IH i q (factors ++ [i])) as
          (n' & fs & Hloop & Hn' & Hp' & Hprod & Hprimes & Hsorted & Hge & Hle');
          try lia.
        { nia. }
        { intros d Hd [e He]. apply (Hfree d Hd). exists (e * i). lia. }
        assert (Hiprime : prime i).
        { apply (prime_by_trial i); [lia | nia | lia |].
          intros d Hd [e He]. apply (Hfree d Hd). exists (e * q). nia. }
        assert (Hin' : 1 < n' -> i <= n').
        { intros H1.
          destruct (Z.le_gt_cases i n') as [| Hlt]; [assumption |].
          exfalso. apply (Hfree n'); [lia |].
          exists (fold_right Z.mul 1 fs * i). nia. }
        exists n', (i :: fs). rewrite Hloop, <- app_assoc.
        split; [reflexivity |]. split; [exact Hn' |]. split; [exact Hp' |].
        split; [cbn [fold_right]; nia |].
        split; [constructor; assumption |].
        split; [constructor; assumption |].
        split; [constructor; [lia | assumption] |].
        constructor; [exact Hin' | assumption].
      * destruct (IH (i + 1) n factors) as
          (n' & fs & Hloop & Hn' & Hp' & Hprod & Hprimes & Hsorted & Hge & Hle');
          try lia.
        { intros d Hd Hdiv.
          destruct (Z.eq_dec d i) as [-> | Hne]; [| apply (Hfree d); [lia | exact Hdiv]].
          apply Hrem. apply Z.rem_divide; [lia | exact Hdiv]. }
        exists n', fs. rewrite Hloop.
        split; [reflexivity |]. split; [exact Hn' |]. split; [exact Hp' |].
        split; [exact Hprod |]. split; [exact Hprimes |].
        split; [exact Hsorted |]. split; [| exact Hle'].
        eapply Forall_impl; [| exact Hge]. intros f Hf. cbv beta in Hf. lia.
    + exists n, []. rewrite app_nil_r.
      split; [reflexivity |]. split; [lia |].
      split; [intros H1; apply (prime_by_trial i); auto; lia |].
      split; [cbn [fold_right]; lia |].
      split; [constructor |]. split; [constructor |]. split; constructor.
Qed.

Lemma prime_at_least_2 (p : Z) : prime p -> 2 <= p.
Proof. intros [H _]. lia. Qed.

Lemma product_of_primes_pos (fs : list Z) :
  Forall prime fs -> 0 < fold_right Z.mul 1 fs.
Proof.
  induction 1 as [| f fs Hf _ IH]; cbn [fold_right]; [lia |].
  pose proof (prime_at_least_2 f Hf). nia.
Qed.

(** [primeFactors] ends, with the ascending prime factorisation. *)
Lemma primeFactors_result (n : Z) :
  exists factors,
    Spectrum.primeFactors n = Some factors /\
    Forall prime factors /\
    StronglySorted Z.le factors /\
    (1 <= n -> fold_right Z.mul 1 factors = n) /\
    (n <= 1 -> factors = []).
Proof.
  unfold Spectrum.primeFactors.
  destruct (Z.le_gt_cases n 0) as [Hn | Hn].
  - assert (H : Spectrum.primeFactors_loop (Z.to_nat (2 * n)) 2 n []
                = Some (n, [])).
    { destruct (Z.to_nat (2 * n)); cbn [Spectrum.primeFactors_loop];
        destruct (Z.leb_spec (2 * 2) n); try lia; reflexivity. }
    rewrite H.
    destruct (Z.ltb_spec 1 n); [lia |].
    exists []. repeat split; try constructor; lia.
  - destruct (primeFactors_loop_ends (Z.to_nat (2 * n)) 2 n [])
      as (n' & fs & Hloop & Hn' & Hp' & Hprod & Hprimes & Hsorted & _ & Hle);
      try lia.
    rewrite Hloop. cbn [app].
    destruct (Z.ltb_spec 1 n') as [H1 | H1].
    + exists (fs ++ [n']). split; [reflexivity |].
      split.
      { apply Forall_app. split; [exact Hprimes |].
        constructor; [apply Hp'; exact H1 | constructor]. }
      split.
      { apply StronglySorted_app; [exact Hsorted | repeat constructor |].
        intros u v Hu [<- | []].
        rewrite Forall_forall in Hle. apply Hle; assumption. }
      split.
      { intros _. rewrite fold_right_app. cbn [fold_right].
        rewrite <- Hprod.
        clear. induction fs as [| f fs IH]; cbn [fold_right]; [ring |].
        rewrite IH. ring. }
      { intros Hn1.
        pose proof (prime_at_least_2 n' (Hp' H1)).
        pose proof (product_of_primes_pos fs Hprimes). nia. }
    + assert (Hone : n' = 1) by lia. rewrite Hone in Hprod.
      exists fs. split; [reflexivity |].
      split; [exact Hprimes |]. split; [exact Hsorted |].
      split; [intros _; lia |].
      intros Hn1.
      destruct Hprimes as [| f fs Hf Hrest]; [reflexivity |].
      exfalso. cbn [fold_right] in Hprod.
      pose proof (prime_at_least_2 f Hf).
      pose proof (product_of_primes_pos fs Hrest). nia.
Qed.

(** A prime that divides a product of primes is one of them. *)
Lemma prime_in_product (p : Z) (fs : list Z) :
  prime p -> Forall prime fs -> (p | fold_right Z.mul 1 fs) -> In p fs.
Proof.
  intros Hp Hfs. induction Hfs as [| f fs Hf _ IH]; cbn [fold_right In];
    intros Hdiv.
  - pose proof (prime_at_least_2 p Hp).
    apply Z.divide_1_r in Hdiv. lia.
  - apply (Z.divide_prime_mul f _ p) in Hdiv; [| apply prime_alt; exact Hp].
    destruct Hdiv as [Hpf | Hrest].
    + left. symmetry. apply Z.divide_prime_prime; [| | exact Hpf];
        apply prime_alt; assumption.
    + right. apply IH. exact Hrest.
Qed.

(** From a counter up to [46340] and a number below [46340 * 46340], no
    product the loop test takes is above [46340 * 46340 = 2147395600]. *)
Lemma primeFactors_tests_bounded (fuel : nat) :
  forall i n,
    2 <= i <= 46340 -> n <= 2147395599 ->
    Forall (fun t => 0 <= t <= 2147395600) (primeFactors_tests fuel i n).
Proof.
  induction fuel as [| fuel IH]; intros i n Hi Hn; cbn [primeFactors_tests];
    (constructor; [nia |]);
    destruct (Z.leb_spec (i * i) n) as [Hle | Hgt]; try constructor.
  destruct (Z.rem n i =? 0).
  - apply IH; [exact Hi |].
    assert (0 < n) by nia.
    pose proof (Z.quot_lt n i ltac:(lia) ltac:(lia)). lia.
  - apply IH; [| exact Hn]. nia.
Qed.

(** X24. [primeFactors(n)] for an [n] up to [2147395599], one less than
    [46340 * 46340]: the loop ends, and no product [i * i] that its test
    takes is above [2147395600], so none leaves the range of [int].  The
    vector it returns holds primes only, in ascending order; for [n >= 1]
    their product is [n], so that every prime that divides [n] is in it;
    and for [n <= 1] the vector is empty. *)
Theorem primeFactors_factorisation (n : Z) :
  n <= 2147395599 ->
  Forall (fun t => 0 <= t <= 2147395600)
    (primeFactors_tests (Z.to_nat (2 * n)) 2 n) /\
  exists factors,
    Spectrum.primeFactors n = Some factors /\
    Forall prime factors /\
    StronglySorted Z.le factors /\
    (1 <= n -> fold_right Z.mul 1 factors = n) /\
    (1 <= n -> forall p, prime p -> (p | n) -> In p factors) /\
    (n <= 1 -> factors = []).
Proof.
  intros Hbound.
  split; [apply primeFactors_tests_bounded; lia |].
  destruct (primeFactors_result n)
    as (factors & Hsome & Hprimes & Hsorted & Hprod & Hempty).
  exists factors. split; [exact Hsome |]. split; [exact Hprimes |].
  split; [exact Hsorted |]. split; [exact Hprod |]. split; [| exact Hempty].
  intros Hn p Hp Hdiv. apply prime_in_product; [exact Hp | exact Hprimes |].
  rewrite (Hprod Hn). exact Hdiv.
Qed.

Lemma primeFactors_factorisation_360 :
  Forall (fun t => 0 <= t <= 2147395600)
    (primeFactors_tests (Z.to_nat (2 * 360)) 2 360) /\
  exists factors,
    Spectrum.primeFactors 360 = Some factors /\
    Forall prime factors /\
    StronglySorted Z.le factors /\
    (1 <= 360 -> fold_right Z.mul 1 factors = 360) /\
    (1 <= 360 -> forall p, prime p -> (p | 360) -> In p factors) /\
    (360 <= 1 -> factors = []).
Proof.
  apply (primeFactors_factorisation 360). lia.
Defined.

Example primeFactors_360 : Spectrum.primeFactors 360 = Some [2; 2; 2; 3; 3; 5].
Proof. reflexivity. Qed.

Example primeFactors_97 : Spectrum.primeFactors 97 = Some [97].
Proof. reflexivity. Qed.

(** ** Spectra *)





Example oddHarmonic_5 (decay : R) :
  Spectrum.partials (Spectrum.oddHarmonic 5 decay)
  = [Partial.mk 1 1; Partial.mk 3 (decay * (decay * 1));
     Partial.mk 5 (decay * (decay * (decay * (decay * 1))))].
Proof. reflexivity. Qed.

(** ** Pseudoharmonic spectra *)






(** ** Consonance (consonance.cpp) *)

Lemma ln_le (x y : R) : (0 < x)%R -> (x <= y)%R -> (ln x <= ln y)%R.
Proof.
  intros Hx [Hlt | ->]; [| lra].
  apply Rlt_le. apply ln_increasing; assumption.
Qed.

Lemma ln_10_pos : (0 < ln 10)%R.
Proof. rewrite <- ln_1. apply ln_increasing; lra. Qed.

Lemma log10_hundredth : log10 (1 / 100) = (-2)%R.
Proof.
  unfold log10.
  replace (1 / 100)%R with (/ (10 * 10))%R by lra.
  rewrite ln_Rinv by lra. rewrite ln_mult by lra.
  pose proof ln_10_pos. field. lra.
Qed.

Lemma log10_le (x y : R) : (0 < x)%R -> (x <= y)%R -> (log10 x <= log10 y)%R.
Proof.
  intros Hx Hxy. unfold log10. pose proof ln_10_pos as H10.
  pose proof (ln_le x y Hx Hxy).
  apply Rmult_le_compat_r; [| assumption].
  apply Rlt_le. apply Rinv_0_lt_compat. exact H10.
Qed.

(** X27. [consonanceValue] is never negative and never decreases; it is 0 up
    to [spiky_normalized = 0.01], [1 + log10(spiky_normalized) / 2] from
    there on, and 1 at 1. *)
Theorem consonanceValue_range (s : R) :
  (0 <= consonanceValue s)%R /\
  (s <= 1 / 100 -> consonanceValue s = 0)%R /\
  (1 / 100 <= s -> consonanceValue s = 1 + log10 s / 2)%R /\
  consonanceValue 1 = 1%R /\
  (forall s', s <= s' -> consonanceValue s <= consonanceValue s')%R.
Proof.
  assert (Hlow : forall t, (t <= 1 / 100 -> consonanceValue t = 0)%R).
  { intros t Ht. unfold consonanceValue. apply Rmax_left.
    assert (Hm : (Rmax t (1 / 10000000000) <= 1 / 100)%R)
      by (apply Rmax_lub; lra).
    assert (Hp : (0 < Rmax t (1 / 10000000000))%R).
    { pose proof (Rmax_r t (1 / 10000000000)). lra. }
    pose proof (log10_le _ _ Hp Hm) as H. rewrite log10_hundredth in H. lra. }
  assert (Hhigh : forall t, (1 / 100 <= t -> consonanceValue t = 1 + log10 t / 2)%R).
  { intros t Ht. unfold consonanceValue.
    rewrite (Rmax_left t) by lra.
    pose proof (log10_le (1 / 100) t ltac:(lra) Ht) as H.
    rewrite log10_hundredth in H.
    rewrite Rmax_right by lra. lra. }
  split; [unfold consonanceValue; apply Rmax_l |].
  split; [apply Hlow |]. split; [apply Hhigh |]. split.
  - rewrite Hhigh by lra. unfold log10. rewrite ln_1. lra.
  - intros s' Hss'. unfold consonanceValue.
    apply Rle_max_compat_l.
    assert (Hp : (0 < Rmax s (1 / 10000000000))%R).
    { pose proof (Rmax_r s (1 / 10000000000)). lra. }
    pose proof (log10_le _ _ Hp (Rle_max_compat_r s s' (1 / 10000000000) Hss')).
    lra.
Qed.

(** ** Local maxima *)

Lemma read_inside (arr : list R) (j : Z) :
  0 <= j < Z.of_nat (List.length arr) -> read j arr = Some (value_at arr j).
Proof.
  intros Hj. unfold read, value_at.
  destruct (Z.ltb_spec j 0); [lia |].
  apply nth_error_nth'. lia.
Qed.

(** The inner loop inside the vector: it does not read outside, and its
    answer says whether [arr[i]] is above all the others it visits. *)
Lemma is_max_loop_inside (arr : list R) (i : Z) (iters : nat) :
  0 <= i < Z.of_nat (List.length arr) ->
  forall j, 0 <= j -> j + Z.of_nat iters <= Z.of_nat (List.length arr) ->
    exists is_max,
      is_max_loop arr i iters j = Some is_max /\
      (is_max = true <->
       forall j', j <= j' < j + Z.of_nat iters -> j' <> i ->
         (value_at arr j' < value_at arr i)%R).
Proof.
  intros Hi. induction iters as [| iters IH]; intros j Hj Hend.
  - exists true. split; [reflexivity |]. split; [intros _ j' Hj'; lia | reflexivity].
  - cbn [is_max_loop].
    destruct (IH (j + 1) ltac:(lia) ltac:(lia)) as (b & Hb & Hspec).
    destruct (Z.eqb_spec j i) as [-> | Hne]; cbn [negb].
    + exists b. split; [exact Hb |]. rewrite Hspec. split.
      * intros H j' Hj' Hne. apply H; lia.
      * intros H j' Hj' Hne. apply H; lia.
    + rewrite (read_inside arr j) by lia. rewrite (read_inside arr i) by lia.
      unfold Rleb. destruct (Rle_dec (value_at arr i) (value_at arr j)) as [Hle | Hgt].
      * exists false. split; [reflexivity |]. split; [discriminate |].
        intros H. specialize (H j ltac:(lia) Hne). lra.
      * exists b. split; [exact Hb |]. rewrite Hspec. split.
        -- intros H j' Hj' Hne'.
           destruct (Z.eq_dec j' j) as [-> | Hjj]; [lra | apply H; lia].
        -- intros H j' Hj' Hne'. apply H; lia.
Qed.

Lemma findLocalMaxima_loop_inside (arr : list R) (order : Z) (iters : nat) :
  0 <= order ->
  forall i maxima,
    order <= i ->
    i + Z.of_nat iters <= Z.of_nat (List.length arr) - order ->
    exists found,
      findLocalMaxima_loop arr order iters i maxima = Some (maxima ++ found) /\
      StronglySorted Z.lt found /\
      (forall x, In x found <->
                 i <= x < i + Z.of_nat iters /\ strict_local_max arr order x).
Proof.
  intros Horder. induction iters as [| iters IH]; intros i maxima Hi Hend.
  - exists []. rewrite app_nil_r. split; [reflexivity |].
    split; [constructor |]. intros x. cbn. split; [tauto | lia].
  - cbn [findLocalMaxima_loop].
    destruct (is_max_loop_inside arr i (Z.to_nat (2 * order + 1)) ltac:(lia)
                (i - order) ltac:(lia) ltac:(lia)) as (b & Hb & Hspec).
    rewrite Hb.
    assert (Hmax : b = true <-> strict_local_max arr order i).
    { rewrite Hspec. unfold strict_local_max. split.
      - intros H j Hj Hne. apply H; lia.
      - intros H j Hj Hne. apply H; lia. }
    destruct (IH (i + 1) (if b then maxima ++ [i] else maxima) ltac:(lia)
                ltac:(lia)) as (found & Hloop & Hsorted & Hin).
    rewrite Hloop. destruct b.
    + exists (i :: found). rewrite <- app_assoc. split; [reflexivity |].
      split.
      * constructor; [exact Hsorted |].
        apply Forall_forall. intros x Hx. apply Hin in Hx. lia.
      * intros x. cbn [In]. rewrite Hin. split.
        -- intros [<- | [Hx Hm]]; [| split; [lia | exact Hm]].
           split; [lia |]. apply Hmax. reflexivity.
        -- intros [Hx Hm].
           destruct (Z.eq_dec i x) as [-> | Hne]; [left; reflexivity |].
           right. split; [lia | exact Hm].
    + exists found. split; [reflexivity |]. split; [exact Hsorted |].
      intros x. rewrite Hin. split.
      * intros [Hx Hm]. split; [lia | exact Hm].
      * intros [Hx Hm]. split; [| exact Hm].
        destruct (Z.eq_dec i x) as [-> | Hne]; [| lia].
        apply Hmax in Hm. discriminate.
Qed.

(** X28. For [order >= 0], [findLocalMaxima(arr, order)] never reads outside
    [arr]; it returns, in ascending order, exactly the indices [i] with
    [order <= i < n - order] at which [arr[i]] is above every other value
    within [order] places on either side; and any two indices it returns
    are more than [order] apart. *)
Theorem findLocalMaxima_strict (arr : list R) (order : Z) :
  0 <= order ->
  exists maxima,
    findLocalMaxima arr order = Some maxima /\
    StronglySorted Z.lt maxima /\
    (forall i, In i maxima <->
               order <= i < Z.of_nat (List.length arr) - order
               /\ strict_local_max arr order i) /\
    (forall i i', In i maxima -> In i' maxima -> i < i' -> order < i' - i).
Proof.
  intros Horder. unfold findLocalMaxima.
  set (n := Z.of_nat (List.length arr)).
  assert (Hfound : exists found,
             findLocalMaxima_loop arr order (Z.to_nat (n - order - order))
               order [] = Some found /\
             StronglySorted Z.lt found /\
             (forall x, In x found <->
                        order <= x < n - order /\ strict_local_max arr order x)).
  { destruct (Z.le_gt_cases (n - order - order) 0) as [Hshort | Hlong].
    - exists []. replace (Z.to_nat (n - order - order)) with 0%nat by lia.
      split; [reflexivity |]. split; [constructor |].
      intros x. cbn [In]. split; [tauto | lia].
    - destruct (findLocalMaxima_loop_inside arr order
                  (Z.to_nat (n - order - order)) Horder order []
                  ltac:(lia) ltac:(fold n; lia))
        as (found & Hloop & Hsorted & Hin).
      exists found. split; [exact Hloop |]. split; [exact Hsorted |].
      intros x. rewrite Hin.
      split; intros [H1 H2]; (split; [lia | exact H2]). }
  destruct Hfound as (found & Hloop & Hsorted & Hin).
  exists found. split; [exact Hloop |].
  split; [exact Hsorted |]. split.
  - exact Hin.
  - intros i i' Hi Hi' Hlt.
    apply Hin in Hi, Hi'. destruct Hi as [_ Hm], Hi' as [_ Hm'].
    destruct (Z.lt_ge_cases order (i' - i)) as [| Hnear]; [assumption |].
    exfalso.
    specialize (Hm i' ltac:(lia) ltac:(lia)).
    specialize (Hm' i ltac:(lia) ltac:(lia)). lra.
Qed.

Lemma findLocalMaxima_strict_example :
  exists maxima,
    findLocalMaxima [1; 3; 2; 5; 4]%R 1 = Some maxima /\
    StronglySorted Z.lt maxima /\
    (forall i, In i maxima <->
               1 <= i < Z.of_nat (List.length [1; 3; 2; 5; 4]%R) - 1
               /\ strict_local_max [1; 3; 2; 5; 4]%R 1 i) /\
    (forall i i', In i maxima -> In i' maxima -> i < i' -> 1 < i' - i).
Proof.
  apply (findLocalMaxima_strict [1; 3; 2; 5; 4]%R 1). lia.
Defined.

(** ** Numerical gradient *)

Lemma length_assign_nat (i : nat) (v : R) (g : list R) :
  List.length (assign_nat i v g) = List.length g.
Proof.
  revert i. induction g as [| u g IH]; intros [| i]; cbn; auto.
Qed.

Lemma length_assign (i : Z) (v : R) (g : list R) :
  List.length (assign i v g) = List.length g.
Proof.
  unfold assign. destruct (i <? 0); [reflexivity | apply length_assign_nat].
Qed.

Lemma nth_assign_nat (i : nat) (v : R) (g : list R) (k : nat) :
  (i < List.length g)%nat ->
  nth k (assign_nat i v g) 0%R = if Nat.eqb k i then v else nth k g 0%R.
Proof.
  revert i k. induction g as [| u g IH]; intros i k Hi; [cbn in Hi; lia |].
  destruct i as [| i], k as [| k]; cbn [assign_nat nth Nat.eqb]; try reflexivity.
  apply IH. cbn in Hi. lia.
Qed.

Lemma nth_assign (i : Z) (v : R) (g : list R) (k : nat) :
  0 <= i < Z.of_nat (List.length g) ->
  nth k (assign i v g) 0%R = if Z.of_nat k =? i then v else nth k g 0%R.
Proof.
  intros Hi. unfold assign. destruct (Z.ltb_spec i 0); [lia |].
  rewrite nth_assign_nat by lia.
  destruct (Nat.eqb_spec k (Z.to_nat i)), (Z.eqb_spec (Z.of_nat k) i);
    try reflexivity; lia.
Qed.

Lemma length_npGradient_loop (f : list R) (dx : R) (iters : nat) :
  forall i g,
    List.length (npGradient_loop f dx iters i g) = List.length g.
Proof.
  induction iters as [| iters IH]; intros i g; cbn [npGradient_loop];
    [reflexivity |].
  rewrite IH. apply length_assign.
Qed.

Lemma nth_npGradient_loop (f : list R) (dx : R) (iters : nat) :
  forall i g k,
    0 <= i -> i + Z.of_nat iters <= Z.of_nat (List.length g) ->
    nth k (npGradient_loop f dx iters i g) 0%R
    = if (i <=? Z.of_nat k) && (Z.of_nat k <? i + Z.of_nat iters)
      then ((at_index f (Z.of_nat k + 1) - at_index f (Z.of_nat k - 1))
            / (2 * dx))%R
      else nth k g 0%R.
Proof.
  induction iters as [| iters IH]; intros i g k Hi Hend;
    cbn [npGradient_loop].
  - destruct (Z.leb_spec i (Z.of_nat k)), (Z.ltb_spec (Z.of_nat k) (i + Z.of_nat 0));
      cbn [andb]; try reflexivity; lia.
  - rewrite IH by (rewrite ?length_assign; lia).
    rewrite nth_assign by lia.
    destruct (Z.leb_spec (i + 1) (Z.of_nat k)),
      (Z.ltb_spec (Z.of_nat k) (i + 1 + Z.of_nat iters)),
      (Z.leb_spec i (Z.of_nat k)),
      (Z.ltb_spec (Z.of_nat k) (i + Z.of_nat (S iters))),
      (Z.eqb_spec (Z.of_nat k) i); cbn [andb]; try reflexivity; try lia.
    subst i. reflexivity.
Qed.

Lemma nth_count_from (k : nat) :
  forall i n d, (k < n)%nat -> nth k (count_from i n) d = i + Z.of_nat k.
Proof.
  induction k as [| k IH]; intros i n d Hk; destruct n as [| n]; try lia;
    cbn [count_from nth].
  - lia.
  - rewrite IH by lia. lia.
Qed.

Lemma nth_map_inside {A B : Type} (h : A -> B) (l : list A) (k : nat)
  (d : B) (d' : A) :
  (k < List.length l)%nat -> nth k (map h l) d = h (nth k l d').
Proof.
  revert k. induction l as [| x l IH]; intros [| k] Hk; cbn in *; try lia.
  - reflexivity.
  - apply IH. lia.
Qed.

Lemma length_count_from (n : nat) : forall i, List.length (count_from i n) = n.
Proof. induction n as [| n IH]; intros i; cbn; auto. Qed.

(** [npGradient] keeps the length of its input. *)
Lemma length_npGradient (f : list R) (dx : R) :
  List.length (npGradient f dx) = List.length f.
Proof.
  unfold npGradient.
  destruct (Z.of_nat (List.length f) <? 2); [apply repeat_length |].
  rewrite length_npGradient_loop, !length_assign. apply repeat_length.
Qed.

(** X29. [npGradient] is exact on evenly spaced samples of a line: for the
    [n >= 2] values [c + i * s], [i = 0 .. n-1], and a step [dx] other than
    0, every one of the [n] entries of the gradient is [s / dx], the
    one-sided ones at the two ends included. *)
Theorem npGradient_linear (c s dx : R) (n : nat) :
  dx <> 0%R -> (2 <= n)%nat ->
  npGradient (map (fun i => (c + IZR i * s)%R) (count_from 0 n)) dx
  = repeat (s / dx)%R n.
Proof.
  intros Hdx Hn.
  set (f := map (fun i => (c + IZR i * s)%R) (count_from 0 n)).
  assert (Hfl : List.length f = n).
  { subst f. rewrite length_map. apply length_count_from. }
  assert (Hat : forall k, 0 <= k < Z.of_nat n ->
                          at_index f k = (c + IZR k * s)%R).
  { intros k Hk. unfold at_index. destruct (Z.ltb_spec k 0); [lia |].
    subst f.
    rewrite (nth_map_inside (fun i => (c + IZR i * s)%R) _ _ 0%R 0)
      by (rewrite length_count_from; lia).
    rewrite nth_count_from by lia. f_equal. f_equal. f_equal. lia. }
  apply (nth_ext _ _ 0%R 0%R).
  { rewrite length_npGradient, repeat_length. exact Hfl. }
  intros k Hk. rewrite length_npGradient, Hfl in Hk.
  rewrite nth_repeat_lt by exact Hk.
  unfold npGradient. rewrite Hfl.
  destruct (Z.ltb_spec (Z.of_nat n) 2); [lia |].
  rewrite nth_npGradient_loop
    by (rewrite ?length_assign, ?repeat_length; lia).
  rewrite !nth_assign by (rewrite ?length_assign, ?repeat_length; lia).
  destruct (Z.leb_spec 1 (Z.of_nat k)),
    (Z.ltb_spec (Z.of_nat k) (1 + Z.of_nat (Z.to_nat (Z.of_nat n - 2))));
    cbn [andb].
  - rewrite !Hat by lia. rewrite plus_IZR, minus_IZR. field. exact Hdx.
  - destruct (Z.eqb_spec (Z.of_nat k) (Z.of_nat n - 1)); [| lia].
    rewrite !Hat by lia. rewrite !minus_IZR. field. exact Hdx.
  - destruct (Z.eqb_spec (Z.of_nat k) (Z.of_nat n - 1)); [lia |].
    destruct (Z.eqb_spec (Z.of_nat k) 0); [| lia].
    rewrite !Hat by lia. field. exact Hdx.
  - lia.
Qed.

Lemma npGradient_linear_example :
  npGradient (map (fun i => (1 + IZR i * 2)%R) (count_from 0 4)) (5 / 10)
  = repeat (2 / (5 / 10))%R 4.
Proof.
  apply (npGradient_linear 1 2 (5 / 10) 4); [lra | lia].
Defined.

(** With fewer than two values there is no difference to take: the
    gradient is all zeros. *)
Lemma npGradient_short (f : list R) (dx : R) :
  (List.length f < 2)%nat -> npGradient f dx = repeat 0%R (List.length f).
Proof.
  intros Hshort. unfold npGradient.
  destruct (Z.ltb_spec (Z.of_nat (List.length f)) 2); [reflexivity | lia].
Qed.

(** ** Pitch sets (pitchset.cpp) *)

Lemma Zceil_le_iff (x : R) (j : Z) : Zceil x <= j <-> (x <= IZR j)%R.
Proof.
  pose proof (Zceil_bound x) as [Hlo Hhi]. split.
  - intros H. apply IZR_le in H. lra.
  - intros H. assert (Hlt : (IZR (Zceil x) < IZR (j + 1))%R)
      by (rewrite plus_IZR; lra).
    apply lt_IZR in Hlt. lia.
Qed.

Lemma Zfloor_ge_iff (x : R) (j : Z) : j <= Zfloor x <-> (IZR j <= x)%R.
Proof.
  pose proof (Zfloor_bound x) as [Hlo Hhi]. split.
  - intros H. apply IZR_le in H. lra.
  - apply Zfloor_lub.
Qed.

(** Sorting a pitch set that is in ascending order changes nothing. *)
Lemma sort_by_log2fr_sorted (l : list PitchSetPitch.t) :
  StronglySorted lower_pitch l -> sort_by_log2fr l = l.
Proof.
  induction 1 as [| p l Hsorted IH Hall]; [reflexivity |].
  unfold sort_by_log2fr in *. cbn [fold_right]. rewrite IH.
  destruct l as [| q l]; [reflexivity |]. cbn [insert_by_log2fr].
  inversion Hall as [| ? ? Hpq _]; subst. unfold lower_pitch in Hpq.
  unfold Rltb. destruct (Rlt_dec _ _); [lra | reflexivity].
Qed.

Lemma in_count_from (k : nat) :
  forall i x, In x (count_from i k) <-> i <= x < i + Z.of_nat k.
Proof.
  induction k as [| k IH]; intros i x; cbn [count_from In]; [lia |].
  rewrite IH. lia.
Qed.

Lemma et_pitch_ascending (n_et : Z) (e : R) (k : nat) :
  0 < n_et -> (0 < e)%R ->
  forall i, StronglySorted lower_pitch (map (et_pitch n_et e) (count_from i k)).
Proof.
  intros Hn He. induction k as [| k IH]; intros i; cbn [count_from map];
    constructor; [apply IH |].
  apply Forall_forall. intros q Hq.
  apply in_map_iff in Hq. destruct Hq as (j & <- & Hj).
  apply in_count_from in Hj. unfold lower_pitch, et_pitch.
  cbn [PitchSetPitch.log2fr].
  assert (Hn' : (0 < IZR n_et)%R) by (apply IZR_lt; exact Hn).
  assert (Hij : (IZR i < IZR j)%R) by (apply IZR_lt; lia).
  unfold Rdiv. apply Rmult_lt_compat_r; [apply Rinv_0_lt_compat; exact Hn' |].
  apply Rmult_lt_compat_r; assumption.
Qed.

(** The loop keeps every step that lies in the range. *)
Lemma generateETPitchSet_loop_keeps (n_et : Z) (e lo hi : R) (iters : nat) :
  forall i pitchset,
    (forall j, i <= j < i + Z.of_nat iters ->
               (lo <= IZR j * e / IZR n_et <= hi)%R) ->
    generateETPitchSet_loop n_et e lo hi iters i pitchset
    = pitchset ++ map (et_pitch n_et e) (count_from i iters).
Proof.
  induction iters as [| iters IH]; intros i pitchset Hrange;
    cbn [generateETPitchSet_loop count_from map].
  - symmetry. apply app_nil_r.
  - cbv zeta. cbn [PitchSetPitch.log2fr].
    specialize (Hrange i ltac:(lia)) as Hi.
    unfold Rleb at 1 2.
    destruct (Rle_dec _ _) as [_ | Hno]; [| exfalso; apply Hno; lra].
    destruct (Rle_dec _ _) as [_ | Hno]; [| exfalso; apply Hno; lra].
    cbn [andb]. rewrite IH by (intros j Hj; apply Hrange; lia).
    rewrite <- app_assoc. reflexivity.
Qed.

(** X30. For a division into [n_et > 0] parts of a positive [equave_log2fr],
    [generateETPitchSet] returns, in strictly ascending order, exactly the
    steps [i * equave_log2fr / n_et] that lie between [min_log2fr] and
    [max_log2fr], both ends included, labelled [i\n_et]: the tolerance of
    [1e-6] lets nothing in from outside the range, and the sort changes
    nothing. *)
Theorem generateETPitchSet_steps (n_et : Z) (e lo hi : R) :
  0 < n_et -> (0 < e)%R ->
  StronglySorted lower_pitch (generateETPitchSet n_et e lo hi) /\
  forall p, In p (generateETPitchSet n_et e lo hi) <->
            exists i, p = et_pitch n_et e i /\
                      (lo <= IZR i * e / IZR n_et <= hi)%R.
Proof.
  intros Hn He.
  assert (Hn' : (0 < IZR n_et)%R) by (apply IZR_lt; exact Hn).
  set (min_step := Zceil (lo * IZR n_et / e)).
  set (max_step := Zfloor (hi * IZR n_et / e)).
  assert (Hstep : forall j, min_step <= j <= max_step <->
                            (lo <= IZR j * e / IZR n_et <= hi)%R).
  { intros j. unfold min_step, max_step.
    rewrite Zceil_le_iff, Zfloor_ge_iff.
    assert (H1 : (lo * IZR n_et / e <= IZR j <-> lo <= IZR j * e / IZR n_et)%R).
    { split; intros H.
      - apply (Rmult_le_reg_r (IZR n_et / e));
          [apply Rdiv_lt_0_compat; assumption |].
        replace (IZR j * e / IZR n_et * (IZR n_et / e))%R with (IZR j)
          by (field; lra).
        lra.
      - apply (Rmult_le_reg_r (e / IZR n_et));
          [apply Rdiv_lt_0_compat; assumption |].
        replace (lo * IZR n_et / e * (e / IZR n_et))%R with lo
          by (field; lra).
        lra. }
    assert (H2 : (IZR j <= hi * IZR n_et / e <-> IZR j * e / IZR n_et <= hi)%R).
    { split; intros H.
      - apply (Rmult_le_reg_r (IZR n_et / e));
          [apply Rdiv_lt_0_compat; assumption |].
        replace (IZR j * e / IZR n_et * (IZR n_et / e))%R with (IZR j)
          by (field; lra).
        lra.
      - apply (Rmult_le_reg_r (e / IZR n_et));
          [apply Rdiv_lt_0_compat; assumption |].
        replace (hi * IZR n_et / e * (e / IZR n_et))%R with hi
          by (field; lra).
        lra. }
    tauto. }
  assert (Hclosed : generateETPitchSet n_et e lo hi
                    = map (et_pitch n_et e)
                        (count_from min_step
                           (Z.to_nat (max_step - min_step + 1)))).
  { unfold generateETPitchSet. fold min_step max_step. cbv zeta.
    rewrite generateETPitchSet_loop_keeps
      by (intros j Hj; apply Hstep; lia).
    cbn [app]. apply sort_by_log2fr_sorted.
    apply et_pitch_ascending; assumption. }
  rewrite Hclosed. split; [apply et_pitch_ascending; assumption |].
  intros p. rewrite in_map_iff. split.
  - intros (i & <- & Hi). exists i. split; [reflexivity |].
    apply Hstep. apply in_count_from in Hi. lia.
  - intros (i & -> & Hi). exists i. split; [reflexivity |].
    apply in_count_from. apply Hstep in Hi. lia.
Qed.

Lemma generateETPitchSet_steps_12 :
  StronglySorted lower_pitch (generateETPitchSet 12 1 0 1) /\
  forall p, In p (generateETPitchSet 12 1 0 1) <->
            exists i, p = et_pitch 12 1 i /\
                      (0 <= IZR i * 1 / IZR 12 <= 1)%R.
Proof.
  apply (generateETPitchSet_steps 12 1 0 1); [lia | lra].
Defined.
